(** * LED stage scene editor: a shallow embedding of [main_oop.js]

    The development follows the classes of the source file:
    [LEDScreen], [SceneObject], [CinemaCamera], [LEDStudioManager] and the
    controller [LEDStageApp]; [selectModel] and [deselectModel] of the
    procedural variant of the program are embedded in the module
    [Procedural] at the end.  JavaScript objects that are shared by
    reference (materials, placed objects, cinema cameras) live in stores
    indexed by identifiers; values that are only copied (colours, numbers)
    are plain data.

    Conventions.
    - A JavaScript number is an IEEE binary64 value ([float]); a property that
      may be [undefined] is an [option].
    - [Math.atan], which ECMAScript leaves to the engine, is the routine of
      fdlibm that V8 and SpiderMonkey ship, in binary64 ([Math.atan]).
    - A texture, a geometry and a material are referred to by identifier;
      reference equality of the source is equality of identifiers.
    - [console.warn] / [console.error] calls and the material listing of
      [logAvailableMaterials] are recorded in a console trace; purely
      informational [console.log] calls are not.
    - The renderer, the glTF loader, the texture loader and the DOM are
      outside the program: their outcomes are parameters of the operations
      that call them. *)

From Stdlib Require Import ZArith List Bool Lia.
From Stdlib Require Import Floats.PrimFloat Numbers.Cyclic.Int63.Uint63.
From stdpp Require Import gmap strings list pretty.

Set Warnings "-inexact-float,-register-all".
Local Open Scope string_scope.
Local Open Scope list_scope.

(* ===================================================================== *)
(** ** JavaScript values *)
(* ===================================================================== *)

Module JS.

(** Truthiness of a number: [0], [-0] and [NaN] are falsy. *)
Definition truthy (x : float) : bool :=
  negb (PrimFloat.eqb x 0%float) && PrimFloat.eqb x x.

(** [v || d] for a numeric property [v] that may be [undefined]. *)
Definition or_num (v : option float) (d : float) : float :=
  match v with
  | Some x => if truthy x then x else d
  | None => d
  end.

(** [s || d] for strings: the empty string is falsy. *)
Definition or_str (s d : string) : string :=
  if String.eqb s "" then d else s.

(** Outcome of a call: normal completion with a value, or an exception. *)
Inductive completion (A : Type) : Type :=
| Normal (a : A)
| Throw (what : string).
Arguments Normal {A} a.
Arguments Throw {A} what.

(** An insertion-ordered [Map] with string keys: [set] keeps the position of
    an existing key and appends a new one; [delete] removes the key;
    [forEach] and [values()] run in list order. *)
Section OrderedMap.
Context {V : Type}.

Fixpoint set (k : string) (v : V) (m : list (string * V)) : list (string * V) :=
  match m with
  | [] => [(k, v)]
  | (k', v') :: r =>
      if String.eqb k' k then (k', v) :: r else (k', v') :: set k v r
  end.

Definition delete (k : string) (m : list (string * V)) : list (string * V) :=
  List.filter (fun kv => negb (String.eqb (fst kv) k)) m.

Definition values (m : list (string * V)) : list V := List.map snd m.

Definition keys (m : list (string * V)) : list string := List.map fst m.

End OrderedMap.

End JS.

(** [Math.PI] and [Math.atan].  The arc tangent is [atan] of fdlibm
    ([s_atan.c]): the argument is reduced to one of five intervals and an
    odd polynomial of degree 23 is evaluated; the tests on the high word of
    the argument are written as comparisons with the doubles they stand
    for. *)
Module Math.

Definition PI : float := 0x1.921fb54442d18p+1%float.

Definition atanhi (id : nat) : float :=
  match id with
  | 0 => 0x1.dac670561bb4fp-2        (* atan(0.5) *)
  | 1 => 0x1.921fb54442d18p-1        (* atan(1.0) *)
  | 2 => 0x1.f730bd281f69bp-1        (* atan(1.5) *)
  | _ => 0x1.921fb54442d18p+0        (* atan(inf) *)
  end%float.

Definition atanlo (id : nat) : float :=
  match id with
  | 0 => 0x1.a2b7f222f65e2p-56
  | 1 => 0x1.1a62633145c07p-55
  | 2 => 0x1.007887af0cbbdp-56
  | _ => 0x1.1a62633145c07p-54
  end%float.

Definition aT (i : nat) : float :=
  match i with
  | 0 => 0x1.555555555550dp-2
  | 1 => -0x1.999999998ebc4p-3
  | 2 => 0x1.24924920083ffp-3
  | 3 => -0x1.c71c6fe231671p-4
  | 4 => 0x1.745cdc54c206ep-4
  | 5 => -0x1.3b0f2af749a6dp-4
  | 6 => 0x1.10d66a0d03d51p-4
  | 7 => -0x1.dde2d52defd9ap-5
  | 8 => 0x1.97b4b24760debp-5
  | 9 => -0x1.2b4442c6a6c2fp-5
  | _ => 0x1.0ad3ae322da11p-6
  end%float.

(** [x * (s1 + s2)] for the reduced argument [x]. *)
Definition atan_poly (x : float) : float :=
  (let z := x * x in
   let w := z * z in
   let s1 := z * (aT 0 + w * (aT 2 + w * (aT 4 + w * (aT 6 + w * (aT 8 + w * aT 10))))) in
   let s2 := w * (aT 1 + w * (aT 3 + w * (aT 5 + w * (aT 7 + w * aT 9)))) in
   x * (s1 + s2))%float.

Definition atan_reduced (id : nat) (x : float) : float :=
  (atanhi id - ((atan_poly x - atanlo id) - x))%float.

Definition atan (x : float) : float :=
  (let ax := abs x in
   if negb (x =? x) then x + x                             (* NaN *)
   else if 0x1p66 <=? ax then
     if 0 <? x then atanhi 3 + atanlo 3 else - atanhi 3 - atanlo 3
   else if ax <? 0.4375 then
     if ax <? 0x1p-29 then x else x - atan_poly x
   else
     let z :=
       if ax <? 1.1875 then
         if ax <? 0.6875 then atan_reduced 0 ((2 * ax - 1) / (2 + ax))
         else atan_reduced 1 ((ax - 1) / (ax + 1))
       else
         if ax <? 2.4375 then atan_reduced 2 ((ax - 1.5) / (1 + 1.5 * ax))
         else atan_reduced 3 (-1 / ax) in
     if x <? 0 then - z else z)%float.

End Math.

(* ===================================================================== *)
(** ** The part of three.js the program touches *)
(* ===================================================================== *)

Definition TexId := positive.
Definition GeomId := positive.
Definition MatId := positive.
Definition ObjId := positive.

(** Address of a [SceneObject] or [CinemaCamera] instance. *)
Definition Addr := positive.

(** A colour is either set from a hexadecimal literal ([setHex],
    [new THREE.Color(hex)]) or comes with the asset as three components.
    [clone] and [copy] transfer the value unchanged. *)
Inductive Color : Type :=
| Hex (h : Z)
| RGB (r g b : float).

Module Texture.

Inductive Wrapping : Type := ClampToEdgeWrapping | RepeatWrapping.

Record t : Type := mk {
  wrapS : Wrapping;
  wrapT : Wrapping;
  flipY : bool;
  isCustomTexture : bool;   (* userData.isCustomTexture *)
  srcIsDataURL : bool       (* image.src starts with "data:" *)
}.

End Texture.

Module Material.

Record t : Type := mk {
  name : string;
  map : option TexId;
  normalMap : option TexId;
  emissiveMap : option TexId;
  emissive : option Color;            (* absent on unlit materials *)
  emissiveIntensity : option float;   (* absent on unlit materials *)
  needsUpdate : bool
}.

Definition set_map (v : option TexId) (m : t) : t :=
  mk (name m) v (normalMap m) (emissiveMap m) (emissive m)
     (emissiveIntensity m) (needsUpdate m).

Definition set_emissiveMap (v : option TexId) (m : t) : t :=
  mk (name m) (map m) (normalMap m) v (emissive m)
     (emissiveIntensity m) (needsUpdate m).

Definition set_emissive (v : option Color) (m : t) : t :=
  mk (name m) (map m) (normalMap m) (emissiveMap m) v
     (emissiveIntensity m) (needsUpdate m).

Definition set_emissiveIntensity (v : option float) (m : t) : t :=
  mk (name m) (map m) (normalMap m) (emissiveMap m) (emissive m)
     v (needsUpdate m).

Definition set_needsUpdate (v : bool) (m : t) : t :=
  mk (name m) (map m) (normalMap m) (emissiveMap m) (emissive m)
     (emissiveIntensity m) v.

End Material.

(** The material store: every material object of the session. *)
Abbreviation Mats := (gmap MatId Material.t).

(** [child.material]: absent, one material, or an array of materials. *)
Inductive MaterialSlot : Type :=
| NoMaterial
| Single (m : MatId)
| Multi (ms : list MatId).

Module Node.

(** [child.userData] as far as the program uses it. *)
Record UserData : Type := mkUserData {
  originalEmissive : option Color;
  originalEmissiveIntensity : option float
}.

Record t : Type := mk {
  uuid : ObjId;
  name : string;
  isMesh : bool;
  geometry : option GeomId;
  material : MaterialSlot;
  userData : UserData;
  castShadow : bool;
  receiveShadow : bool
}.

Definition set_userData (u : UserData) (d : t) : t :=
  mk (uuid d) (name d) (isMesh d) (geometry d) (material d) u
     (castShadow d) (receiveShadow d).

Definition set_shadows (c r : bool) (d : t) : t :=
  mk (uuid d) (name d) (isMesh d) (geometry d) (material d) (userData d) c r.

(** [child.material] is truthy. *)
Definition hasMaterial (d : t) : bool :=
  match material d with NoMaterial => false | _ => true end.

(** [Array.isArray(m) ? m : [m]] *)
Definition materials (d : t) : list MatId :=
  match material d with
  | NoMaterial => []
  | Single m => [m]
  | Multi ms => ms
  end.

End Node.

(** A scene-graph subtree. *)
Inductive Object3D : Type :=
| Obj (d : Node.t) (children : list Object3D).

(** [traverse] visits the object, then each child subtree in order. *)
Fixpoint nodes (o : Object3D) : list Node.t :=
  match o with
  | Obj d cs => d :: List.concat (List.map nodes cs)
  end.

(** [traverse] with a callback that only rewrites the visited node. *)
Fixpoint traverse_map (f : Node.t -> Node.t) (o : Object3D) : Object3D :=
  match o with
  | Obj d cs => Obj (f d) (List.map (traverse_map f) cs)
  end.

Definition root (o : Object3D) : Node.t :=
  match o with Obj d _ => d end.

(** What [dispose()] was called on. *)
Inductive Resource : Type :=
| RGeometry (g : GeomId)
| RTexture (t : TexId)
| RMaterial (m : MatId)
| RCameraGeometry (a : Addr)
| RCameraMaterial (a : Addr)
| RCameraHelper (a : Addr)
| RCaptureRenderer.

(** Children of the scene root. *)
Inductive SceneChild : Type :=
| ChildObject (uuid : ObjId)       (* a loaded glTF scene *)
| ChildCameraGroup (a : Addr)
| ChildCameraHelper (a : Addr)
| ChildTransformControls
| ChildSpotLight
| ChildAmbientLight.

(** Console trace. *)
Inductive Console : Type :=
| Warn (msg arg : string)
| Error (msg : string)
| LogLine (msg : string)
| LogMaterial (matName meshName : string) (index : nat).

(** The object graph and the traces the classes act on. *)
Record World : Type := mkWorld {
  mats : Mats;
  texs : gmap TexId Texture.t;
  disposed : list Resource;     (* most recent first *)
  scene : list SceneChild;
  console : list Console;       (* most recent first *)
  downloads : list string       (* most recent first *)
}.

Definition set_mats (f : Mats -> Mats) (w : World) : World :=
  mkWorld (f (mats w)) (texs w) (disposed w) (scene w) (console w) (downloads w).

Definition set_texs (f : gmap TexId Texture.t -> gmap TexId Texture.t)
    (w : World) : World :=
  mkWorld (mats w) (f (texs w)) (disposed w) (scene w) (console w) (downloads w).

Definition dispose (r : Resource) (w : World) : World :=
  mkWorld (mats w) (texs w) (r :: disposed w) (scene w) (console w) (downloads w).

Definition set_scene (f : list SceneChild -> list SceneChild) (w : World) : World :=
  mkWorld (mats w) (texs w) (disposed w) (f (scene w)) (console w) (downloads w).

Definition log (c : Console) (w : World) : World :=
  mkWorld (mats w) (texs w) (disposed w) (scene w) (c :: console w) (downloads w).

Definition download (file : string) (w : World) : World :=
  mkWorld (mats w) (texs w) (disposed w) (scene w) (console w) (file :: downloads w).

(** Assignment to a property of a material object. *)
Definition update_mat (m : MatId) (f : Material.t -> Material.t) (w : World) : World :=
  set_mats (alter f m) w.
Arguments update_mat : simpl never.

Definition SceneChild_eqb (a b : SceneChild) : bool :=
  match a, b with
  | ChildObject x, ChildObject y => Pos.eqb x y
  | ChildCameraGroup x, ChildCameraGroup y => Pos.eqb x y
  | ChildCameraHelper x, ChildCameraHelper y => Pos.eqb x y
  | ChildTransformControls, ChildTransformControls => true
  | ChildSpotLight, ChildSpotLight => true
  | ChildAmbientLight, ChildAmbientLight => true
  | _, _ => false
  end.

(** [scene.add(o)]: an object already in the scene is moved to the end. *)
Definition scene_add (c : SceneChild) (w : World) : World :=
  set_scene (fun l => List.filter (fun x => negb (SceneChild_eqb x c)) l ++ [c]) w.

(** [scene.remove(o)] *)
Definition scene_remove (c : SceneChild) (w : World) : World :=
  set_scene (List.filter (fun x => negb (SceneChild_eqb x c))) w.

(** The controller's screen state kept across studio changes.
    [globalBrightness] starts as [1.0] and is only ever assigned numbers, so
    the test against [null] and [undefined] in [applyGlobalState] always
    succeeds. *)
Record Globals : Type := mkGlobals {
  globalCustomTexture : option TexId;
  globalCustomEmissiveTexture : option TexId;
  globalBrightness : float
}.

(* ===================================================================== *)
(** ** class LEDScreen *)
(* ===================================================================== *)

Module LEDScreen.

Record t : Type := mk {
  mesh : option Object3D;
  materialName : string;
  material : option MatId;
  originalBaseColorTexture : option TexId;
  originalEmissiveTexture : option TexId;
  originalEmissiveIntensity : float;
  currentTexture : option TexId;
  brightness : float;
  app : bool            (* [this.app] refers to the controller *)
}.

Definition set_currentTexture (v : option TexId) (s : t) : t :=
  mk (mesh s) (materialName s) (material s) (originalBaseColorTexture s)
     (originalEmissiveTexture s) (originalEmissiveIntensity s) v
     (brightness s) (app s).

Definition set_brightness (v : float) (s : t) : t :=
  mk (mesh s) (materialName s) (material s) (originalBaseColorTexture s)
     (originalEmissiveTexture s) (originalEmissiveIntensity s)
     (currentTexture s) v (app s).

(** The materials the callback of a traversal sees on one node:
    [if (child.isMesh && child.material)], then the array or the single one. *)
Definition meshMaterials (d : Node.t) : list MatId :=
  if Node.isMesh d && Node.hasMaterial d then Node.materials d else [].

(** Body of [materials.forEach] in [findTargetMaterial]: every material whose
    name matches overwrites the binding made so far. *)
Definition bindMaterial (w : World) (s : t) (mid : MatId) : t :=
  match mats w !! mid with
  | Some mat =>
      if String.eqb (Material.name mat) (materialName s) then
        mk (mesh s) (materialName s) (Some mid)
           (Material.map mat) (Material.emissiveMap mat)
           (JS.or_num (Material.emissiveIntensity mat) 1)
           (currentTexture s)
           (JS.or_num (Material.emissiveIntensity mat) 1)
           (app s)
      else s
  | None => s
  end.

Definition scanMesh (w : World) (m : Object3D) (s : t) : t :=
  fold_left (fun s d => fold_left (bindMaterial w) (meshMaterials d) s) (nodes m) s.

(** The lines printed by [materials.forEach((mat, index) => ...)] on one node. *)
Fixpoint listMaterials (w : World) (meshName : string) (index : nat)
    (ms : list MatId) : list Console :=
  match ms with
  | [] => []
  | mid :: r =>
      match mats w !! mid with
      | Some mat =>
          LogMaterial (JS.or_str (Material.name mat) "Unnamed")
                      (JS.or_str meshName "Unnamed mesh") index
          :: listMaterials w meshName (S index) r
      | None => listMaterials w meshName (S index) r
      end
  end.

(** Output of [logAvailableMaterials], in the order printed. *)
Definition availableMaterials (w : World) (m : Object3D) : list Console :=
  LogLine "Available materials:"
  :: List.concat
       (List.map (fun d => listMaterials w (Node.name d) 0 (meshMaterials d))
                 (nodes m)).

Definition logAvailableMaterials (m : Object3D) (w : World) : World :=
  fold_left (fun w c => log c w) (availableMaterials w m) w.

Definition findTargetMaterial (s : t) (w : World) : t * World :=
  match mesh s with
  | None => (s, w)
  | Some m =>
      let s' := scanMesh w m s in
      match material s' with
      | Some _ => (s', w)
      | None =>
          (s', logAvailableMaterials m
                 (log (Warn "LED screen material not found:" (materialName s')) w))
      end
  end.

Definition applyGlobalState (s : t) (g : Globals) (w : World) : t * World :=
  match material s, app s with
  | Some mid, true =>
      let '(s1, w1) :=
        (set_brightness (globalBrightness g) s,
         update_mat mid (Material.set_emissiveIntensity (Some (globalBrightness g))) w) in
      let '(s2, w2) :=
        match globalCustomTexture g with
        | Some tex =>
            (set_currentTexture (Some tex) s1,
             update_mat mid (Material.set_emissiveMap (globalCustomEmissiveTexture g))
               (update_mat mid (Material.set_map (Some tex)) w1))
        | None => (s1, w1)
        end in
      (s2, update_mat mid (Material.set_needsUpdate true) w2)
  | _, _ => (s, w)
  end.

(** [new LEDScreen(mesh, materialName, app)] *)
Definition new (mesh : option Object3D) (materialName : string) (app : bool)
    (g : Globals) (w : World) : t * World :=
  let s0 := mk mesh materialName None None None 1 None 1 app in
  let '(s1, w1) := findTargetMaterial s0 w in
  applyGlobalState s1 g w1.

(** The texture object handed to the [TextureLoader] callback. *)
Definition customTexture : Texture.t :=
  Texture.mk Texture.RepeatWrapping Texture.RepeatWrapping false true true.

(** [setCustomTexture(file, callback)].  [loaded] is what the chain
    file reader, image decoder, canvas crop and texture loader delivers:
    [Some texture] when the load callback runs, [None] when it never does. *)
Definition setCustomTexture (loaded : option TexId) (s : t) (g : Globals)
    (w : World) : t * Globals * World :=
  match material s with
  | None => (s, g, log (Warn "No material found to apply texture" "") w)
  | Some mid =>
      match loaded with
      | None => (s, g, w)
      | Some texture =>
          let w1 := set_texs (insert texture customTexture) w in
          let w2 := update_mat mid (Material.set_map (Some texture)) w1 in
          let w3 := update_mat mid (Material.set_emissiveMap (Some texture)) w2 in
          let w4 := update_mat mid (Material.set_needsUpdate true) w3 in
          let s' := set_currentTexture (Some texture) s in
          let g' := if app s
                    then mkGlobals (Some texture) (Some texture) (globalBrightness g)
                    else g in
          (s', g', w4)
      end
  end.

Definition setBrightness (intensity : float) (s : t) (g : Globals)
    (w : World) : t * Globals * World :=
  match material s with
  | None => (s, g, w)
  | Some mid =>
      let s' := set_brightness intensity s in
      let w1 := update_mat mid (Material.set_emissiveIntensity (Some intensity)) w in
      let w2 := update_mat mid (Material.set_needsUpdate true) w1 in
      let g' := if app s
                then mkGlobals (globalCustomTexture g) (globalCustomEmissiveTexture g)
                               intensity
                else g in
      (s', g', w2)
  end.

Definition resetToOriginal (s : t) (g : Globals) (w : World) : t * Globals * World :=
  match material s with
  | None => (s, g, w)
  | Some mid =>
      let w1 := update_mat mid (Material.set_map (originalBaseColorTexture s)) w in
      let w2 := update_mat mid (Material.set_emissiveMap (originalEmissiveTexture s)) w1 in
      let w3 := update_mat mid
                  (Material.set_emissiveIntensity (Some (originalEmissiveIntensity s))) w2 in
      let w4 := update_mat mid (Material.set_needsUpdate true) w3 in
      let s' := set_currentTexture None (set_brightness (originalEmissiveIntensity s) s) in
      let g' := if app s
                then mkGlobals None None (originalEmissiveIntensity s)
                else g in
      (s', g', w4)
  end.

(** A call of one of the mutating methods by the user interface. *)
Inductive call : Type :=
| CallSetCustomTexture (loaded : option TexId)
| CallSetBrightness (intensity : float).

Definition run (c : call) (st : t * Globals * World) : t * Globals * World :=
  let '(s, g, w) := st in
  match c with
  | CallSetCustomTexture loaded => setCustomTexture loaded s g w
  | CallSetBrightness v => setBrightness v s g w
  end.

Definition runAll (cs : list call) (st : t * Globals * World) : t * Globals * World :=
  fold_left (fun st c => run c st) cs st.

End LEDScreen.

(* ===================================================================== *)
(** ** class SceneObject *)
(* ===================================================================== *)

Module SceneObject.

Record t : Type := mk {
  mesh : Object3D;
  name : string;
  id : string;
  isSelected : bool
}.

Definition set_isSelected (v : bool) (o : t) : t :=
  mk (mesh o) (name o) (id o) v.

(** [child.material.emissive]: a property of the single material object;
    [undefined] when [child.material] is an array. *)
Definition material_emissive (w : World) (d : Node.t) : option Color :=
  match Node.material d with
  | Single m =>
      match mats w !! m with
      | Some mat => Material.emissive mat
      | None => None
      end
  | _ => None
  end.

(** [child.material.emissiveIntensity] *)
Definition material_emissiveIntensity (w : World) (d : Node.t) : option float :=
  match Node.material d with
  | Single m =>
      match mats w !! m with
      | Some mat => Material.emissiveIntensity mat
      | None => None
      end
  | _ => None
  end.

(** Assignment to a property of [child.material]; on an array it creates a
    property of the array and leaves the materials alone. *)
Definition assign_material (d : Node.t) (f : Material.t -> Material.t)
    (w : World) : World :=
  match Node.material d with
  | Single m => update_mat m f w
  | _ => w
  end.

(** Callback of [storeOriginalMaterials]. *)
Definition storeOriginal (w : World) (d : Node.t) : Node.t :=
  if Node.isMesh d && Node.hasMaterial d then
    match Node.originalEmissive (Node.userData d) with
    | Some _ => d
    | None =>
        Node.set_userData
          (Node.mkUserData
             (Some (match material_emissive w d with
                    | Some c => c
                    | None => Hex 0
                    end))
             (Some (JS.or_num (material_emissiveIntensity w d) 0)))
          d
    end
  else d.

Definition storeOriginalMaterials (w : World) (mesh : Object3D) : Object3D :=
  traverse_map (storeOriginal w) mesh.

(** [new SceneObject(mesh, name)]; [id] is the value of [generateUniqueId()]. *)
Definition new (w : World) (mesh : Object3D) (name id : string) : t :=
  mk (storeOriginalMaterials w mesh) name id false.

(** Callback of the traversal in [select]. *)
Definition highlight (w : World) (d : Node.t) : World :=
  if Node.isMesh d && Node.hasMaterial d then
    let w1 :=
      match material_emissive w d with
      | Some _ =>
          assign_material d (Material.set_emissiveIntensity (Some 0.3%float))
            (assign_material d (Material.set_emissive (Some (Hex 0x333333))) w)
      | None => w
      end in
    assign_material d (Material.set_needsUpdate true) w1
  else w.

Definition select (o : t) (w : World) : t * World :=
  if isSelected o then (o, w)
  else (set_isSelected true o, fold_left highlight (nodes (mesh o)) w).

(** Callback of the traversal in [deselect]: [emissive.copy] is called on
    [child.material.emissive] without a test that it exists. *)
Definition restore (d : Node.t) (w : World) : JS.completion unit * World :=
  if Node.isMesh d && Node.hasMaterial d then
    match Node.originalEmissive (Node.userData d) with
    | Some c =>
        match material_emissive w d with
        | None =>
            (JS.Throw "TypeError: Cannot read properties of undefined (reading 'copy')", w)
        | Some _ =>
            (JS.Normal tt,
             assign_material d (Material.set_needsUpdate true)
               (assign_material d
                  (Material.set_emissiveIntensity
                     (Node.originalEmissiveIntensity (Node.userData d)))
                  (assign_material d (Material.set_emissive (Some c)) w)))
        end
    | None => (JS.Normal tt, w)
    end
  else (JS.Normal tt, w).

(** A traversal whose callback may throw: the exception ends it. *)
Fixpoint traverse_try (f : Node.t -> World -> JS.completion unit * World)
    (l : list Node.t) (w : World) : JS.completion unit * World :=
  match l with
  | [] => (JS.Normal tt, w)
  | d :: r =>
      match f d w with
      | (JS.Normal _, w') => traverse_try f r w'
      | (JS.Throw e, w') => (JS.Throw e, w')
      end
  end.

Definition deselect (o : t) (w : World) : JS.completion unit * t * World :=
  if isSelected o then
    let '(r, w') := traverse_try restore (nodes (mesh o)) w in
    (r, set_isSelected false o, w')
  else (JS.Normal tt, o, w).

Definition dispose_texture (t : option TexId) (w : World) : World :=
  match t with
  | Some x => dispose (RTexture x) w
  | None => w
  end.

Definition disposeMaterial (w : World) (m : MatId) : World :=
  match mats w !! m with
  | Some mat =>
      dispose (RMaterial m)
        (dispose_texture (Material.emissiveMap mat)
           (dispose_texture (Material.normalMap mat)
              (dispose_texture (Material.map mat) w)))
  | None => dispose (RMaterial m) w
  end.

Definition deleteNode (w : World) (d : Node.t) : World :=
  if Node.isMesh d then
    let w1 := match Node.geometry d with
              | Some g => dispose (RGeometry g) w
              | None => w
              end in
    fold_left disposeMaterial (Node.materials d) w1
  else w.

Definition delete (o : t) (w : World) : World :=
  fold_left deleteNode (nodes (mesh o)) w.

End SceneObject.

(* ===================================================================== *)
(** ** class CinemaCamera *)
(* ===================================================================== *)

Module CinemaCamera.

Record t : Type := mk {
  name : string;
  id : string;
  isSelected : bool;
  focalLength : float;
  sensorSize : float;
  fov : float;                      (* [this.camera.fov] *)
  helper_visible : bool;        (* [this.helper.visible] *)
  mesh_visible : bool;          (* [this.mesh.visible] *)
  mesh_emissive : Color;        (* [this.mesh.material.emissive] *)
  mesh_emissiveIntensity : float
}.

Definition set_isSelected (v : bool) (c : t) : t :=
  mk (name c) (id c) v (focalLength c) (sensorSize c) (fov c)
     (helper_visible c) (mesh_visible c) (mesh_emissive c) (mesh_emissiveIntensity c).

Definition set_focalLength (v : float) (c : t) : t :=
  mk (name c) (id c) (isSelected c) v (sensorSize c) (fov c)
     (helper_visible c) (mesh_visible c) (mesh_emissive c) (mesh_emissiveIntensity c).

Definition set_sensorSize (v : float) (c : t) : t :=
  mk (name c) (id c) (isSelected c) (focalLength c) v (fov c)
     (helper_visible c) (mesh_visible c) (mesh_emissive c) (mesh_emissiveIntensity c).

Definition set_fov (v : float) (c : t) : t :=
  mk (name c) (id c) (isSelected c) (focalLength c) (sensorSize c) v
     (helper_visible c) (mesh_visible c) (mesh_emissive c) (mesh_emissiveIntensity c).

Definition set_helper_visible (v : bool) (c : t) : t :=
  mk (name c) (id c) (isSelected c) (focalLength c) (sensorSize c) (fov c)
     v (mesh_visible c) (mesh_emissive c) (mesh_emissiveIntensity c).

Definition set_mesh_visible (v : bool) (c : t) : t :=
  mk (name c) (id c) (isSelected c) (focalLength c) (sensorSize c) (fov c)
     (helper_visible c) v (mesh_emissive c) (mesh_emissiveIntensity c).

Definition set_highlight (col : Color) (i : float) (c : t) : t :=
  mk (name c) (id c) (isSelected c) (focalLength c) (sensorSize c) (fov c)
     (helper_visible c) (mesh_visible c) col i.

Definition updateCameraSettings (c : t) : t :=
  let fov := (2 * Math.atan (sensorSize c / (2 * focalLength c)) * 180 / Math.PI)%float in
  set_fov fov c.

(** [new CinemaCamera(name, scene)]; [id] is the value of [generateUniqueId()]. *)
Definition new (name id : string) : t :=
  updateCameraSettings
    (mk name id false 50%float 24%float 75%float false true (Hex 0x442200) 0.3%float).

Definition addToScene (a : Addr) (w : World) : World :=
  scene_add (ChildCameraHelper a) (scene_add (ChildCameraGroup a) w).

Definition removeFromScene (a : Addr) (w : World) : World :=
  scene_remove (ChildCameraHelper a) (scene_remove (ChildCameraGroup a) w).

Definition select (c : t) : t :=
  if isSelected c then c
  else set_highlight (Hex 0x884400) 0.6%float
         (set_helper_visible true (set_isSelected true c)).

Definition deselect (c : t) : t :=
  if isSelected c then
    set_highlight (Hex 0x442200) 0.3%float
      (set_helper_visible false (set_isSelected false c))
  else c.

Definition setFocalLength (length : float) (c : t) : t :=
  updateCameraSettings (set_focalLength length c).

Definition setSensorSize (size : float) (c : t) : t :=
  updateCameraSettings (set_sensorSize size c).

Definition delete (a : Addr) (w : World) : World :=
  dispose (RCameraHelper a)
    (dispose (RCameraMaterial a)
       (dispose (RCameraGeometry a) (removeFromScene a w))).

End CinemaCamera.

(* ===================================================================== *)
(** ** class LEDStudioManager *)
(* ===================================================================== *)

Module Studio.

Record t : Type := mk {
  name : string;
  displayName : string;
  gltfPath : string;
  folderPath : string
}.

End Studio.

Module LEDStudioManager.

Record t : Type := mk {
  availableStudios : list Studio.t;
  currentStudio : option Studio.t;
  currentStudioMesh : option Object3D;
  isLoaded : bool
}.

Definition studioPath : string := "public/LED_Studio/".

(** [knownStudios]: name, display name, glTF file. *)
Definition knownStudios : list (string * string * string) :=
  [ ("MADRID_15X5", "Madrid 15x5", "LED_Studio_Madrid.gltf");
    ("BARCELONA", "Barcelona", "LED_Studio_Barcelona.gltf") ].

(** [loadStudioData]; [exists_] answers the HEAD request of [checkFileExists]
    ([false] also when the request fails). *)
Definition loadStudioData (exists_ : string -> bool)
    (info : string * string * string) : option Studio.t :=
  let '(name, displayName, gltfFile) := info in
  let path := studioPath +:+ name +:+ "/" +:+ gltfFile in
  if exists_ path
  then Some (Studio.mk name displayName path (studioPath +:+ name +:+ "/"))
  else None.

Definition loadAvailableStudios (exists_ : string -> bool) (m : t) : t :=
  mk (omap (loadStudioData exists_) knownStudios)
     (currentStudio m) (currentStudioMesh m) true.

Definition getStudioByName (name : string) (m : t) : option Studio.t :=
  List.find (fun s => String.eqb (Studio.name s) name) (availableStudios m).

Definition screenMaterialName : string := "M_WhiteScreen".

Record ScreenState : Type := mkScreenState {
  currentTexture : option TexId;
  emissiveTexture : option TexId;
  emissiveIntensity : option float;
  baseColorTexture : option TexId;
  hasCustomTexture : bool
}.

(** [material.map && (map.userData?.isCustomTexture ||
    map.image?.src?.startsWith('data:'))] *)
Definition isCustom (w : World) (map : option TexId) : bool :=
  match map with
  | Some x =>
      match texs w !! x with
      | Some tx => Texture.isCustomTexture tx || Texture.srcIsDataURL tx
      | None => false
      end
  | None => false
  end.

Definition extractMaterial (w : World) (st : ScreenState) (mid : MatId) : ScreenState :=
  match mats w !! mid with
  | Some mat =>
      if String.eqb (Material.name mat) screenMaterialName then
        mkScreenState (Material.map mat) (Material.emissiveMap mat)
          (Material.emissiveIntensity mat) (Material.map mat)
          (if isCustom w (Material.map mat) then true else hasCustomTexture st)
      else st
  | None => st
  end.

Definition extractScreenState (w : World) (studioMesh : Object3D) : ScreenState :=
  fold_left
    (fun st d => fold_left (extractMaterial w) (LEDScreen.meshMaterials d) st)
    (nodes studioMesh)
    (mkScreenState None None None None false).

Definition applyMaterial (st : ScreenState) (w : World) (mid : MatId) : World :=
  match mats w !! mid with
  | Some mat =>
      if String.eqb (Material.name mat) screenMaterialName then
        let w1 := match emissiveIntensity st with
                  | Some i => update_mat mid (Material.set_emissiveIntensity (Some i)) w
                  | None => w
                  end in
        let w2 := match hasCustomTexture st, currentTexture st with
                  | true, Some tex =>
                      update_mat mid (Material.set_emissiveMap (emissiveTexture st))
                        (update_mat mid (Material.set_map (Some tex)) w1)
                  | _, _ => w1
                  end in
        update_mat mid (Material.set_needsUpdate true) w2
      else w
  | None => w
  end.

Definition applyScreenState (newStudioMesh : Object3D) (st : ScreenState)
    (w : World) : World :=
  fold_left
    (fun w d => fold_left (applyMaterial st) (LEDScreen.meshMaterials d) w)
    (nodes newStudioMesh) w.

(** One material in [disposeStudioMesh]: the textures of a material named
    like the screen material are kept, the material itself is disposed. *)
Definition disposeStudioMaterial (w : World) (mid : MatId) : World :=
  match mats w !! mid with
  | Some mat =>
      let w1 :=
        if String.eqb (Material.name mat) screenMaterialName then w
        else SceneObject.dispose_texture (Material.emissiveMap mat)
               (SceneObject.dispose_texture (Material.normalMap mat)
                  (SceneObject.dispose_texture (Material.map mat) w)) in
      dispose (RMaterial mid) w1
  | None => dispose (RMaterial mid) w
  end.

Definition disposeStudioNode (w : World) (d : Node.t) : World :=
  if Node.isMesh d then
    let w1 := match Node.geometry d with
              | Some g => dispose (RGeometry g) w
              | None => w
              end in
    fold_left disposeStudioMaterial (Node.materials d) w1
  else w.

Definition disposeStudioMesh (mesh : Object3D) (w : World) : World :=
  fold_left disposeStudioNode (nodes mesh) w.

(** [loadStudioMesh]: [loader path] is what [GLTFLoader.load] delivers for
    the path, [Some gltf.scene] to the load callback or [None] for the error
    callback. *)
Definition configureStudioNode (d : Node.t) : Node.t :=
  if Node.isMesh d then Node.set_shadows false true d else d.

Definition loadStudioMesh (loader : string -> option Object3D)
    (studio : Studio.t) : option Object3D :=
  match loader (Studio.gltfPath studio) with
  | Some gltf => Some (traverse_map configureStudioNode gltf)
  | None => None
  end.

(** Result of [switchStudio]: [None] is [false], [Some] the success record. *)
Definition SwitchResult : Type := option (Object3D * option ScreenState).

Definition switchStudio (loader : string -> option Object3D)
    (studioName : string) (preserveScreenState : bool)
    (m : t) (w : World) : SwitchResult * t * World :=
  match getStudioByName studioName m with
  | None => (None, m, log (Error "Studio not found:") w)
  | Some studio =>
      let screenState :=
        match preserveScreenState, currentStudioMesh m with
        | true, Some old => Some (extractScreenState w old)
        | _, _ => None
        end in
      let w1 :=
        match currentStudioMesh m with
        | Some old =>
            disposeStudioMesh old
              (scene_remove (ChildObject (Node.uuid (root old))) w)
        | None => w
        end in
      match loadStudioMesh loader studio with
      | None => (None, m, log (Error "Error switching studio:") w1)
      | Some newStudioMesh =>
          let w2 := scene_add (ChildObject (Node.uuid (root newStudioMesh))) w1 in
          let m' := mk (availableStudios m) (Some studio) (Some newStudioMesh)
                       (isLoaded m) in
          let w3 :=
            match preserveScreenState, screenState with
            | true, Some st => applyScreenState newStudioMesh st w2
            | _, _ => w2
            end in
          (Some (newStudioMesh, screenState), m', w3)
      end
  end.

End LEDStudioManager.

(* ===================================================================== *)
(** ** class LEDStageApp *)
(* ===================================================================== *)

Module LEDStageApp.

(** A reference to an instance of one of the two selectable classes;
    [instanceof] reads the constructor. *)
Inductive Ref : Type :=
| RefObject (a : Addr)     (* a [SceneObject] *)
| RefCamera (a : Addr).    (* a [CinemaCamera] *)

#[global] Instance Ref_eq_dec : EqDecision Ref.
Proof. solve_decision. Defined.

Definition Ref_eqb (x y : Ref) : bool :=
  match x, y with
  | RefObject a, RefObject b => Pos.eqb a b
  | RefCamera a, RefCamera b => Pos.eqb a b
  | _, _ => false
  end.

Inductive Mode : Type := translate | rotate | scale.

Inductive Space : Type := world_space | local_space.

(** What the transform gizmo is attached to. *)
Inductive Attached : Type :=
| AttachedMesh (uuid : ObjId)     (* [object.mesh] of a scene object *)
| AttachedGroup (a : Addr).       (* [object.group] of a camera *)

(** [TransformControls]: [attach] shows the gizmo, [detach] hides it. *)
Record TransformControls : Type := mkTransformControls {
  visible : bool;
  object : option Attached;
  mode : Mode;
  space : Space
}.

(** Display state of the three panels the selection code switches. *)
Record Panels : Type := mkPanels {
  model_controls : bool;
  camera_controls_panel : bool;
  camera_viewport : bool
}.

Record t : Type := mk {
  world : World;
  objects : gmap Addr SceneObject.t;      (* the SceneObject instances *)
  cameras : gmap Addr CinemaCamera.t;     (* the CinemaCamera instances *)
  ledScreen : option LEDScreen.t;
  studioManager : LEDStudioManager.t;
  sceneObjects : list (string * Addr);    (* Map id -> SceneObject *)
  cinemaCameras : list (string * Addr);   (* Map id -> CinemaCamera *)
  selectedObject : option Ref;
  cameraCounter : nat;
  globals : Globals;
  transformSpace : Space;
  transformControls : TransformControls;
  cameraPreviewRenderer : bool;           (* the preview renderer exists *)
  isFullscreen : bool;
  pinnedCamera : option Addr;
  panels : Panels
}.

Definition set_world (f : World -> World) (s : t) : t :=
  mk (f (world s)) (objects s) (cameras s) (ledScreen s) (studioManager s)
     (sceneObjects s) (cinemaCameras s) (selectedObject s) (cameraCounter s)
     (globals s) (transformSpace s) (transformControls s)
     (cameraPreviewRenderer s) (isFullscreen s) (pinnedCamera s) (panels s).

Definition set_objects (f : gmap Addr SceneObject.t -> gmap Addr SceneObject.t)
    (s : t) : t :=
  mk (world s) (f (objects s)) (cameras s) (ledScreen s) (studioManager s)
     (sceneObjects s) (cinemaCameras s) (selectedObject s) (cameraCounter s)
     (globals s) (transformSpace s) (transformControls s)
     (cameraPreviewRenderer s) (isFullscreen s) (pinnedCamera s) (panels s).

Definition set_cameras (f : gmap Addr CinemaCamera.t -> gmap Addr CinemaCamera.t)
    (s : t) : t :=
  mk (world s) (objects s) (f (cameras s)) (ledScreen s) (studioManager s)
     (sceneObjects s) (cinemaCameras s) (selectedObject s) (cameraCounter s)
     (globals s) (transformSpace s) (transformControls s)
     (cameraPreviewRenderer s) (isFullscreen s) (pinnedCamera s) (panels s).

Definition set_ledScreen (v : option LEDScreen.t) (s : t) : t :=
  mk (world s) (objects s) (cameras s) v (studioManager s)
     (sceneObjects s) (cinemaCameras s) (selectedObject s) (cameraCounter s)
     (globals s) (transformSpace s) (transformControls s)
     (cameraPreviewRenderer s) (isFullscreen s) (pinnedCamera s) (panels s).

Definition set_studioManager (v : LEDStudioManager.t) (s : t) : t :=
  mk (world s) (objects s) (cameras s) (ledScreen s) v
     (sceneObjects s) (cinemaCameras s) (selectedObject s) (cameraCounter s)
     (globals s) (transformSpace s) (transformControls s)
     (cameraPreviewRenderer s) (isFullscreen s) (pinnedCamera s) (panels s).

Definition set_sceneObjects (f : list (string * Addr) -> list (string * Addr))
    (s : t) : t :=
  mk (world s) (objects s) (cameras s) (ledScreen s) (studioManager s)
     (f (sceneObjects s)) (cinemaCameras s) (selectedObject s) (cameraCounter s)
     (globals s) (transformSpace s) (transformControls s)
     (cameraPreviewRenderer s) (isFullscreen s) (pinnedCamera s) (panels s).

Definition set_cinemaCameras (f : list (string * Addr) -> list (string * Addr))
    (s : t) : t :=
  mk (world s) (objects s) (cameras s) (ledScreen s) (studioManager s)
     (sceneObjects s) (f (cinemaCameras s)) (selectedObject s) (cameraCounter s)
     (globals s) (transformSpace s) (transformControls s)
     (cameraPreviewRenderer s) (isFullscreen s) (pinnedCamera s) (panels s).

Definition set_selectedObject (v : option Ref) (s : t) : t :=
  mk (world s) (objects s) (cameras s) (ledScreen s) (studioManager s)
     (sceneObjects s) (cinemaCameras s) v (cameraCounter s)
     (globals s) (transformSpace s) (transformControls s)
     (cameraPreviewRenderer s) (isFullscreen s) (pinnedCamera s) (panels s).

Definition set_cameraCounter (v : nat) (s : t) : t :=
  mk (world s) (objects s) (cameras s) (ledScreen s) (studioManager s)
     (sceneObjects s) (cinemaCameras s) (selectedObject s) v
     (globals s) (transformSpace s) (transformControls s)
     (cameraPreviewRenderer s) (isFullscreen s) (pinnedCamera s) (panels s).

Definition set_globals (v : Globals) (s : t) : t :=
  mk (world s) (objects s) (cameras s) (ledScreen s) (studioManager s)
     (sceneObjects s) (cinemaCameras s) (selectedObject s) (cameraCounter s)
     v (transformSpace s) (transformControls s)
     (cameraPreviewRenderer s) (isFullscreen s) (pinnedCamera s) (panels s).

Definition set_transformControls (f : TransformControls -> TransformControls)
    (s : t) : t :=
  mk (world s) (objects s) (cameras s) (ledScreen s) (studioManager s)
     (sceneObjects s) (cinemaCameras s) (selectedObject s) (cameraCounter s)
     (globals s) (transformSpace s) (f (transformControls s))
     (cameraPreviewRenderer s) (isFullscreen s) (pinnedCamera s) (panels s).

Definition set_cameraPreviewRenderer (v : bool) (s : t) : t :=
  mk (world s) (objects s) (cameras s) (ledScreen s) (studioManager s)
     (sceneObjects s) (cinemaCameras s) (selectedObject s) (cameraCounter s)
     (globals s) (transformSpace s) (transformControls s)
     v (isFullscreen s) (pinnedCamera s) (panels s).

Definition set_pinnedCamera (v : option Addr) (s : t) : t :=
  mk (world s) (objects s) (cameras s) (ledScreen s) (studioManager s)
     (sceneObjects s) (cinemaCameras s) (selectedObject s) (cameraCounter s)
     (globals s) (transformSpace s) (transformControls s)
     (cameraPreviewRenderer s) (isFullscreen s) v (panels s).

Definition set_panels (f : Panels -> Panels) (s : t) : t :=
  mk (world s) (objects s) (cameras s) (ledScreen s) (studioManager s)
     (sceneObjects s) (cinemaCameras s) (selectedObject s) (cameraCounter s)
     (globals s) (transformSpace s) (transformControls s)
     (cameraPreviewRenderer s) (isFullscreen s) (pinnedCamera s) (f (panels s)).

Definition set_transformSpace (v : Space) (s : t) : t :=
  mk (world s) (objects s) (cameras s) (ledScreen s) (studioManager s)
     (sceneObjects s) (cinemaCameras s) (selectedObject s) (cameraCounter s)
     (globals s) v (transformControls s)
     (cameraPreviewRenderer s) (isFullscreen s) (pinnedCamera s) (panels s).

Definition set_isFullscreen (v : bool) (s : t) : t :=
  mk (world s) (objects s) (cameras s) (ledScreen s) (studioManager s)
     (sceneObjects s) (cinemaCameras s) (selectedObject s) (cameraCounter s)
     (globals s) (transformSpace s) (transformControls s)
     (cameraPreviewRenderer s) v (pinnedCamera s) (panels s).

(** *** Methods run on the state and may throw *)

Definition M (A : Type) : Type := t -> JS.completion A * t.

Definition ret {A : Type} (a : A) : M A := fun s => (JS.Normal a, s).

Definition throw {A : Type} (what : string) : M A := fun s => (JS.Throw what, s).

Definition bind {A B : Type} (m : M A) (k : A -> M B) : M B :=
  fun s =>
    match m s with
    | (JS.Normal a, s') => k a s'
    | (JS.Throw e, s') => (JS.Throw e, s')
    end.

Definition modify (f : t -> t) : M unit := fun s => (JS.Normal tt, f s).

(** [try { m } catch (error) { h }] *)
Definition try_catch (m : M unit) (h : M unit) : M unit :=
  fun s =>
    match m s with
    | (JS.Normal a, s') => (JS.Normal a, s')
    | (JS.Throw _, s') => h s'
    end.

Notation "x <- m ;; k" := (bind m (fun x => k))
  (at level 100, m at next level, k at level 200, right associativity).
Notation "m ;; k" := (bind m (fun _ => k))
  (at level 100, k at level 200, right associativity).

Fixpoint forEach {A : Type} (f : A -> M unit) (l : list A) : M unit :=
  match l with
  | [] => ret tt
  | x :: r => f x ;; forEach f r
  end.

(** State after a handler has run; an exception that leaves the handler is
    reported by the browser and the state stays as it is. *)
Definition exec {A : Type} (m : M A) (s : t) : t := snd (m s).

(** *** The transform gizmo and the panels *)

Definition attach (o : Attached) : M unit :=
  modify (set_transformControls
            (fun c => mkTransformControls true (Some o) (mode c) (space c))).

Definition detach : M unit :=
  modify (set_transformControls
            (fun c => mkTransformControls false None (mode c) (space c))).

Definition setMode (m : Mode) : M unit :=
  modify (set_transformControls
            (fun c => mkTransformControls (visible c) (object c) m (space c))).

Definition setSpace (sp : Space) : M unit :=
  modify (set_transformControls
            (fun c => mkTransformControls (visible c) (object c) (mode c) sp)).

Definition set_gizmo_visible (v : bool) : M unit :=
  modify (set_transformControls
            (fun c => mkTransformControls v (object c) (mode c) (space c))).

Definition showModelControls : M unit :=
  modify (fun s =>
    set_panels (fun p =>
      mkPanels true false
        (match pinnedCamera s with
         | Some _ => camera_viewport p
         | None => false
         end)) s).

Definition showCameraControls : M unit :=
  modify (set_panels (fun p => mkPanels false true (camera_viewport p))).

Definition hideAllControlPanels : M unit :=
  modify (fun s =>
    set_panels (fun p =>
      mkPanels false false
        (match pinnedCamera s with
         | Some _ => camera_viewport p
         | None => false
         end)) s).

Definition show_camera_viewport (v : bool) : M unit :=
  modify (set_panels (fun p =>
            mkPanels (model_controls p) (camera_controls_panel p) v)).

Definition updateTransformSpace : M unit :=
  fun s => setSpace (transformSpace s) s.

(** *** Hiding and restoring the camera visuals around a render *)

(** One step of the first [cinemaCameras.forEach]: remember the two flags of
    the camera and clear them. *)
Definition hideCamera (a : Addr) : M (bool * bool) :=
  fun s =>
    match cameras s !! a with
    | Some c =>
        (JS.Normal (CinemaCamera.helper_visible c, CinemaCamera.mesh_visible c),
         set_cameras
           (insert a (CinemaCamera.set_mesh_visible false
                        (CinemaCamera.set_helper_visible false c))) s)
    | None => (JS.Throw "TypeError: cam is undefined", s)
    end.

Fixpoint hideCameras (l : list Addr) : M (list (bool * bool)) :=
  match l with
  | [] => ret []
  | a :: r =>
      v <- hideCamera a ;;
      vs <- hideCameras r ;;
      ret (v :: vs)
  end.

Record Visibilities : Type := mkVisibilities {
  vis_cameras : list (bool * bool);     (* helper, mesh *)
  vis_transformControls : bool
}.

Definition hideCameraVisualsForCapture : M Visibilities :=
  fun s =>
    (originalVisibilities <- hideCameras (JS.values (cinemaCameras s)) ;;
     fun s1 =>
       let transformControlsVisible := visible (transformControls s1) in
       (set_gizmo_visible false ;;
        ret (mkVisibilities originalVisibilities transformControlsVisible)) s1) s.

(** One step of the second [forEach]: [if (visibilities.cameras[index])]. *)
Definition restoreCamera (vis : list (bool * bool)) (index : nat) (a : Addr) : M unit :=
  match nth_error vis index with
  | Some (h, m) =>
      fun s =>
        match cameras s !! a with
        | Some c =>
            (JS.Normal tt,
             set_cameras
               (insert a (CinemaCamera.set_mesh_visible m
                            (CinemaCamera.set_helper_visible h c))) s)
        | None => (JS.Throw "TypeError: cam is undefined", s)
        end
  | None => ret tt
  end.

Fixpoint restoreCameras (vis : list (bool * bool)) (index : nat)
    (l : list Addr) : M unit :=
  match l with
  | [] => ret tt
  | a :: r => restoreCamera vis index a ;; restoreCameras vis (S index) r
  end.

Definition restoreCameraVisualsAfterCapture (v : Visibilities) : M unit :=
  set_gizmo_visible (vis_transformControls v) ;;
  fun s => restoreCameras (vis_cameras v) 0 (JS.values (cinemaCameras s)) s.

(** A call of [renderer.render]: it returns or throws. *)
Definition render (ok : bool) : M unit :=
  if ok then ret tt else throw "render failed".

(** [canvas.toDataURL()] *)
Definition toDataURL (ok : bool) : M unit :=
  if ok then ret tt else throw "toDataURL failed".

(** [CinemaCamera.capture(app)] of the camera at [a]. *)
Definition capture (render_ok encode_ok : bool) (a : Addr) : M unit :=
  originalVisibilities <- hideCameraVisualsForCapture ;;
  render render_ok ;;
  (fun s =>
     match cameras s !! a with
     | Some c =>
         (toDataURL encode_ok ;;
          modify (set_world (download (CinemaCamera.name c +:+ "_capture.png")))) s
     | None => (JS.Throw "TypeError: this is undefined", s)
     end) ;;
  restoreCameraVisualsAfterCapture originalVisibilities ;;
  modify (set_world (dispose RCaptureRenderer)).

(** [cameraToRender = this.pinnedCamera || this.selectedObject], kept when it
    is a cinema camera. *)
Definition cameraToRender (s : t) : option Addr :=
  match pinnedCamera s with
  | Some a => Some a
  | None =>
      match selectedObject s with
      | Some (RefCamera a) => Some a
      | _ => None
      end
  end.

Definition renderCameraPreview (render_ok : bool) : M unit :=
  fun s =>
    match cameraToRender s, cameraPreviewRenderer s with
    | Some _, true =>
        (originalVisibilities <- hideCameras (JS.values (cinemaCameras s)) ;;
         fun s1 =>
           let transformControlsVisible := visible (transformControls s1) in
           (set_gizmo_visible false ;;
            render render_ok ;;
            set_gizmo_visible transformControlsVisible ;;
            restoreCameras originalVisibilities 0 (JS.values (cinemaCameras s1))) s1) s
    | _, _ => (JS.Normal tt, s)
    end.

Definition showCameraPreview (render_ok : bool) : M unit :=
  fun s =>
    match selectedObject s with
    | Some (RefCamera _) =>
        (show_camera_viewport true ;;
         modify (set_cameraPreviewRenderer true) ;;
         renderCameraPreview render_ok) s
    | _ => (JS.Normal tt, s)
    end.

(** *** Selection *)

(** [object.select()] through a reference. *)
Definition select (r : Ref) : M unit :=
  fun s =>
    match r with
    | RefObject a =>
        match objects s !! a with
        | Some o =>
            let '(o', w') := SceneObject.select o (world s) in
            (JS.Normal tt, set_world (fun _ => w') (set_objects (insert a o') s))
        | None => (JS.Throw "TypeError: object is undefined", s)
        end
    | RefCamera a =>
        match cameras s !! a with
        | Some c => (JS.Normal tt, set_cameras (insert a (CinemaCamera.select c)) s)
        | None => (JS.Throw "TypeError: object is undefined", s)
        end
    end.

(** [object.deselect()] through a reference. *)
Definition deselect (r : Ref) : M unit :=
  fun s =>
    match r with
    | RefObject a =>
        match objects s !! a with
        | Some o =>
            let '(res, o', w') := SceneObject.deselect o (world s) in
            (res, set_world (fun _ => w') (set_objects (insert a o') s))
        | None => (JS.Throw "TypeError: object is undefined", s)
        end
    | RefCamera a =>
        match cameras s !! a with
        | Some c => (JS.Normal tt, set_cameras (insert a (CinemaCamera.deselect c)) s)
        | None => (JS.Throw "TypeError: object is undefined", s)
        end
    end.

Definition is_selected (s : t) (r : Ref) : bool :=
  match selectedObject s with
  | Some r' => Ref_eqb r' r
  | None => false
  end.

Definition selectObject (render_ok : bool) (obj : Ref) : M unit :=
  fun s =>
    if is_selected s obj then (JS.Normal tt, s)
    else
      ((match selectedObject s with
        | Some prev => deselect prev
        | None => ret tt
        end) ;;
       modify (set_selectedObject (Some obj)) ;;
       select obj ;;
       (match obj with
        | RefObject a =>
            fun s1 =>
              match objects s1 !! a with
              | Some o =>
                  (attach (AttachedMesh (Node.uuid (root (SceneObject.mesh o)))) ;;
                   setMode translate ;;
                   showModelControls) s1
              | None => (JS.Throw "TypeError: object is undefined", s1)
              end
        | RefCamera a =>
            attach (AttachedGroup a) ;;
            setMode translate ;;
            showCameraControls ;;
            showCameraPreview render_ok
        end) ;;
       updateTransformSpace) s.

Definition deselectAll : M unit :=
  (fun s =>
     match selectedObject s with
     | Some cur => (deselect cur ;; modify (set_selectedObject None)) s
     | None => (JS.Normal tt, s)
     end) ;;
  detach ;;
  hideAllControlPanels.

Definition pinCameraPreview : M unit :=
  fun s =>
    match selectedObject s with
    | Some (RefCamera a) => (JS.Normal tt, set_pinnedCamera (Some a) s)
    | _ => (JS.Normal tt, s)
    end.

Definition unpinCameraPreview : M unit :=
  fun s =>
    match pinnedCamera s with
    | Some _ =>
        (modify (set_pinnedCamera None) ;;
         match selectedObject s with
         | Some (RefCamera _) => ret tt
         | _ => show_camera_viewport false
         end) s
    | None => (JS.Normal tt, s)
    end.

Definition togglePinCameraPreview : M unit :=
  fun s =>
    match pinnedCamera s with
    | Some _ => unpinCameraPreview s
    | None => pinCameraPreview s
    end.

Definition deleteSelectedObject : M unit :=
  fun s =>
    match selectedObject s with
    | None => (JS.Normal tt, s)
    | Some sel =>
        ((match sel with
          | RefObject a =>
              fun s1 =>
                match objects s1 !! a with
                | Some o =>
                    (modify (set_world
                       (scene_remove (ChildObject (Node.uuid (root (SceneObject.mesh o)))))) ;;
                     modify (set_world (SceneObject.delete o)) ;;
                     modify (set_sceneObjects (JS.delete (SceneObject.id o)))) s1
                | None => (JS.Throw "TypeError: object is undefined", s1)
                end
          | RefCamera a =>
              (fun s1 =>
                 match pinnedCamera s1 with
                 | Some p => if Pos.eqb p a then unpinCameraPreview s1
                             else (JS.Normal tt, s1)
                 | None => (JS.Normal tt, s1)
                 end) ;;
              fun s1 =>
                match cameras s1 !! a with
                | Some c =>
                    (modify (set_world (CinemaCamera.delete a)) ;;
                     modify (set_cinemaCameras (JS.delete (CinemaCamera.id c)))) s1
                | None => (JS.Throw "TypeError: object is undefined", s1)
                end
          end) ;;
         detach ;;
         hideAllControlPanels ;;
         modify (set_selectedObject None)) s
    end.

(** *** Picking *)

(** [intersects[0].object]: nothing, the box of a camera, or a node of a
    loaded model. *)
Inductive Hit : Type :=
| HitNothing
| HitCameraMesh (a : Addr)
| HitNode (uuid : ObjId).

(** [isChildOf(clicked, sceneObj.mesh)] *)
Definition isChildOf (uuid : ObjId) (mesh : Object3D) : bool :=
  existsb (fun d => Pos.eqb (Node.uuid d) uuid) (nodes mesh).

Definition targetObject (s : t) (h : Hit) : option Ref :=
  match h with
  | HitNothing => None
  | HitCameraMesh a =>
      if existsb (Pos.eqb a) (JS.values (cinemaCameras s))
      then Some (RefCamera a) else None
  | HitNode u =>
      match List.find
              (fun a => match objects s !! a with
                        | Some o => isChildOf u (SceneObject.mesh o)
                        | None => false
                        end)
              (JS.values (sceneObjects s)) with
      | Some a => Some (RefObject a)
      | None => None
      end
  end.

Definition onMouseClick (render_ok : bool) (h : Hit) : M unit :=
  fun s =>
    match targetObject s h with
    | Some target => selectObject render_ok target s
    | None => deselectAll s
    end.

(** *** Creating entities *)

(** [createCinemaCamera()]; [uid] is the value of [generateUniqueId()]. *)
Definition createCinemaCamera (uid : string) : M Addr :=
  fun s =>
    let a := fresh (dom (cameras s)) in
    let camera := CinemaCamera.new ("Camera " +:+ pretty (cameraCounter s)) uid in
    (JS.Normal a,
     set_cinemaCameras (JS.set uid a)
       (set_world (CinemaCamera.addToScene a)
          (set_cameras (insert a camera)
             (set_cameraCounter (S (cameraCounter s)) s)))).

Definition configureModelNode (d : Node.t) : Node.t :=
  if Node.isMesh d then Node.set_shadows true true d else d.

(** [loadGLTFModel(file)]: [gltf] is what the loader delivers, [name] the
    file name without its extension, [uid] the value of [generateUniqueId()]. *)
Definition loadGLTFModel (gltf : option Object3D) (name uid : string) : M unit :=
  fun s =>
    match gltf with
    | Some scene_ =>
        let modelMesh := traverse_map configureModelNode scene_ in
        let s1 := set_world (scene_add (ChildObject (Node.uuid (root modelMesh)))) s in
        let sceneObject := SceneObject.new (world s1) modelMesh name uid in
        let a := fresh (dom (objects s1)) in
        (JS.Normal tt,
         set_sceneObjects (JS.set uid a) (set_objects (insert a sceneObject) s1))
    | None =>
        (JS.Normal tt, set_world (log (Error "Error loading model:")) s)
    end.

(** *** The LED screen *)

Definition on_screen (f : LEDScreen.t -> Globals -> World -> LEDScreen.t * Globals * World)
    : M unit :=
  fun s =>
    match ledScreen s with
    | Some scr =>
        let '(scr', g', w') := f scr (globals s) (world s) in
        (JS.Normal tt,
         set_ledScreen (Some scr') (set_globals g' (set_world (fun _ => w') s)))
    | None => (JS.Normal tt, s)
    end.

(** [new LEDScreen(mesh, "M_WhiteScreen", this)] assigned to [this.ledScreen]. *)
Definition newLEDScreen (mesh : Object3D) : M unit :=
  fun s =>
    let '(scr, w') :=
      LEDScreen.new (Some mesh) LEDStudioManager.screenMaterialName true
                    (globals s) (world s) in
    (JS.Normal tt, set_ledScreen (Some scr) (set_world (fun _ => w') s)).

Definition switchStudio (loader : string -> option Object3D) (studioName : string)
    (preserve : bool) : M LEDStudioManager.SwitchResult :=
  fun s =>
    let '(res, m', w') :=
      LEDStudioManager.switchStudio loader studioName preserve
        (studioManager s) (world s) in
    (JS.Normal res, set_studioManager m' (set_world (fun _ => w') s)).

(** Assignment to a property of [this.ledScreen.material]. *)
Definition assign_screen_material (f : Material.t -> Material.t) : M unit :=
  fun s =>
    match ledScreen s with
    | Some scr =>
        match LEDScreen.material scr with
        | Some mid => (JS.Normal tt, set_world (update_mat mid f) s)
        | None => (JS.Throw "TypeError: Cannot set properties of null", s)
        end
    | None => (JS.Throw "TypeError: Cannot read properties of null", s)
    end.

Definition onStudioChange (loader : string -> option Object3D)
    (studioName : string) : M unit :=
  if String.eqb studioName "" then ret tt
  else
    try_catch
      (fun s =>
         let currentBrightness := globalBrightness (globals s) in
         let hasCustomTexture :=
           match globalCustomTexture (globals s) with Some _ => true | None => false end in
         (result <- switchStudio loader studioName false ;;
          match result with
          | Some (mesh, _) =>
              newLEDScreen mesh ;;
              (fun s1 =>
                 match hasCustomTexture, globalCustomTexture (globals s1) with
                 | true, Some tex =>
                     (assign_screen_material (Material.set_map (Some tex)) ;;
                      assign_screen_material
                        (Material.set_emissiveMap
                           (globalCustomEmissiveTexture (globals s1))) ;;
                      modify (fun s2 =>
                        set_ledScreen
                          (option_map (LEDScreen.set_currentTexture (Some tex))
                                      (ledScreen s2)) s2) ;;
                      assign_screen_material (Material.set_needsUpdate true)) s1
                 | _, _ => (JS.Normal tt, s1)
                 end) ;;
              on_screen (LEDScreen.setBrightness currentBrightness)
          | None =>
              modify (set_world (log (Error "Failed to change studio")))
          end) s)
      (modify (set_world (log (Error "Error changing studio:")))).

Definition initializeStudioManager (exists_ : string -> bool)
    (loader : string -> option Object3D) : M unit :=
  try_catch
    (modify (fun s =>
       set_studioManager
         (LEDStudioManager.loadAvailableStudios exists_ (studioManager s)) s) ;;
     result <- switchStudio loader "MADRID_15X5" false ;;
     match result with
     | Some (mesh, _) =>
         newLEDScreen mesh ;;
         modify (fun s =>
           match ledScreen s with
           | Some scr =>
               set_globals
                 (mkGlobals (globalCustomTexture (globals s))
                            (globalCustomEmissiveTexture (globals s))
                            (LEDScreen.originalEmissiveIntensity scr)) s
           | None => s
           end)
     | None => ret tt
     end)
    (modify (set_world (log (Error "Error initializing studio manager:")))).

(** The state built by the constructor, before any asynchronous work; the
    stores hold the objects the loaders will hand out. *)
Definition init (materials : Mats) (textures : gmap TexId Texture.t) : t :=
  mk (mkWorld materials textures []
        [ChildTransformControls; ChildSpotLight; ChildAmbientLight] [] [])
     ∅ ∅ None
     (LEDStudioManager.mk [] None None false)
     [] [] None 1
     (mkGlobals None None 1%float)
     world_space
     (mkTransformControls false None translate world_space)
     false false None
     (mkPanels false false false).

(** *** Handlers of the user interface and of the frame callback *)

Definition captureSelected (render_ok encode_ok : bool) : M unit :=
  fun s =>
    match selectedObject s with
    | Some (RefCamera a) => capture render_ok encode_ok a s
    | _ => (JS.Normal tt, s)
    end.

Definition on_selected_camera (f : CinemaCamera.t -> CinemaCamera.t) : M unit :=
  fun s =>
    match selectedObject s with
    | Some (RefCamera a) =>
        match cameras s !! a with
        | Some c => (JS.Normal tt, set_cameras (insert a (f c)) s)
        | None => (JS.Throw "TypeError: object is undefined", s)
        end
    | _ => (JS.Normal tt, s)
    end.

(** [animate()]: the main render, then the preview when a camera is selected
    or pinned. *)
Definition animate (main_ok preview_ok : bool) : M unit :=
  render main_ok ;;
  fun s =>
    match cameraPreviewRenderer s, cameraToRender s with
    | true, Some _ => renderCameraPreview preview_ok s
    | _, _ => (JS.Normal tt, s)
    end.

(** *** Transform mode and space, fullscreen view, props *)

(** The keys g, r and s of [onKeyDown] and the mode buttons: the mode changes
    when something is selected; scaling is offered for scene objects only. *)
Definition keyMode (m : Mode) : M unit :=
  fun s =>
    match selectedObject s, m with
    | None, _ => (JS.Normal tt, s)
    | Some (RefCamera _), scale => (JS.Normal tt, s)
    | Some _, _ => setMode m s
    end.

(** The world and local buttons. *)
Definition chooseTransformSpace (sp : Space) : M unit :=
  modify (set_transformSpace sp) ;; updateTransformSpace.

Definition toggleTransformSpace : M unit :=
  (fun s =>
     chooseTransformSpace
       (match transformSpace s with
        | world_space => local_space
        | local_space => world_space
        end) s).

(** The key x of [onKeyDown], read only while something is selected. *)
Definition keyToggleSpace : M unit :=
  fun s =>
    match selectedObject s with
    | Some _ => toggleTransformSpace s
    | None => (JS.Normal tt, s)
    end.

(** One run of [renderFullscreen]: every camera visual and the gizmo are
    hidden, with nothing remembered, and the view is rendered. *)
Definition renderFullscreen (render_ok : bool) : M unit :=
  fun s =>
    match isFullscreen s, selectedObject s with
    | true, Some (RefCamera _) =>
        (forEach (fun a => hideCamera a ;; ret tt) (JS.values (cinemaCameras s)) ;;
         set_gizmo_visible false ;;
         render render_ok) s
    | _, _ => (JS.Normal tt, s)
    end.

Definition enterFullscreen (render_ok : bool) : M unit :=
  fun s =>
    match selectedObject s with
    | Some (RefCamera _) =>
        (modify (set_isFullscreen true) ;;
         modify (fun s1 =>
           set_panels (fun p =>
             mkPanels false true
               (match pinnedCamera s1 with
                | Some _ => camera_viewport p
                | None => false
                end)) s1) ;;
         renderFullscreen render_ok) s
    | _ => (JS.Normal tt, s)
    end.

Definition exitFullscreen : M unit :=
  fun s =>
    if isFullscreen s then
      (modify (set_isFullscreen false) ;;
       match selectedObject s with
       | Some (RefCamera a) =>
           modify (set_panels (fun p => mkPanels (model_controls p) true true)) ;;
           (fun s1 =>
              match cameras s1 !! a with
              | Some c =>
                  (JS.Normal tt,
                   set_cameras
                     (insert a (CinemaCamera.set_mesh_visible true
                                  (CinemaCamera.set_helper_visible true c))) s1)
              | None => (JS.Throw "TypeError: object is undefined", s1)
              end) ;;
           set_gizmo_visible true
       | Some (RefObject _) =>
           modify (set_panels (fun p =>
                     mkPanels true (camera_controls_panel p) (camera_viewport p)))
       | None => ret tt
       end) s
    else (JS.Normal tt, s).

(** The Escape key. *)
Definition onEscape : M unit :=
  fun s => if isFullscreen s then exitFullscreen s else deselectAll s.

(** The fullscreen button. *)
Definition onFullscreenButton (render_ok : bool) : M unit :=
  fun s => if isFullscreen s then exitFullscreen s else enterFullscreen render_ok s.

(** [loadPropFromLibrary(propName)]: [prop] is the display name of the entry
    [getPropByName] finds, [gltf] what the loader delivers for its path. *)
Definition loadPropFromLibrary (prop : option string) (gltf : option Object3D)
    (uid : string) : M unit :=
  match prop, gltf with
  | None, _ => modify (set_world (log (Error "Prop not found:")))
  | Some displayName, Some _ => loadGLTFModel gltf displayName uid
  | Some _, None => modify (set_world (log (Error "Error loading prop:")))
  end.

Inductive Event : Type :=
| InitializeStudioManager (exists_ : string -> bool) (loader : string -> option Object3D)
| StudioChange (loader : string -> option Object3D) (studioName : string)
| TextureChosen (loaded : option TexId)
| ResetClicked
| BrightnessInput (intensity : float)
| AddCamera (uid : string)
| PlaceModel (gltf : option Object3D) (name uid : string)
| MouseClick (render_ok : bool) (h : Hit)
| SelectObject (render_ok : bool) (r : Ref)
| DeselectAll
| DeleteSelected
| TogglePin
| CaptureClicked (render_ok encode_ok : bool)
| Frame (main_ok preview_ok : bool)
| FocalLengthInput (length : float)
| SensorSizeInput (size : float)
| ModeInput (m : Mode)
| SpaceInput (sp : Space)
| ToggleSpaceKey
| FullscreenKey (render_ok : bool)
| FullscreenButton (render_ok : bool)
| FullscreenFrame (render_ok : bool)
| EscapeKey
| PlaceProp (prop : option string) (gltf : option Object3D) (uid : string).

Definition handle (e : Event) : M unit :=
  match e with
  | InitializeStudioManager exists_ loader => initializeStudioManager exists_ loader
  | StudioChange loader studioName => onStudioChange loader studioName
  | TextureChosen loaded => on_screen (LEDScreen.setCustomTexture loaded)
  | ResetClicked => on_screen LEDScreen.resetToOriginal
  | BrightnessInput v => on_screen (LEDScreen.setBrightness v)
  | AddCamera uid => _ <- createCinemaCamera uid ;; ret tt
  | PlaceModel gltf name uid => loadGLTFModel gltf name uid
  | MouseClick render_ok h => onMouseClick render_ok h
  | SelectObject render_ok r => selectObject render_ok r
  | DeselectAll => deselectAll
  | DeleteSelected => deleteSelectedObject
  | TogglePin => togglePinCameraPreview
  | CaptureClicked render_ok encode_ok => captureSelected render_ok encode_ok
  | Frame main_ok preview_ok => animate main_ok preview_ok
  | FocalLengthInput v => on_selected_camera (CinemaCamera.setFocalLength v)
  | SensorSizeInput v => on_selected_camera (CinemaCamera.setSensorSize v)
  | ModeInput m => keyMode m
  | SpaceInput sp => chooseTransformSpace sp
  | ToggleSpaceKey => keyToggleSpace
  | FullscreenKey render_ok => enterFullscreen render_ok
  | FullscreenButton render_ok => onFullscreenButton render_ok
  | FullscreenFrame render_ok => renderFullscreen render_ok
  | EscapeKey => onEscape
  | PlaceProp prop gltf uid => loadPropFromLibrary prop gltf uid
  end.

Definition step (e : Event) (s : t) : t := exec (handle e) s.

(** The states the controller can be in. *)
Inductive reachable : t -> Prop :=
| reachable_init materials textures : reachable (init materials textures)
| reachable_step e s : reachable s -> reachable (step e s).

(** The entities of the two collections. *)
Definition tracked (s : t) (r : Ref) : Prop :=
  match r with
  | RefObject a => In a (JS.values (sceneObjects s))
  | RefCamera a => In a (JS.values (cinemaCameras s))
  end.

(** [entity.isSelected] through a reference. *)
Definition isSelected (s : t) (r : Ref) : bool :=
  match r with
  | RefObject a =>
      match objects s !! a with
      | Some o => SceneObject.isSelected o
      | None => false
      end
  | RefCamera a =>
      match cameras s !! a with
      | Some c => CinemaCamera.isSelected c
      | None => false
      end
  end.

End LEDStageApp.

(* ===================================================================== *)
(** * Properties *)
(* ===================================================================== *)

(** ** Auxiliary definitions used in the statements *)

(** The materials a traversal of [m] hands to its callback, in order. *)
Definition visitedMaterials (m : Object3D) : list MatId :=
  List.concat (List.map LEDScreen.meshMaterials (nodes m)).

(** [mat.name === name] for the material object at [mid]. *)
Definition hasName (w : World) (name : string) (mid : MatId) : bool :=
  match mats w !! mid with
  | Some mat => String.eqb (Material.name mat) name
  | None => false
  end.

(** The visited materials whose name is [name], in traversal order. *)
Definition matchingMaterials (w : World) (name : string) (m : Object3D) : list MatId :=
  List.filter (hasName w name) (visitedMaterials m).

(** The record the constructor of [LEDScreen] starts from. *)
Definition blankScreen (mesh : option Object3D) (name : string) (app : bool)
    : LEDScreen.t :=
  LEDScreen.mk mesh name None None None 1 None 1 app.

(** ** General facts *)

Section Folds.
Context {A B S : Type}.

Lemma fold_left_concat_map (f : S -> A -> S) (g : B -> list A) (l : list B) (s : S) :
  fold_left (fun s d => fold_left f (g d) s) l s
  = fold_left f (List.concat (List.map g l)) s.
Proof.
  revert s; induction l as [|d l IH]; intros s; simpl; [reflexivity|].
  rewrite fold_left_app. apply IH.
Qed.

End Folds.

Lemma lookup_update_mat_eq (w : World) (mid : MatId) (f : Material.t -> Material.t) :
  mats (update_mat mid f w) !! mid = f <$> (mats w !! mid).
Proof. unfold update_mat, set_mats; simpl. apply lookup_alter_eq. Qed.

Lemma lookup_update_mat_ne (w : World) (mid mid' : MatId) (f : Material.t -> Material.t) :
  mid <> mid' -> mats (update_mat mid f w) !! mid' = mats w !! mid'.
Proof. intros H. unfold update_mat, set_mats; simpl. by apply lookup_alter_ne. Qed.

(** ** LEDScreen *)

Lemma bindMaterial_frame (w : World) (s : LEDScreen.t) (mid : MatId) :
  LEDScreen.materialName (LEDScreen.bindMaterial w s mid) = LEDScreen.materialName s
  /\ LEDScreen.mesh (LEDScreen.bindMaterial w s mid) = LEDScreen.mesh s
  /\ LEDScreen.app (LEDScreen.bindMaterial w s mid) = LEDScreen.app s
  /\ LEDScreen.currentTexture (LEDScreen.bindMaterial w s mid) = LEDScreen.currentTexture s.
Proof.
  unfold LEDScreen.bindMaterial.
  destruct (mats w !! mid) as [mat|]; [|tauto].
  destruct (String.eqb _ _); simpl; tauto.
Qed.

(** What a screen looks like once [mid] has been bound. *)
Definition boundTo (w : World) (s : LEDScreen.t) (mid : MatId) : Prop :=
  exists mat,
    mats w !! mid = Some mat
    /\ LEDScreen.material s = Some mid
    /\ LEDScreen.originalBaseColorTexture s = Material.map mat
    /\ LEDScreen.originalEmissiveTexture s = Material.emissiveMap mat
    /\ LEDScreen.originalEmissiveIntensity s
       = JS.or_num (Material.emissiveIntensity mat) 1
    /\ LEDScreen.brightness s = JS.or_num (Material.emissiveIntensity mat) 1.

Lemma fold_bindMaterial (w : World) (l : list MatId) (s : LEDScreen.t) :
  let s' := fold_left (LEDScreen.bindMaterial w) l s in
  LEDScreen.materialName s' = LEDScreen.materialName s
  /\ LEDScreen.mesh s' = LEDScreen.mesh s
  /\ LEDScreen.app s' = LEDScreen.app s
  /\ LEDScreen.currentTexture s' = LEDScreen.currentTexture s
  /\ match last (List.filter (hasName w (LEDScreen.materialName s)) l) with
     | Some mid => boundTo w s' mid
     | None => s' = s
     end.
Proof.
  induction l as [|mid l IH] using rev_ind; simpl.
  - repeat split; reflexivity.
  - rewrite fold_left_app; simpl.
    destruct IH as (Hn & Hm & Ha & Hc & IH).
    pose proof (bindMaterial_frame w (fold_left (LEDScreen.bindMaterial w) l s) mid)
      as (Fn & Fm & Fa & Fc).
    repeat split; try congruence.
    rewrite List.filter_app; simpl.
    set (s1 := fold_left (LEDScreen.bindMaterial w) l s) in *.
    assert (Hh : hasName w (LEDScreen.materialName s) mid
                 = hasName w (LEDScreen.materialName s1) mid) by (by rewrite Hn).
    rewrite Hh. unfold hasName, LEDScreen.bindMaterial.
    destruct (mats w !! mid) as [mat|] eqn:Hmat.
    + destruct (String.eqb (Material.name mat) (LEDScreen.materialName s1)) eqn:E.
      * rewrite last_snoc. exists mat; simpl. repeat split; assumption || reflexivity.
      * rewrite app_nil_r. exact IH.
    + rewrite app_nil_r. exact IH.
Qed.

Lemma scanMesh_spec (w : World) (m : Object3D) (s : LEDScreen.t) :
  let s' := LEDScreen.scanMesh w m s in
  LEDScreen.materialName s' = LEDScreen.materialName s
  /\ LEDScreen.mesh s' = LEDScreen.mesh s
  /\ LEDScreen.app s' = LEDScreen.app s
  /\ LEDScreen.currentTexture s' = LEDScreen.currentTexture s
  /\ match last (matchingMaterials w (LEDScreen.materialName s) m) with
     | Some mid => boundTo w s' mid
     | None => s' = s
     end.
Proof.
  unfold LEDScreen.scanMesh, matchingMaterials, visitedMaterials.
  rewrite fold_left_concat_map. apply fold_bindMaterial.
Qed.

Lemma listMaterials_mats (w w' : World) (meshName : string) (k : nat) (ms : list MatId) :
  mats w' = mats w ->
  LEDScreen.listMaterials w' meshName k ms = LEDScreen.listMaterials w meshName k ms.
Proof.
  intros E. revert k; induction ms as [|mid ms IH]; intros k; simpl; [reflexivity|].
  rewrite E. destruct (mats w !! mid); rewrite IH; reflexivity.
Qed.

Lemma availableMaterials_mats (w w' : World) (m : Object3D) :
  mats w' = mats w ->
  LEDScreen.availableMaterials w' m = LEDScreen.availableMaterials w m.
Proof.
  intros E. unfold LEDScreen.availableMaterials. f_equal. f_equal.
  apply List.map_ext. intros d. by apply listMaterials_mats.
Qed.

Lemma listMaterials_In (w : World) (meshName : string) (ms : list MatId) :
  forall (k : nat) (mid : MatId) (mat : Material.t),
    In mid ms -> mats w !! mid = Some mat ->
    exists i,
      In (LogMaterial (JS.or_str (Material.name mat) "Unnamed")
                      (JS.or_str meshName "Unnamed mesh") i)
         (LEDScreen.listMaterials w meshName k ms).
Proof.
  induction ms as [|x ms IH]; intros k mid mat Hin Hmat; [destruct Hin|].
  simpl. destruct Hin as [->|Hin].
  - rewrite Hmat. exists k. by left.
  - destruct (IH (S k) mid mat Hin Hmat) as [i Hi].
    exists i. destruct (mats w !! x); [by right|assumption].
Qed.

Lemma fold_log_console (cs : list Console) (w : World) :
  fold_left (fun w c => log c w) cs w
  = mkWorld (mats w) (texs w) (disposed w) (scene w)
            (rev cs ++ console w) (downloads w).
Proof.
  revert w; induction cs as [|c cs IH]; intros w; simpl.
  - by destruct w.
  - rewrite IH; simpl. by rewrite <- app_assoc.
Qed.

Lemma logAvailableMaterials_after_warning (w : World) (m : Object3D) (c : Console) :
  LEDScreen.logAvailableMaterials m (log c w)
  = mkWorld (mats w) (texs w) (disposed w) (scene w)
            (rev (LEDScreen.availableMaterials w m) ++ c :: console w)
            (downloads w).
Proof.
  unfold LEDScreen.logAvailableMaterials.
  rewrite fold_log_console.
  rewrite (availableMaterials_mats w (log c w) m) by reflexivity.
  reflexivity.
Qed.

(** Claim C8, as amended: [findTargetMaterial], run by the constructor on a
    mesh [m], binds the LAST material of the traversal whose name equals the
    requested name, and stores the map, the emissive map and
    [emissiveIntensity || 1] of that material; with no match nothing is bound
    and the console receives a warning followed by the listing of every
    material found in the subtree. *)
Theorem findTargetMaterial_binds_last_match :
  forall (w : World) (m : Object3D) (name : string) (app : bool),
    let '(s', w') := LEDScreen.findTargetMaterial (blankScreen (Some m) name app) w in
    match last (matchingMaterials w name m) with
    | Some mid => boundTo w s' mid /\ w' = w
    | None =>
        s' = blankScreen (Some m) name app
        /\ w' = mkWorld (mats w) (texs w) (disposed w) (scene w)
                  (rev (LEDScreen.availableMaterials w m)
                   ++ Warn "LED screen material not found:" name :: console w)
                  (downloads w)
        /\ (forall mid mat,
              In mid (visitedMaterials m) -> mats w !! mid = Some mat ->
              exists meshName i,
                In (LogMaterial (JS.or_str (Material.name mat) "Unnamed") meshName i)
                   (console w'))
    end.
Proof.
  intros w m name app.
  unfold LEDScreen.findTargetMaterial; simpl.
  pose proof (scanMesh_spec w m (blankScreen (Some m) name app)) as (Hn & _ & _ & _ & H).
  simpl in H, Hn.
  destruct (last (matchingMaterials w name m)) as [mid|] eqn:L.
  - destruct H as (mat & Hmat & Hmid & Hrest). rewrite Hmid.
    split; [|reflexivity]. exists mat. by repeat split; try apply Hrest.
  - rewrite H. cbn [LEDScreen.material LEDScreen.materialName blankScreen].
    rewrite logAvailableMaterials_after_warning.
    split; [reflexivity|]. split; [reflexivity|].
    intros mid mat Hin Hmat. cbn [console].
    unfold visitedMaterials in Hin.
    apply in_concat in Hin as (ms & Hms & Hin).
    apply in_map_iff in Hms as (d & <- & Hd).
    destruct (listMaterials_In w (Node.name d) _ 0 mid mat Hin Hmat) as [i Hi].
    exists (JS.or_str (Node.name d) "Unnamed mesh"), i.
    apply in_or_app; left. apply in_rev. rewrite rev_involutive.
    unfold LEDScreen.availableMaterials. right.
    apply in_concat. eexists; split; [|exact Hi].
    apply in_map_iff. by exists d.
Qed.

(** Claim C9: on a screen with no bound material, [setCustomTexture],
    [setBrightness] and [resetToOriginal] return at once: the screen, the
    controller's global state and the world are what they were, except for the
    one console warning of [setCustomTexture]. The methods are total
    functions, so none of them throws. *)
Theorem unbound_screen_methods_are_noops :
  forall (s : LEDScreen.t) (g : Globals) (w : World) (loaded : option TexId)
         (intensity : float),
    LEDScreen.material s = None ->
    LEDScreen.setCustomTexture loaded s g w
      = (s, g, log (Warn "No material found to apply texture" "") w)
    /\ LEDScreen.setBrightness intensity s g w = (s, g, w)
    /\ LEDScreen.resetToOriginal s g w = (s, g, w).
Proof.
  intros s g w loaded intensity H.
  unfold LEDScreen.setCustomTexture, LEDScreen.setBrightness, LEDScreen.resetToOriginal.
  rewrite H. repeat split.
Qed.

Lemma findTargetMaterial_found (w : World) (m : Object3D) (name : string)
    (app : bool) (mid : MatId) :
  last (matchingMaterials w name m) = Some mid ->
  exists s',
    LEDScreen.findTargetMaterial (blankScreen (Some m) name app) w = (s', w)
    /\ boundTo w s' mid
    /\ LEDScreen.app s' = app
    /\ LEDScreen.currentTexture s' = None
    /\ LEDScreen.materialName s' = name.
Proof.
  intros L.
  pose proof (scanMesh_spec w m (blankScreen (Some m) name app)) as (Hn & _ & Ha & Hc & H).
  simpl in H, Hn, Ha, Hc. rewrite L in H.
  exists (LEDScreen.scanMesh w m (blankScreen (Some m) name app)).
  unfold LEDScreen.findTargetMaterial; simpl.
  destruct H as (mat & Hmat & Hmid & Hrest). rewrite Hmid.
  repeat split; try assumption. exists mat. by repeat split; try apply Hrest.
Qed.

(** Claim C10: building a [LEDScreen] with a reference to the controller on a
    mesh that holds a matching material writes the controller's global
    brightness into the emissive intensity of that material at once and, when
    a global custom texture exists, puts it into both the diffuse and the
    emissive slot; without one the two slots keep what the asset had. *)
Theorem constructor_applies_global_state :
  forall (w : World) (m : Object3D) (name : string) (g : Globals) (mid : MatId),
    last (matchingMaterials w name m) = Some mid ->
    globalCustomEmissiveTexture g = globalCustomTexture g ->
    let '(s', w') := LEDScreen.new (Some m) name true g w in
    exists mat0 mat,
      mats w !! mid = Some mat0
      /\ mats w' !! mid = Some mat
      /\ LEDScreen.material s' = Some mid
      /\ Material.emissiveIntensity mat = Some (globalBrightness g)
      /\ LEDScreen.brightness s' = globalBrightness g
      /\ match globalCustomTexture g with
         | Some tex =>
             Material.map mat = Some tex
             /\ Material.emissiveMap mat = Some tex
             /\ LEDScreen.currentTexture s' = Some tex
         | None =>
             Material.map mat = Material.map mat0
             /\ Material.emissiveMap mat = Material.emissiveMap mat0
             /\ LEDScreen.currentTexture s' = None
         end.
Proof.
  intros w m name g mid L Hco.
  destruct (findTargetMaterial_found w m name true mid L)
    as (s1 & Hfind & (mat0 & Hmat0 & Hmid & _) & Happ & Hcur & _).
  unfold LEDScreen.new. fold (blankScreen (Some m) name true). rewrite Hfind.
  unfold LEDScreen.applyGlobalState. rewrite Hmid, Happ.
  destruct (globalCustomTexture g) as [tex|] eqn:Htex; cbv beta iota zeta.
  - eexists mat0, _. split; [exact Hmat0|]. split.
    + rewrite !lookup_update_mat_eq, Hmat0; simpl. reflexivity.
    + simpl. rewrite Hco. repeat split; solve [reflexivity | assumption].
  - eexists mat0, _. split; [exact Hmat0|]. split.
    + rewrite !lookup_update_mat_eq, Hmat0; simpl. reflexivity.
    + simpl. repeat split; solve [reflexivity | assumption].
Qed.

(** The fields fixed by [findTargetMaterial]. *)
Definition sameBinding (s s' : LEDScreen.t) : Prop :=
  LEDScreen.material s' = LEDScreen.material s
  /\ LEDScreen.originalBaseColorTexture s' = LEDScreen.originalBaseColorTexture s
  /\ LEDScreen.originalEmissiveTexture s' = LEDScreen.originalEmissiveTexture s
  /\ LEDScreen.originalEmissiveIntensity s' = LEDScreen.originalEmissiveIntensity s.

Lemma update_mat_keeps (w : World) (mid mid' : MatId) (f : Material.t -> Material.t) :
  is_Some (mats w !! mid') -> is_Some (mats (update_mat mid f w) !! mid').
Proof.
  intros [x Hx]. destruct (decide (mid = mid')) as [->|Hne].
  - rewrite lookup_update_mat_eq, Hx. by eexists.
  - rewrite lookup_update_mat_ne by assumption. by eexists.
Qed.

Lemma applyGlobalState_keeps_binding (s : LEDScreen.t) (g : Globals) (w : World) :
  sameBinding s (fst (LEDScreen.applyGlobalState s g w))
  /\ forall mid, is_Some (mats w !! mid) ->
                 is_Some (mats (snd (LEDScreen.applyGlobalState s g w)) !! mid).
Proof.
  unfold LEDScreen.applyGlobalState, sameBinding.
  destruct (LEDScreen.material s) as [m|] eqn:Em;
    [|by simpl; split; [repeat split|intros]].
  destruct (LEDScreen.app s); [|by simpl; split; [repeat split|intros]].
  destruct (globalCustomTexture g); cbn;
    (split; [by repeat split|]); intros mid H; repeat apply update_mat_keeps; exact H.
Qed.

Lemma run_keeps_binding (c : LEDScreen.call) (s : LEDScreen.t) (g : Globals) (w : World) :
  let '(s', _, w') := LEDScreen.run c (s, g, w) in
  sameBinding s s'
  /\ forall mid, is_Some (mats w !! mid) -> is_Some (mats w' !! mid).
Proof.
  destruct c as [[tex|]|v]; simpl;
    unfold LEDScreen.setCustomTexture, LEDScreen.setBrightness, sameBinding;
    destruct (LEDScreen.material s) as [m|] eqn:Em; cbn;
    (split; [by repeat split|]); intros mid H;
    repeat apply update_mat_keeps; exact H.
Qed.

Lemma runAll_keeps_binding (cs : list LEDScreen.call) :
  forall (s : LEDScreen.t) (g : Globals) (w : World),
    let '(s', _, w') := LEDScreen.runAll cs (s, g, w) in
    sameBinding s s'
    /\ forall mid, is_Some (mats w !! mid) -> is_Some (mats w' !! mid).
Proof.
  unfold LEDScreen.runAll.
  induction cs as [|c cs IH]; intros s g w; cbn [fold_left].
  - by split; [repeat split|intros].
  - pose proof (run_keeps_binding c s g w) as H1.
    destruct (LEDScreen.run c (s, g, w)) as [[s1 g1] w1].
    specialize (IH s1 g1 w1).
    destruct (fold_left _ cs (s1, g1, w1)) as [[s2 g2] w2].
    destruct H1 as [(A1 & A2 & A3 & A4) K1], IH as [(B1 & B2 & B3 & B4) K2].
    cbv beta iota.
    split; [unfold sameBinding; repeat split; congruence|].
    intros mid H. apply K2, K1, H.
Qed.

(** Claim C4: after a screen has been bound to a material and any sequence of
    [setCustomTexture] and [setBrightness] calls has run, [resetToOriginal]
    leaves the material with the map and the emissive map it had when it was
    bound and with the emissive intensity captured then
    ([emissiveIntensity || 1]), and clears [currentTexture]. *)
Theorem resetToOriginal_restores_bound_values :
  forall (w : World) (m : Object3D) (name : string) (app : bool) (g : Globals)
         (mid : MatId) (calls : list LEDScreen.call),
    last (matchingMaterials w name m) = Some mid ->
    let '(s0, w0) := LEDScreen.new (Some m) name app g w in
    let '(s1, g1, w1) := LEDScreen.runAll calls (s0, g, w0) in
    let '(s2, g2, w2) := LEDScreen.resetToOriginal s1 g1 w1 in
    exists mat0 mat2,
      mats w !! mid = Some mat0
      /\ LEDScreen.originalBaseColorTexture s0 = Material.map mat0
      /\ LEDScreen.originalEmissiveTexture s0 = Material.emissiveMap mat0
      /\ LEDScreen.originalEmissiveIntensity s0
         = JS.or_num (Material.emissiveIntensity mat0) 1
      /\ mats w2 !! mid = Some mat2
      /\ LEDScreen.material s2 = Some mid
      /\ Material.map mat2 = Material.map mat0
      /\ Material.emissiveMap mat2 = Material.emissiveMap mat0
      /\ Material.emissiveIntensity mat2
         = Some (JS.or_num (Material.emissiveIntensity mat0) 1)
      /\ LEDScreen.brightness s2 = JS.or_num (Material.emissiveIntensity mat0) 1
      /\ LEDScreen.currentTexture s2 = None.
Proof.
  intros w m name app g mid calls L.
  destruct (findTargetMaterial_found w m name app mid L)
    as (sb & Hfind & (mat0 & Hmat0 & Hmid & Hob & Hoe & Hoi & _) & _).
  unfold LEDScreen.new. fold (blankScreen (Some m) name app). rewrite Hfind.
  pose proof (applyGlobalState_keeps_binding sb g w) as [(A1 & A2 & A3 & A4) K0].
  destruct (LEDScreen.applyGlobalState sb g w) as [s0 w0]; simpl in *.
  pose proof (runAll_keeps_binding calls s0 g w0) as H1.
  destruct (LEDScreen.runAll calls (s0, g, w0)) as [[s1 g1] w1].
  destruct H1 as [(B1 & B2 & B3 & B4) K1].
  assert (Hex : is_Some (mats w1 !! mid)) by (apply K1, K0; by eexists).
  destruct Hex as [mat1 Hmat1].
  unfold LEDScreen.resetToOriginal.
  rewrite B1, A1, Hmid.
  exists mat0. eexists. split; [exact Hmat0|].
  split; [congruence|]. split; [congruence|]. split; [congruence|].
  split.
  - rewrite !lookup_update_mat_eq, Hmat1; simpl. reflexivity.
  - simpl. repeat split; congruence.
Qed.

(* ===================================================================== *)
(** * Concrete scenes *)
(* ===================================================================== *)

Module Example.

Local Open Scope positive_scope.

Definition noUserData : Node.UserData := Node.mkUserData None None.

Definition group (uuid : ObjId) (name : string) : Node.t :=
  Node.mk uuid name false None NoMaterial noUserData false false.

Definition meshNode (uuid : ObjId) (name : string) (g : GeomId) (m : MatId) : Node.t :=
  Node.mk uuid name true (Some g) (Single m) noUserData false false.

(** Materials: two screen materials with the same name, a lit wall, an unlit
    decal and a lit prop body. *)
Definition screenMat : Material.t :=
  Material.mk "M_WhiteScreen" (Some 10) None (Some 11) (Some (Hex 0)) (Some 2%float) false.

Definition screenMat2 : Material.t :=
  Material.mk "M_WhiteScreen" (Some 12) None (Some 13) (Some (Hex 0)) (Some 0.5%float) false.

Definition wallMat : Material.t :=
  Material.mk "M_Wall" (Some 20) (Some 21) None (Some (Hex 0)) (Some 1%float) false.

Definition decalMat : Material.t :=
  Material.mk "M_Decal" (Some 30) None None None None false.

Definition bodyMat : Material.t :=
  Material.mk "M_Body" (Some 40) None None (Some (Hex 0x102030)) (Some 1%float) false.

Definition materials : Mats :=
  <[1 := screenMat]> (<[2 := wallMat]> (<[3 := screenMat2]>
    (<[4 := decalMat]> (<[5 := bodyMat]> ∅)))).

Definition world0 : World := mkWorld materials ∅ [] [] [] [].

(** A studio with one screen. *)
Definition madrid : Object3D :=
  Obj (group 100 "Scene")
    [ Obj (meshNode 101 "Wall" 1 2) [];
      Obj (meshNode 102 "Screen" 2 1) [] ].

(** A studio whose screen is split over two material objects of one name. *)
Definition barcelona : Object3D :=
  Obj (group 200 "Scene")
    [ Obj (meshNode 201 "ScreenLeft" 3 1) [];
      Obj (meshNode 202 "ScreenRight" 4 3) [] ].

(** A studio without a screen material. *)
Definition bare : Object3D :=
  Obj (group 300 "Scene") [ Obj (meshNode 301 "Wall" 5 2) [] ].

(** A prop: an unlit decal in front of a lit body. *)
Definition prop : Object3D :=
  Obj (group 400 "Prop")
    [ Obj (meshNode 401 "Decal" 6 4) [];
      Obj (meshNode 402 "Body" 7 5) [] ].

End Example.

Example matchingMaterials_barcelona :
  matchingMaterials Example.world0 "M_WhiteScreen" Example.barcelona = [1; 3]%positive.
Proof. vm_compute. reflexivity. Qed.

(* ===================================================================== *)
(** * CinemaCamera: field of view *)
(* ===================================================================== *)












(* ===================================================================== *)
(** * LEDStudioManager: switching and disposal *)
(* ===================================================================== *)

(** The textures in the three slots [disposeStudioMesh] looks at. *)
Definition holdsTexture (mat : Material.t) (x : TexId) : Prop :=
  Material.map mat = Some x \/ Material.normalMap mat = Some x
  \/ Material.emissiveMap mat = Some x.

(** [mid] is a material of a mesh node of [mesh]. *)
Definition meshMaterialOf (mesh : Object3D) (mid : MatId) : Prop :=
  exists d, In d (nodes mesh) /\ Node.isMesh d = true /\ In mid (Node.materials d).

Definition isScreenMaterial (mat : Material.t) : bool :=
  String.eqb (Material.name mat) LEDStudioManager.screenMaterialName.

(** The [dispose] calls of [disposeStudioMesh], in the order made. *)
Definition textureDisposals (t : option TexId) : list Resource :=
  match t with
  | Some x => [RTexture x]
  | None => []
  end.

Definition materialDisposals (ms : Mats) (mid : MatId) : list Resource :=
  match ms !! mid with
  | Some mat =>
      (if isScreenMaterial mat then []
       else textureDisposals (Material.map mat)
            ++ textureDisposals (Material.normalMap mat)
            ++ textureDisposals (Material.emissiveMap mat))
      ++ [RMaterial mid]
  | None => [RMaterial mid]
  end.

Definition nodeDisposals (ms : Mats) (d : Node.t) : list Resource :=
  if Node.isMesh d then
    match Node.geometry d with
    | Some g => [RGeometry g]
    | None => []
    end ++ List.concat (List.map (materialDisposals ms) (Node.materials d))
  else [].

Definition studioDisposals (ms : Mats) (mesh : Object3D) : list Resource :=
  List.concat (List.map (nodeDisposals ms) (nodes mesh)).

(** A world that differs from [w] by the dispose calls [ds]. *)
Definition disposing (ds : list Resource) (w : World) : World :=
  mkWorld (mats w) (texs w) (rev ds ++ disposed w) (scene w) (console w) (downloads w).

Lemma disposing_nil (w : World) : disposing [] w = w.
Proof. by destruct w. Qed.

Lemma disposing_app (a b : list Resource) (w : World) :
  disposing b (disposing a w) = disposing (a ++ b) w.
Proof. unfold disposing; simpl. by rewrite rev_app_distr, app_assoc. Qed.

Lemma dispose_texture_disposing (t : option TexId) (w : World) :
  SceneObject.dispose_texture t w = disposing (textureDisposals t) w.
Proof. destruct t; simpl; [reflexivity|symmetry; apply disposing_nil]. Qed.

Lemma disposeStudioMaterial_disposing (w : World) (mid : MatId) :
  LEDStudioManager.disposeStudioMaterial w mid
  = disposing (materialDisposals (mats w) mid) w.
Proof.
  unfold LEDStudioManager.disposeStudioMaterial, materialDisposals, isScreenMaterial.
  destruct (mats w !! mid) as [mat|]; [|reflexivity].
  destruct (String.eqb _ _); [reflexivity|].
  rewrite !dispose_texture_disposing, !disposing_app.
  change (dispose (RMaterial mid) ?x) with (disposing [RMaterial mid] x).
  rewrite disposing_app. by rewrite <- !app_assoc.
Qed.

Lemma fold_disposing {A : Type} (f : World -> A -> World) (g : Mats -> A -> list Resource) :
  (forall w a, f w a = disposing (g (mats w) a) w) ->
  forall (l : list A) (w : World),
    fold_left f l w = disposing (List.concat (List.map (g (mats w)) l)) w.
Proof.
  intros Hf l; induction l as [|a l IH]; intros w; simpl.
  - symmetry; apply disposing_nil.
  - rewrite IH, Hf, disposing_app. reflexivity.
Qed.

Lemma disposeStudioNode_disposing (w : World) (d : Node.t) :
  LEDStudioManager.disposeStudioNode w d = disposing (nodeDisposals (mats w) d) w.
Proof.
  unfold LEDStudioManager.disposeStudioNode, nodeDisposals.
  destruct (Node.isMesh d); [|symmetry; apply disposing_nil].
  rewrite (fold_disposing _ materialDisposals disposeStudioMaterial_disposing).
  destruct (Node.geometry d) as [g|]; simpl.
  - change (dispose (RGeometry g) w) with (disposing [RGeometry g] w).
    by rewrite disposing_app.
  - reflexivity.
Qed.

Lemma disposeStudioMesh_disposing (mesh : Object3D) (w : World) :
  LEDStudioManager.disposeStudioMesh mesh w
  = disposing (studioDisposals (mats w) mesh) w.
Proof.
  unfold LEDStudioManager.disposeStudioMesh, studioDisposals.
  apply (fold_disposing _ nodeDisposals disposeStudioNode_disposing).
Qed.

Lemma in_textureDisposals (t : option TexId) (r : Resource) :
  In r (textureDisposals t) <-> exists x, t = Some x /\ r = RTexture x.
Proof.
  destruct t as [y|]; simpl; split.
  - intros [<-|[]]. by exists y.
  - intros (x & [= ->] & ->). by left.
  - intros [].
  - intros (x & [=] & _).
Qed.

Lemma in_materialDisposals (ms : Mats) (mid : MatId) (r : Resource) :
  In r (materialDisposals ms mid) <->
  r = RMaterial mid
  \/ exists mat x, ms !! mid = Some mat /\ isScreenMaterial mat = false
                   /\ holdsTexture mat x /\ r = RTexture x.
Proof.
  unfold materialDisposals, holdsTexture.
  destruct (ms !! mid) as [mat|] eqn:E.
  - rewrite in_app_iff. destruct (isScreenMaterial mat) eqn:S; simpl.
    + split; [intros [[]|[<-|[]]]; by left|].
      intros [->|(mat' & x & [= <-] & F & _)]; [right; by left|congruence].
    + rewrite !in_app_iff, !in_textureDisposals. split.
      * intros [[(x & Hx & ->)|[(x & Hx & ->)|(x & Hx & ->)]]|[<-|[]]];
          try (right; exists mat, x; by intuition); by left.
      * intros [->|(mat' & x & [= <-] & _ & [H|[H|H]] & ->)];
          [right; by left| left..]; eauto 6.
  - simpl. split; [intros [<-|[]]; by left|].
    intros [->|(mat & x & [=] & _)]. by left.
Qed.

Lemma in_studioDisposals (ms : Mats) (mesh : Object3D) (r : Resource) :
  In r (studioDisposals ms mesh) <->
  (exists d g, In d (nodes mesh) /\ Node.isMesh d = true
               /\ Node.geometry d = Some g /\ r = RGeometry g)
  \/ (exists mid, meshMaterialOf mesh mid /\ In r (materialDisposals ms mid)).
Proof.
  unfold studioDisposals, meshMaterialOf. rewrite in_concat. split.
  - intros (l & Hl & Hr). apply in_map_iff in Hl as (d & <- & Hd).
    unfold nodeDisposals in Hr. destruct (Node.isMesh d) eqn:M; [|destruct Hr].
    apply in_app_iff in Hr as [Hr|Hr].
    + destruct (Node.geometry d) as [g|] eqn:G; [|destruct Hr].
      destruct Hr as [<-|[]]. left. by exists d, g.
    + apply in_concat in Hr as (l & Hl & Hr).
      apply in_map_iff in Hl as (mid & <- & Hmid).
      right. exists mid. split; [by exists d|assumption].
  - intros [(d & g & Hd & M & G & ->)|(mid & (d & Hd & M & Hmid) & Hr)].
    + exists (nodeDisposals ms d). split; [apply in_map_iff; by exists d|].
      unfold nodeDisposals. rewrite M, G. by left.
    + exists (nodeDisposals ms d). split; [apply in_map_iff; by exists d|].
      unfold nodeDisposals. rewrite M. apply in_app_iff; right.
      apply in_concat. exists (materialDisposals ms mid).
      split; [apply in_map_iff; by exists mid|assumption].
Qed.

Lemma SceneChild_eqb_eq (a b : SceneChild) : SceneChild_eqb a b = true <-> a = b.
Proof.
  destruct a, b; simpl; try (split; [discriminate|congruence || discriminate]);
    try (rewrite Pos.eqb_eq; split; congruence); split; reflexivity.
Qed.

Lemma in_scene_remove (c x : SceneChild) (w : World) :
  In x (scene (scene_remove c w)) <-> In x (scene w) /\ x <> c.
Proof.
  unfold scene_remove, set_scene; simpl. rewrite filter_In.
  split; intros [H1 H2]; split; try assumption.
  - intros ->. apply negb_true_iff in H2.
    destruct (SceneChild_eqb_eq c c) as [_ E]. rewrite E in H2 by reflexivity.
    discriminate.
  - apply negb_true_iff. destruct (SceneChild_eqb x c) eqn:E; [|reflexivity].
    apply SceneChild_eqb_eq in E. contradiction.
Qed.

(** The world once [switchStudio] has removed and disposed the current
    studio mesh. *)
Definition afterRemoval (m : LEDStudioManager.t) (w : World) : World :=
  match LEDStudioManager.currentStudioMesh m with
  | Some old =>
      disposing (studioDisposals (mats w) old)
        (scene_remove (ChildObject (Node.uuid (root old))) w)
  | None => w
  end.

Lemma switchStudio_failure (loader : string -> option Object3D) (name : string)
    (preserve : bool) (m : LEDStudioManager.t) (w : World) (studio : Studio.t) :
  LEDStudioManager.getStudioByName name m = Some studio ->
  loader (Studio.gltfPath studio) = None ->
  LEDStudioManager.switchStudio loader name preserve m w
  = (None, m, log (Error "Error switching studio:") (afterRemoval m w)).
Proof.
  intros Hs Hl. unfold LEDStudioManager.switchStudio, LEDStudioManager.loadStudioMesh,
    afterRemoval.
  rewrite Hs, Hl.
  destruct (LEDStudioManager.currentStudioMesh m) as [old|]; [|reflexivity].
  rewrite disposeStudioMesh_disposing. reflexivity.
Qed.

Lemma switchStudio_success (loader : string -> option Object3D) (name : string)
    (m : LEDStudioManager.t) (w : World) (studio : Studio.t) (newMesh : Object3D) :
  LEDStudioManager.getStudioByName name m = Some studio ->
  LEDStudioManager.loadStudioMesh loader studio = Some newMesh ->
  LEDStudioManager.switchStudio loader name false m w
  = (Some (newMesh, None),
     LEDStudioManager.mk (LEDStudioManager.availableStudios m) (Some studio)
       (Some newMesh) (LEDStudioManager.isLoaded m),
     scene_add (ChildObject (Node.uuid (root newMesh))) (afterRemoval m w)).
Proof.
  intros Hs Hl. unfold LEDStudioManager.switchStudio, afterRemoval.
  rewrite Hs, Hl.
  destruct (LEDStudioManager.currentStudioMesh m) as [old|]; [|reflexivity].
  rewrite disposeStudioMesh_disposing. reflexivity.
Qed.

Lemma mats_afterRemoval (m : LEDStudioManager.t) (w : World) :
  mats (afterRemoval m w) = mats w.
Proof. unfold afterRemoval. by destruct (LEDStudioManager.currentStudioMesh m). Qed.

(** Claim C6, as amended: when the glTF loader reports an error for the
    studio asked for, [switchStudio] returns [false] after logging the error;
    no object is inserted into the scene and the manager keeps its
    [currentStudio] and [currentStudioMesh] fields, but the studio mesh that
    was current has already been taken out of the scene and disposed.  When
    the loader reports an error for an uploaded model, the state is the one
    before the call, with the error logged. *)
Theorem failed_load_outcome :
  forall (loader : string -> option Object3D) (name : string) (preserve : bool)
         (m : LEDStudioManager.t) (w : World) (studio : Studio.t),
    LEDStudioManager.getStudioByName name m = Some studio ->
    loader (Studio.gltfPath studio) = None ->
    let '(res, m', w') := LEDStudioManager.switchStudio loader name preserve m w in
    res = None
    /\ m' = m
    /\ w' = log (Error "Error switching studio:") (afterRemoval m w)
    /\ (forall c, In c (scene w') -> In c (scene w))
    /\ (forall old,
          LEDStudioManager.currentStudioMesh m = Some old ->
          ~ In (ChildObject (Node.uuid (root old))) (scene w')
          /\ forall r, In r (studioDisposals (mats w) old) -> In r (disposed w'))
    /\ (forall (modelName uid : string) (s : LEDStageApp.t),
          LEDStageApp.loadGLTFModel None modelName uid s
          = (JS.Normal tt,
             LEDStageApp.set_world (log (Error "Error loading model:")) s)).
Proof.
  intros loader name preserve m w studio Hs Hl.
  rewrite (switchStudio_failure _ _ _ _ _ _ Hs Hl).
  split; [reflexivity|]. split; [reflexivity|]. split; [reflexivity|].
  unfold afterRemoval. repeat split.
  - intros c. destruct (LEDStudioManager.currentStudioMesh m) as [old|]; simpl.
    + intros H. change (In c (scene (scene_remove (ChildObject (Node.uuid (root old))) w))) in H.
      by apply in_scene_remove in H as [H _].
    + trivial.
  - rewrite H; simpl.
    change (~ In (ChildObject (Node.uuid (root old)))
              (scene (scene_remove (ChildObject (Node.uuid (root old))) w))).
    rewrite in_scene_remove. intros [_ F]. by apply F.
  - rewrite H; simpl. intros r Hr. apply in_or_app; left. by apply in_rev in Hr.
Qed.

(** A loader that knows the Madrid studio only, and one that always fails. *)
Definition loadMadrid (path : string) : option Object3D :=
  if String.eqb path "public/LED_Studio/MADRID_15X5/LED_Studio_Madrid.gltf"
  then Some Example.madrid else None.

Definition loadNothing (path : string) : option Object3D := None.

(** The controller after its start-up with the Madrid studio on disk. *)
Definition startedApp : LEDStageApp.t :=
  LEDStageApp.step
    (LEDStageApp.InitializeStudioManager (fun _ => true) loadMadrid)
    (LEDStageApp.init Example.materials ∅).

(** A failed switch does not leave the previous environment in the scene:
    the Madrid studio is in the scene after start-up and gone after a switch
    to Barcelona whose load fails. *)
Lemma failed_switch_removes_previous_studio :
  let s' := LEDStageApp.step (LEDStageApp.StudioChange loadNothing "BARCELONA")
              startedApp in
  In (ChildObject 100%positive) (scene (LEDStageApp.world startedApp))
  /\ ~ In (ChildObject 100%positive) (scene (LEDStageApp.world s'))
  /\ option_map root
       (LEDStudioManager.currentStudioMesh (LEDStageApp.studioManager s'))
     = Some (Example.group 100%positive "Scene").
Proof.
  vm_compute. split; [|split].
  - do 3 right. by left.
  - intros [H|[H|[H|[]]]]; discriminate.
  - reflexivity.
Qed.

Lemma update_mat_frame (mid : MatId) (f : Material.t -> Material.t) (w : World) :
  disposed (update_mat mid f w) = disposed w
  /\ scene (update_mat mid f w) = scene w
  /\ texs (update_mat mid f w) = texs w
  /\ console (update_mat mid f w) = console w
  /\ downloads (update_mat mid f w) = downloads w.
Proof. by repeat split. Qed.

Lemma disposed_update_mat (mid : MatId) (f : Material.t -> Material.t) (w : World) :
  disposed (update_mat mid f w) = disposed w.
Proof. reflexivity. Qed.

Lemma scene_update_mat (mid : MatId) (f : Material.t -> Material.t) (w : World) :
  scene (update_mat mid f w) = scene w.
Proof. reflexivity. Qed.

Lemma in_scene_add (c : SceneChild) (w : World) : In c (scene (scene_add c w)).
Proof. unfold scene_add, set_scene; simpl. apply in_or_app; right. by left. Qed.

Lemma in_disposed_afterRemoval (m : LEDStudioManager.t) (w : World)
    (old : Object3D) (r : Resource) :
  LEDStudioManager.currentStudioMesh m = Some old ->
  In r (disposed (afterRemoval m w))
  <-> In r (studioDisposals (mats w) old) \/ In r (disposed w).
Proof.
  intros H. unfold afterRemoval. rewrite H. simpl.
  rewrite in_app_iff, <- in_rev. reflexivity.
Qed.

Lemma matchingMaterials_mats (w w' : World) (name : string) (m : Object3D) :
  mats w' = mats w -> matchingMaterials w' name m = matchingMaterials w name m.
Proof.
  intros E. unfold matchingMaterials. apply List.filter_ext.
  intros mid. unfold hasName. by rewrite E.
Qed.

Lemma new_with_custom_texture (w : World) (m : Object3D) (name : string)
    (g : Globals) (mid : MatId) (tex : TexId) :
  last (matchingMaterials w name m) = Some mid ->
  globalCustomTexture g = Some tex ->
  exists sb,
    boundTo w sb mid
    /\ LEDScreen.app sb = true
    /\ LEDScreen.new (Some m) name true g w
       = (LEDScreen.set_currentTexture (Some tex)
            (LEDScreen.set_brightness (globalBrightness g) sb),
          update_mat mid (Material.set_needsUpdate true)
            (update_mat mid (Material.set_emissiveMap (globalCustomEmissiveTexture g))
               (update_mat mid (Material.set_map (Some tex))
                  (update_mat mid
                     (Material.set_emissiveIntensity (Some (globalBrightness g))) w)))).
Proof.
  intros L Htex.
  destruct (findTargetMaterial_found w m name true mid L)
    as (sb & Hfind & Hb & Happ & _).
  exists sb. split; [exact Hb|]. split; [exact Happ|].
  unfold LEDScreen.new. fold (blankScreen (Some m) name true). rewrite Hfind.
  unfold LEDScreen.applyGlobalState.
  destruct Hb as (mat & _ & Hmid & _). rewrite Hmid, Happ, Htex. reflexivity.
Qed.

(** What [onStudioChange] does with the global screen state: a studio change
    made while the controller holds a custom texture [tex] and the brightness
    [b] in its global state binds the screen material of the new studio with
    brightness [b] and with [tex] itself in the diffuse and the emissive slot.
    Every geometry and every material of the old studio mesh is disposed, and
    so are the textures of its materials that are not named like the screen
    material; a texture is disposed only when such a material holds it. *)
Theorem studio_change_keeps_screen_state :
  forall (s : LEDStageApp.t) (loader : string -> option Object3D) (name : string)
         (studio : Studio.t) (newMesh : Object3D) (mid : MatId) (tex : TexId)
         (b : float),
    name <> "" ->
    LEDStudioManager.getStudioByName name (LEDStageApp.studioManager s) = Some studio ->
    LEDStudioManager.loadStudioMesh loader studio = Some newMesh ->
    last (matchingMaterials (LEDStageApp.world s) "M_WhiteScreen" newMesh) = Some mid ->
    globalCustomTexture (LEDStageApp.globals s) = Some tex ->
    globalCustomEmissiveTexture (LEDStageApp.globals s) = Some tex ->
    globalBrightness (LEDStageApp.globals s) = b ->
    let s' := LEDStageApp.exec (LEDStageApp.onStudioChange loader name) s in
    let w := LEDStageApp.world s in
    let w' := LEDStageApp.world s' in
    (exists scr mat,
        LEDStageApp.ledScreen s' = Some scr
        /\ LEDScreen.material scr = Some mid
        /\ LEDScreen.brightness scr = b
        /\ LEDScreen.currentTexture scr = Some tex
        /\ mats w' !! mid = Some mat
        /\ Material.map mat = Some tex
        /\ Material.emissiveMap mat = Some tex
        /\ Material.emissiveIntensity mat = Some b)
    /\ LEDStageApp.globals s' = LEDStageApp.globals s
    /\ LEDStudioManager.currentStudioMesh (LEDStageApp.studioManager s') = Some newMesh
    /\ In (ChildObject (Node.uuid (root newMesh))) (scene w')
    /\ forall old,
         LEDStudioManager.currentStudioMesh (LEDStageApp.studioManager s) = Some old ->
         (forall d g, In d (nodes old) -> Node.isMesh d = true ->
                      Node.geometry d = Some g -> In (RGeometry g) (disposed w'))
         /\ (forall m, meshMaterialOf old m -> In (RMaterial m) (disposed w'))
         /\ (forall m mat x,
               meshMaterialOf old m -> mats w !! m = Some mat ->
               isScreenMaterial mat = false -> holdsTexture mat x ->
               In (RTexture x) (disposed w'))
         /\ (forall x,
               In (RTexture x) (disposed w') ->
               In (RTexture x) (disposed w)
               \/ exists m mat,
                    meshMaterialOf old m /\ mats w !! m = Some mat
                    /\ isScreenMaterial mat = false /\ holdsTexture mat x)
         /\ (~ In (RTexture tex) (disposed w) ->
             (forall m mat, meshMaterialOf old m -> mats w !! m = Some mat ->
                            holdsTexture mat tex -> isScreenMaterial mat = true) ->
             ~ In (RTexture tex) (disposed w')).
Proof.
  intros s loader name studio newMesh mid tex b Hname Hs Hl L Ht Hte Hb.
  set (w2 := scene_add (ChildObject (Node.uuid (root newMesh)))
               (afterRemoval (LEDStageApp.studioManager s) (LEDStageApp.world s))).
  assert (Hm2 : mats w2 = mats (LEDStageApp.world s))
    by (unfold w2; simpl; apply mats_afterRemoval).
  assert (L2 : last (matchingMaterials w2 "M_WhiteScreen" newMesh) = Some mid)
    by (by rewrite (matchingMaterials_mats (LEDStageApp.world s) w2)).
  destruct (new_with_custom_texture w2 newMesh "M_WhiteScreen"
              (LEDStageApp.globals s) mid tex L2 Ht)
    as (sb & (mat0 & Hmat0 & Hmid & _) & Happ & Hnew).
  remember (LEDStageApp.exec (LEDStageApp.onStudioChange loader name) s) as sf eqn:E.
  unfold LEDStageApp.exec, LEDStageApp.onStudioChange in E.
  apply String.eqb_neq in Hname. rewrite Hname in E.
  unfold LEDStageApp.try_catch, LEDStageApp.bind, LEDStageApp.switchStudio in E.
  rewrite (switchStudio_success _ _ _ _ _ _ Hs Hl) in E. fold w2 in E.
  unfold LEDStageApp.newLEDScreen, LEDStudioManager.screenMaterialName in E.
  cbn [LEDStageApp.globals LEDStageApp.world LEDStageApp.set_studioManager
       LEDStageApp.set_world] in E.
  rewrite Hnew, Ht in E.
  cbn [LEDStageApp.globals LEDStageApp.world LEDStageApp.set_studioManager
       LEDStageApp.set_world LEDStageApp.set_ledScreen] in E.
  rewrite Ht in E.
  unfold LEDStageApp.assign_screen_material, LEDStageApp.modify, LEDStageApp.on_screen,
    LEDScreen.setBrightness in E.
  do 4 (cbn -[update_mat w2] in E; rewrite ?Hmid, ?Happ in E).
  subst sf. cbn -[update_mat w2].
  rewrite Hte, Hb.
  split; [|split; [|split; [|split]]].
  - eexists _, _. split; [reflexivity|].
    split; [exact Hmid|]. split; [reflexivity|]. split; [reflexivity|].
    split; [rewrite !lookup_update_mat_eq, Hmat0; reflexivity|].
    by repeat split.
  - destruct (LEDStageApp.globals s); simpl in *. congruence.
  - reflexivity.
  - rewrite !scene_update_mat. apply in_scene_add.
  - intros old Hold. rewrite !disposed_update_mat.
    change (disposed w2)
      with (disposed (afterRemoval (LEDStageApp.studioManager s) (LEDStageApp.world s))).
    split; [|split; [|split; [|split]]].
    + intros d g Hd Hm Hg. apply (in_disposed_afterRemoval _ _ old _ Hold); left.
      apply in_studioDisposals. left. by exists d, g.
    + intros m Hm. apply (in_disposed_afterRemoval _ _ old _ Hold); left.
      apply in_studioDisposals. right. exists m. split; [exact Hm|].
      apply in_materialDisposals. by left.
    + intros m mat x Hm Hmat Hsc Hx.
      apply (in_disposed_afterRemoval _ _ old _ Hold); left.
      apply in_studioDisposals. right. exists m. split; [exact Hm|].
      apply in_materialDisposals. right. by exists mat, x.
    + intros x Hx. apply (in_disposed_afterRemoval _ _ old _ Hold) in Hx as [Hx|Hx];
        [|by left].
      apply in_studioDisposals in Hx as [(d & g & _ & _ & _ & [=])|(m & Hm & Hx)].
      apply in_materialDisposals in Hx as [[=]|(mat & y & Hmat & Hsc & Hy & [= ->])].
      right. by exists m, mat.
    + intros Hnot Honly Hx.
      apply (in_disposed_afterRemoval _ _ old _ Hold) in Hx as [Hx|Hx];
        [|by apply Hnot].
      apply in_studioDisposals in Hx as [(d & g & _ & _ & _ & [=])|(m & Hm & Hx)].
      apply in_materialDisposals in Hx as [[=]|(mat & y & Hmat & Hsc & Hy & [= ->])].
      rewrite (Honly m mat Hm Hmat Hy) in Hsc. discriminate.
Qed.

(* ===================================================================== *)
(** * LEDStageApp: the selection slot *)
(* ===================================================================== *)

Import LEDStageApp.

(** At most one tracked entity reports [isSelected = true]. *)
Definition atMostOneSelected (s : t) : Prop :=
  forall r1 r2 : Ref,
    tracked s r1 -> tracked s r2 ->
    isSelected s r1 = true -> isSelected s r2 = true -> r1 = r2.

(** Every tracked entity that reports [isSelected] is the one in the slot. *)
Definition slotHoldsSelected (s : t) : Prop :=
  forall r : Ref, tracked s r -> isSelected s r = true -> selectedObject s = Some r.

(** No tracked entity reports [isSelected]. *)
Definition noneSelected (s : t) : Prop :=
  forall r : Ref, tracked s r -> isSelected s r = false.

(** The two collections are keyed by the [id] of the entity they hold. *)
Definition keyedById (s : t) : Prop :=
  List.NoDup (JS.keys (sceneObjects s))
  /\ List.NoDup (JS.keys (cinemaCameras s))
  /\ (forall k a, In (k, a) (sceneObjects s) ->
        exists o, objects s !! a = Some o /\ SceneObject.id o = k)
  /\ (forall k a, In (k, a) (cinemaCameras s) ->
        exists c, cameras s !! a = Some c /\ CinemaCamera.id c = k).

Definition invariant (s : t) : Prop := keyedById s /\ slotHoldsSelected s.

(** The cameras of the collection are distinct objects. *)
Definition camerasTracked (s : t) : Prop :=
  List.NoDup (JS.values (cinemaCameras s))
  /\ forall a, In a (JS.values (cinemaCameras s)) -> is_Some (cameras s !! a).

(** [s'] has the collections and the slot of [s], and every entity has kept
    its [id]. *)
Definition sameEntities (s s' : t) : Prop :=
  sceneObjects s' = sceneObjects s
  /\ cinemaCameras s' = cinemaCameras s
  /\ (forall a, SceneObject.id <$> objects s' !! a = SceneObject.id <$> objects s !! a)
  /\ (forall a, CinemaCamera.id <$> cameras s' !! a = CinemaCamera.id <$> cameras s !! a).

(** ... and moreover the same slot and the same [isSelected] flags. *)
Definition sameSelection (s s' : t) : Prop :=
  sameEntities s s'
  /\ selectedObject s' = selectedObject s
  /\ forall r, isSelected s' r = isSelected s r.

Lemma sameEntities_refl (s : t) : sameEntities s s.
Proof. by repeat split. Qed.

Lemma sameEntities_trans (s1 s2 s3 : t) :
  sameEntities s1 s2 -> sameEntities s2 s3 -> sameEntities s1 s3.
Proof.
  intros (A1 & A2 & A3 & A4) (B1 & B2 & B3 & B4).
  split; [congruence|]. split; [congruence|].
  split; intros a; [rewrite B3|rewrite B4]; auto.
Qed.

Lemma sameSelection_refl (s : t) : sameSelection s s.
Proof. split; [apply sameEntities_refl|by split]. Qed.

Lemma sameSelection_trans (s1 s2 s3 : t) :
  sameSelection s1 s2 -> sameSelection s2 s3 -> sameSelection s1 s3.
Proof.
  intros (A1 & A2 & A3) (B1 & B2 & B3).
  split; [by eapply sameEntities_trans|]. split; [congruence|].
  intros r. by rewrite B3.
Qed.

Lemma keyedById_sameEntities (s s' : t) :
  sameEntities s s' -> keyedById s -> keyedById s'.
Proof.
  intros (E1 & E2 & E3 & E4) (N1 & N2 & K1 & K2).
  unfold keyedById. rewrite E1, E2. repeat split; try assumption.
  - intros k a Hin. destruct (K1 k a Hin) as (o & Ho & Hid).
    specialize (E3 a). rewrite Ho in E3; simpl in E3.
    destruct (objects s' !! a) as [o'|]; [|discriminate].
    exists o'. split; [reflexivity|]. simpl in E3. congruence.
  - intros k a Hin. destruct (K2 k a Hin) as (c & Hc & Hid).
    specialize (E4 a). rewrite Hc in E4; simpl in E4.
    destruct (cameras s' !! a) as [c'|]; [|discriminate].
    exists c'. split; [reflexivity|]. simpl in E4. congruence.
Qed.

Lemma tracked_sameEntities (s s' : t) (r : Ref) :
  sameEntities s s' -> tracked s' r <-> tracked s r.
Proof. intros (E1 & E2 & _). destruct r; simpl; by rewrite ?E1, ?E2. Qed.

Lemma invariant_sameSelection (s s' : t) :
  sameSelection s s' -> invariant s -> invariant s'.
Proof.
  intros (E & Hsel & Hflags) (K & S). split; [by eapply keyedById_sameEntities|].
  intros r Ht Hr. rewrite Hsel. apply S.
  - by apply (tracked_sameEntities s s').
  - by rewrite <- Hflags.
Qed.

Lemma invariant_atMostOne (s : t) : invariant s -> atMostOneSelected s.
Proof.
  intros (_ & S) r1 r2 T1 T2 H1 H2.
  pose proof (S r1 T1 H1) as E1. pose proof (S r2 T2 H2) as E2. congruence.
Qed.

(** A method whose every run, returning or throwing, ends in a state
    related to the one it started from. *)
Definition keeps {A : Type} (R : t -> t -> Prop) (m : M A) : Prop :=
  forall s, R s (snd (m s)).

Section Keeps.
Context (R : t -> t -> Prop).
Hypothesis R_refl : forall s, R s s.
Hypothesis R_trans : forall s1 s2 s3, R s1 s2 -> R s2 s3 -> R s1 s3.

Lemma keeps_ret {A : Type} (a : A) : keeps R (ret a).
Proof. intros s. apply R_refl. Qed.

Lemma keeps_throw {A : Type} (e : string) : keeps R (@throw A e).
Proof. intros s. apply R_refl. Qed.

Lemma keeps_bind {A B : Type} (m : M A) (k : A -> M B) :
  keeps R m -> (forall a, keeps R (k a)) -> keeps R (bind m k).
Proof.
  intros Hm Hk s. unfold bind. specialize (Hm s).
  destruct (m s) as [[a|e] s1]; simpl in *; [|exact Hm].
  eapply R_trans; [exact Hm|apply Hk].
Qed.

Lemma keeps_try_catch (m h : M unit) :
  keeps R m -> keeps R h -> keeps R (try_catch m h).
Proof.
  intros Hm Hh s. unfold try_catch. specialize (Hm s).
  destruct (m s) as [[a|e] s1]; simpl in *; [exact Hm|].
  eapply R_trans; [exact Hm|apply Hh].
Qed.

Lemma keeps_modify (f : t -> t) : (forall s, R s (f s)) -> keeps R (modify f).
Proof. intros Hf s. apply Hf. Qed.

Lemma keeps_forEach {A : Type} (f : A -> M unit) (l : list A) :
  (forall a, keeps R (f a)) -> keeps R (forEach f l).
Proof.
  intros Hf. induction l as [|a l IH]; simpl.
  - apply keeps_ret.
  - apply keeps_bind; [apply Hf|intros _; exact IH].
Qed.

End Keeps.

Ltac same_fields :=
  split; [repeat split|split; [reflexivity|intros [?|?]; reflexivity]]; reflexivity.

Lemma sameSelection_camera_update (s : t) (a : Addr) (c c' : CinemaCamera.t) :
  cameras s !! a = Some c ->
  CinemaCamera.isSelected c' = CinemaCamera.isSelected c ->
  CinemaCamera.id c' = CinemaCamera.id c ->
  sameSelection s (set_cameras (insert a c') s).
Proof.
  intros Hc Hs Hi. split; [repeat split; try reflexivity|split; [reflexivity|]].
  - intros a'. cbn. destruct (decide (a = a')) as [->|Hne].
    + rewrite lookup_insert_eq, Hc. simpl. by rewrite Hi.
    + by rewrite lookup_insert_ne.
  - intros [a'|a']; cbn; [reflexivity|].
    destruct (decide (a = a')) as [->|Hne].
    + by rewrite lookup_insert_eq, Hc.
    + by rewrite lookup_insert_ne.
Qed.

Lemma keeps_modify_fields (f : t -> t) :
  (forall s, sameSelection s (f s)) -> keeps sameSelection (modify f).
Proof. apply keeps_modify. Qed.

Ltac keeps_step :=
  first
    [ apply (keeps_ret sameSelection sameSelection_refl)
    | apply (keeps_throw sameSelection sameSelection_refl)
    | apply (keeps_bind sameSelection sameSelection_trans); [|intros ?]
    | apply (keeps_try_catch sameSelection sameSelection_trans)
    | apply keeps_modify_fields; intros ?; same_fields ].

Lemma keeps_attach (o : Attached) : keeps sameSelection (attach o).
Proof. unfold attach. keeps_step. Qed.

Lemma keeps_detach : keeps sameSelection detach.
Proof. unfold detach. keeps_step. Qed.

Lemma keeps_setMode (m : Mode) : keeps sameSelection (setMode m).
Proof. unfold setMode. keeps_step. Qed.

Lemma keeps_setSpace (sp : Space) : keeps sameSelection (setSpace sp).
Proof. unfold setSpace. keeps_step. Qed.

Lemma keeps_set_gizmo_visible (v : bool) : keeps sameSelection (set_gizmo_visible v).
Proof. unfold set_gizmo_visible. keeps_step. Qed.

Lemma keeps_showModelControls : keeps sameSelection showModelControls.
Proof. unfold showModelControls. keeps_step. Qed.

Lemma keeps_showCameraControls : keeps sameSelection showCameraControls.
Proof. unfold showCameraControls. keeps_step. Qed.

Lemma keeps_hideAllControlPanels : keeps sameSelection hideAllControlPanels.
Proof. unfold hideAllControlPanels. keeps_step. Qed.

Lemma keeps_show_camera_viewport (v : bool) : keeps sameSelection (show_camera_viewport v).
Proof. unfold show_camera_viewport. keeps_step. Qed.

Lemma keeps_updateTransformSpace : keeps sameSelection updateTransformSpace.
Proof. intros s. unfold updateTransformSpace. apply keeps_setSpace. Qed.

Lemma keeps_render (ok : bool) : keeps sameSelection (render ok).
Proof. unfold render. destruct ok; keeps_step. Qed.

Lemma keeps_toDataURL (ok : bool) : keeps sameSelection (toDataURL ok).
Proof. unfold toDataURL. destruct ok; keeps_step. Qed.

Lemma keeps_hideCamera (a : Addr) : keeps sameSelection (hideCamera a).
Proof.
  intros s. unfold hideCamera.
  destruct (cameras s !! a) as [c|] eqn:E; simpl; [|apply sameSelection_refl].
  by apply (sameSelection_camera_update s a c).
Qed.

Lemma keeps_hideCameras (l : list Addr) : keeps sameSelection (hideCameras l).
Proof.
  induction l as [|a l IH]; simpl; [keeps_step|].
  keeps_step; [apply keeps_hideCamera|]. keeps_step; [exact IH|]. keeps_step.
Qed.

Lemma keeps_restoreCamera (vis : list (bool * bool)) (i : nat) (a : Addr) :
  keeps sameSelection (restoreCamera vis i a).
Proof.
  unfold restoreCamera. destruct (nth_error vis i) as [[h m]|]; [|keeps_step].
  intros s. destruct (cameras s !! a) as [c|] eqn:E; simpl; [|apply sameSelection_refl].
  by apply (sameSelection_camera_update s a c).
Qed.

Lemma keeps_restoreCameras (vis : list (bool * bool)) (l : list Addr) :
  forall i, keeps sameSelection (restoreCameras vis i l).
Proof.
  induction l as [|a l IH]; intros i; simpl; [keeps_step|].
  keeps_step; [apply keeps_restoreCamera|apply IH].
Qed.

Lemma keeps_hideCameraVisualsForCapture : keeps sameSelection hideCameraVisualsForCapture.
Proof.
  intros s. unfold hideCameraVisualsForCapture.
  apply (keeps_bind sameSelection sameSelection_trans); [apply keeps_hideCameras|].
  intros vis s1.
  apply (keeps_bind sameSelection sameSelection_trans);
    [apply keeps_set_gizmo_visible|intros; keeps_step].
Qed.

Lemma keeps_restoreCameraVisualsAfterCapture (v : Visibilities) :
  keeps sameSelection (restoreCameraVisualsAfterCapture v).
Proof.
  unfold restoreCameraVisualsAfterCapture.
  keeps_step; [apply keeps_set_gizmo_visible|].
  intros s. apply keeps_restoreCameras.
Qed.

Lemma keeps_capture (render_ok encode_ok : bool) (a : Addr) :
  keeps sameSelection (capture render_ok encode_ok a).
Proof.
  unfold capture.
  keeps_step; [apply keeps_hideCameraVisualsForCapture|].
  keeps_step; [apply keeps_render|].
  keeps_step.
  { intros s. destruct (cameras s !! a) as [c|]; [|apply sameSelection_refl].
    apply (keeps_bind sameSelection sameSelection_trans);
      [apply keeps_toDataURL|intros; keeps_step]. }
  keeps_step; [apply keeps_restoreCameraVisualsAfterCapture|keeps_step].
Qed.

Lemma keeps_renderCameraPreview (render_ok : bool) :
  keeps sameSelection (renderCameraPreview render_ok).
Proof.
  intros s. unfold renderCameraPreview.
  destruct (cameraToRender s); [|apply sameSelection_refl].
  destruct (cameraPreviewRenderer s); [|apply sameSelection_refl].
  apply (keeps_bind sameSelection sameSelection_trans); [apply keeps_hideCameras|].
  intros vis s1.
  apply (keeps_bind sameSelection sameSelection_trans);
    [apply keeps_set_gizmo_visible|intros _].
  apply (keeps_bind sameSelection sameSelection_trans); [apply keeps_render|intros _].
  apply (keeps_bind sameSelection sameSelection_trans);
    [apply keeps_set_gizmo_visible|intros _].
  apply keeps_restoreCameras.
Qed.

Lemma keeps_showCameraPreview (render_ok : bool) :
  keeps sameSelection (showCameraPreview render_ok).
Proof.
  intros s. unfold showCameraPreview.
  destruct (selectedObject s) as [[a|a]|]; try apply sameSelection_refl.
  apply (keeps_bind sameSelection sameSelection_trans);
    [apply keeps_show_camera_viewport|intros _].
  apply (keeps_bind sameSelection sameSelection_trans); [keeps_step|intros _].
  apply keeps_renderCameraPreview.
Qed.

Lemma keeps_unpinCameraPreview : keeps sameSelection unpinCameraPreview.
Proof.
  intros s. unfold unpinCameraPreview.
  destruct (pinnedCamera s) as [p|]; [|apply sameSelection_refl].
  apply (keeps_bind sameSelection sameSelection_trans); [keeps_step|intros _].
  destruct (selectedObject s) as [[a|a]|];
    first [apply keeps_show_camera_viewport | keeps_step].
Qed.

Lemma keeps_togglePinCameraPreview : keeps sameSelection togglePinCameraPreview.
Proof.
  intros s. unfold togglePinCameraPreview.
  destruct (pinnedCamera s) as [p|]; [apply keeps_unpinCameraPreview|].
  unfold pinCameraPreview.
  destruct (selectedObject s) as [[a|a]|]; simpl; try apply sameSelection_refl.
  same_fields.
Qed.

Lemma keeps_on_screen
    (f : LEDScreen.t -> Globals -> World -> LEDScreen.t * Globals * World) :
  keeps sameSelection (on_screen f).
Proof.
  intros s. unfold on_screen.
  destruct (ledScreen s) as [scr|]; [|apply sameSelection_refl].
  destruct (f scr (globals s) (world s)) as [[scr' g'] w']. simpl. same_fields.
Qed.

Lemma keeps_newLEDScreen (mesh : Object3D) : keeps sameSelection (newLEDScreen mesh).
Proof.
  intros s. unfold newLEDScreen.
  destruct (LEDScreen.new _ _ _ _ _) as [scr w']. simpl. same_fields.
Qed.

Lemma keeps_switchStudio (loader : string -> option Object3D) (name : string)
    (preserve : bool) :
  keeps sameSelection (LEDStageApp.switchStudio loader name preserve).
Proof.
  intros s. unfold LEDStageApp.switchStudio.
  destruct (LEDStudioManager.switchStudio _ _ _ _ _) as [[res m'] w']. simpl. same_fields.
Qed.

Lemma keeps_assign_screen_material (f : Material.t -> Material.t) :
  keeps sameSelection (assign_screen_material f).
Proof.
  intros s. unfold assign_screen_material.
  destruct (ledScreen s) as [scr|]; [|apply sameSelection_refl].
  destruct (LEDScreen.material scr); [|apply sameSelection_refl].
  simpl. same_fields.
Qed.

Lemma keeps_onStudioChange (loader : string -> option Object3D) (name : string) :
  keeps sameSelection (onStudioChange loader name).
Proof.
  unfold onStudioChange. destruct (String.eqb name ""); [keeps_step|].
  keeps_step; [|keeps_step].
  intros s.
  apply (keeps_bind sameSelection sameSelection_trans); [apply keeps_switchStudio|].
  intros [[mesh st]|]; [|keeps_step].
  keeps_step; [apply keeps_newLEDScreen|].
  keeps_step; [|apply keeps_on_screen].
  intros s1.
  destruct (globalCustomTexture (globals s)); [|apply sameSelection_refl].
  destruct (globalCustomTexture (globals s1)); [|apply sameSelection_refl].
  apply (keeps_bind sameSelection sameSelection_trans);
    [apply keeps_assign_screen_material|intros _].
  apply (keeps_bind sameSelection sameSelection_trans);
    [apply keeps_assign_screen_material|intros _].
  apply (keeps_bind sameSelection sameSelection_trans); [keeps_step|intros _].
  apply keeps_assign_screen_material.
Qed.

Lemma keeps_initializeStudioManager (exists_ : string -> bool)
    (loader : string -> option Object3D) :
  keeps sameSelection (initializeStudioManager exists_ loader).
Proof.
  unfold initializeStudioManager. keeps_step; [|keeps_step].
  keeps_step; [keeps_step|].
  keeps_step; [apply keeps_switchStudio|].
  destruct a0 as [[mesh st]|]; [|keeps_step].
  keeps_step; [apply keeps_newLEDScreen|].
  apply keeps_modify_fields. intros s.
  destruct (ledScreen s); [same_fields|apply sameSelection_refl].
Qed.

Lemma keeps_captureSelected (render_ok encode_ok : bool) :
  keeps sameSelection (captureSelected render_ok encode_ok).
Proof.
  intros s. unfold captureSelected.
  destruct (selectedObject s) as [[a|a]|]; try apply sameSelection_refl.
  apply keeps_capture.
Qed.

Lemma keeps_on_selected_camera (f : CinemaCamera.t -> CinemaCamera.t) :
  (forall c, CinemaCamera.isSelected (f c) = CinemaCamera.isSelected c
             /\ CinemaCamera.id (f c) = CinemaCamera.id c) ->
  keeps sameSelection (on_selected_camera f).
Proof.
  intros Hf s. unfold on_selected_camera.
  destruct (selectedObject s) as [[a|a]|]; try apply sameSelection_refl.
  destruct (cameras s !! a) as [c|] eqn:E; [|apply sameSelection_refl].
  simpl. apply (sameSelection_camera_update s a c); [exact E|apply Hf..].
Qed.

Lemma keeps_animate (main_ok preview_ok : bool) :
  keeps sameSelection (animate main_ok preview_ok).
Proof.
  unfold animate. keeps_step; [apply keeps_render|].
  intros s. destruct (cameraPreviewRenderer s); [|apply sameSelection_refl].
  destruct (cameraToRender s); [|apply sameSelection_refl].
  apply keeps_renderCameraPreview.
Qed.

(** ** The ordered map *)

Section OrderedMapFacts.
Context {V : Type}.

Lemma in_set (k k' : string) (v v' : V) (l : list (string * V)) :
  In (k', v') (JS.set k v l) -> (k' = k /\ v' = v) \/ In (k', v') l.
Proof.
  induction l as [|[k0 v0] l IH]; simpl.
  - intros [[= <- <-]|[]]. by left.
  - destruct (String.eqb k0 k) eqn:E.
    + apply String.eqb_eq in E as ->.
      intros [[= <- <-]|H]; [by left|right; by right].
    + intros [[= <- <-]|H]; [right; by left|].
      destruct (IH H) as [?|?]; [by left|right; by right].
Qed.

Lemma in_keys_set (k k' : string) (v : V) (l : list (string * V)) :
  In k' (JS.keys (JS.set k v l)) -> k' = k \/ In k' (JS.keys l).
Proof.
  unfold JS.keys. intros H. apply in_map_iff in H as ([k0 v0] & <- & H).
  apply in_set in H as [[-> _]|H]; [by left|right].
  apply in_map_iff. by exists (k0, v0).
Qed.

Lemma NoDup_keys_set (k : string) (v : V) (l : list (string * V)) :
  List.NoDup (JS.keys l) -> List.NoDup (JS.keys (JS.set k v l)).
Proof.
  unfold JS.keys. induction l as [|[k0 v0] l IH]; simpl; intros H.
  - apply List.NoDup_cons; [intros []|apply List.NoDup_nil].
  - apply List.NoDup_cons_iff in H as [Hn H].
    destruct (String.eqb k0 k) eqn:E; simpl.
    + apply List.NoDup_cons_iff. by split.
    + apply List.NoDup_cons_iff. split; [|by apply IH].
      intros Hin. apply (in_keys_set k k0 v l) in Hin as [->|Hin]; [|by apply Hn].
      by rewrite String.eqb_refl in E.
Qed.

Lemma in_values_set (k : string) (v v' : V) (l : list (string * V)) :
  In v' (JS.values (JS.set k v l)) -> v' = v \/ In v' (JS.values l).
Proof.
  unfold JS.values. intros H. apply in_map_iff in H as ([k0 v0] & <- & H).
  apply in_set in H as [[_ ->]|H]; [by left|right].
  apply in_map_iff. by exists (k0, v0).
Qed.

Lemma in_delete (k k' : string) (v' : V) (l : list (string * V)) :
  In (k', v') (JS.delete k l) <-> In (k', v') l /\ k' <> k.
Proof.
  unfold JS.delete. rewrite filter_In. simpl.
  rewrite negb_true_iff, String.eqb_neq. reflexivity.
Qed.

Lemma NoDup_keys_delete (k : string) (l : list (string * V)) :
  List.NoDup (JS.keys l) -> List.NoDup (JS.keys (JS.delete k l)).
Proof.
  unfold JS.keys, JS.delete. induction l as [|[k0 v0] l IH]; simpl; intros H.
  - apply List.NoDup_nil.
  - apply List.NoDup_cons_iff in H as [Hn H].
    destruct (negb (String.eqb k0 k)); simpl; [|by apply IH].
    apply List.NoDup_cons_iff. split; [|by apply IH].
    intros Hin. apply Hn. apply in_map_iff in Hin as ([k1 v1] & <- & Hin).
    apply filter_In in Hin as [Hin _]. apply in_map_iff. by exists (k1, v1).
Qed.

Lemma in_values (v : V) (l : list (string * V)) :
  In v (JS.values l) <-> exists k, In (k, v) l.
Proof.
  unfold JS.values. rewrite in_map_iff. split.
  - intros ([k v0] & <- & H). by exists k.
  - intros (k & H). by exists (k, v).
Qed.

End OrderedMapFacts.

Lemma NoDup_values_keyed {V E : Type} (l : list (string * V))
    (heap : V -> option E) (id : E -> string) :
  List.NoDup (JS.keys l) ->
  (forall k a, In (k, a) l -> exists e, heap a = Some e /\ id e = k) ->
  List.NoDup (JS.values l).
Proof.
  unfold JS.keys, JS.values. induction l as [|[k a] l IH]; simpl; intros Hn Hk.
  - apply List.NoDup_nil.
  - apply List.NoDup_cons_iff in Hn as [Hnk Hn]. apply List.NoDup_cons_iff. split.
    + intros Hin. apply in_map_iff in Hin as ([k' a'] & Ea & Hin). simpl in Ea; subst a'.
      destruct (Hk k a (or_introl eq_refl)) as (e & He & Hid).
      destruct (Hk k' a (or_intror Hin)) as (e' & He' & Hid').
      assert (k' = k) as -> by congruence.
      apply Hnk. apply in_map_iff. by exists (k, a).
    + apply IH; [exact Hn|]. intros k' a' Hin. apply Hk. by right.
Qed.

Lemma invariant_camerasTracked (s : t) : invariant s -> camerasTracked s.
Proof.
  intros ((_ & N & _ & K) & _). split.
  - exact (NoDup_values_keyed (cinemaCameras s) (fun a => cameras s !! a)
             CinemaCamera.id N K).
  - intros a Hin. apply in_values in Hin as (k & Hin).
    destruct (K k a Hin) as (c & Hc & _). by exists c.
Qed.

(** ** Selecting and deselecting one entity *)

Lemma Ref_eqb_eq (x y : Ref) : Ref_eqb x y = true <-> x = y.
Proof.
  destruct x, y; simpl; rewrite ?Pos.eqb_eq; split; congruence.
Qed.

Lemma SceneObject_deselect_flags (o : SceneObject.t) (w : World) :
  let '(_, o', _) := SceneObject.deselect o w in
  SceneObject.isSelected o' = false /\ SceneObject.id o' = SceneObject.id o.
Proof.
  unfold SceneObject.deselect. destruct (SceneObject.isSelected o) eqn:E.
  - destruct (SceneObject.traverse_try _ _ _). by split.
  - by split.
Qed.

Lemma SceneObject_select_flags (o : SceneObject.t) (w : World) :
  SceneObject.id (fst (SceneObject.select o w)) = SceneObject.id o.
Proof. unfold SceneObject.select. by destruct (SceneObject.isSelected o). Qed.

Lemma CinemaCamera_deselect_flags (c : CinemaCamera.t) :
  CinemaCamera.isSelected (CinemaCamera.deselect c) = false
  /\ CinemaCamera.id (CinemaCamera.deselect c) = CinemaCamera.id c.
Proof. unfold CinemaCamera.deselect. by destruct (CinemaCamera.isSelected c) eqn:E. Qed.

Lemma CinemaCamera_select_flags (c : CinemaCamera.t) :
  CinemaCamera.id (CinemaCamera.select c) = CinemaCamera.id c.
Proof. unfold CinemaCamera.select. by destruct (CinemaCamera.isSelected c). Qed.

(** What one entity update leaves alone. *)
Lemma object_update_effect (s : t) (a : Addr) (o o' : SceneObject.t) (f : World -> World) :
  objects s !! a = Some o ->
  SceneObject.id o' = SceneObject.id o ->
  let s' := set_world f (set_objects (insert a o') s) in
  sameEntities s s'
  /\ selectedObject s' = selectedObject s
  /\ isSelected s' (RefObject a) = SceneObject.isSelected o'
  /\ forall r, r <> RefObject a -> isSelected s' r = isSelected s r.
Proof.
  intros Ho Hid. cbn. split; [|split; [reflexivity|split]].
  - split; [reflexivity|]. split; [reflexivity|]. split; [|reflexivity].
    intros a'. cbn. destruct (decide (a = a')) as [->|Hne].
    + rewrite lookup_insert_eq, Ho. simpl. by rewrite Hid.
    + by rewrite lookup_insert_ne.
  - by rewrite lookup_insert_eq.
  - intros [a'|a'] Hne; cbn; [|reflexivity].
    rewrite lookup_insert_ne; [reflexivity|congruence].
Qed.

Lemma camera_update_effect (s : t) (a : Addr) (c c' : CinemaCamera.t) :
  cameras s !! a = Some c ->
  CinemaCamera.id c' = CinemaCamera.id c ->
  let s' := set_cameras (insert a c') s in
  sameEntities s s'
  /\ selectedObject s' = selectedObject s
  /\ isSelected s' (RefCamera a) = CinemaCamera.isSelected c'
  /\ forall r, r <> RefCamera a -> isSelected s' r = isSelected s r.
Proof.
  intros Hc Hid. cbn. split; [|split; [reflexivity|split]].
  - split; [reflexivity|]. split; [reflexivity|]. split; [reflexivity|].
    intros a'. cbn. destruct (decide (a = a')) as [->|Hne].
    + rewrite lookup_insert_eq, Hc. simpl. by rewrite Hid.
    + by rewrite lookup_insert_ne.
  - by rewrite lookup_insert_eq.
  - intros [a'|a'] Hne; cbn; [reflexivity|].
    rewrite lookup_insert_ne; [reflexivity|congruence].
Qed.

Lemma deselect_effect (r : Ref) (s : t) :
  let s' := snd (deselect r s) in
  sameEntities s s'
  /\ selectedObject s' = selectedObject s
  /\ isSelected s' r = false
  /\ forall r', r' <> r -> isSelected s' r' = isSelected s r'.
Proof.
  destruct r as [a|a]; unfold deselect.
  - destruct (objects s !! a) as [o|] eqn:Ho.
    + pose proof (SceneObject_deselect_flags o (world s)) as F.
      destruct (SceneObject.deselect o (world s)) as [[res o'] w'].
      destruct F as [F1 F2]. cbn [snd].
      destruct (object_update_effect s a o o' (fun _ => w') Ho F2) as (A & B & C & D).
      split; [exact A|]. split; [exact B|]. split; [congruence|exact D].
    + cbn [snd]. split; [apply sameEntities_refl|]. split; [reflexivity|].
      split; [|reflexivity]. cbn. by rewrite Ho.
  - destruct (cameras s !! a) as [c|] eqn:Hc.
    + destruct (CinemaCamera_deselect_flags c) as [F1 F2]. cbn [snd].
      destruct (camera_update_effect s a c _ Hc F2) as (A & B & C & D).
      split; [exact A|]. split; [exact B|]. split; [congruence|exact D].
    + cbn [snd]. split; [apply sameEntities_refl|]. split; [reflexivity|].
      split; [|reflexivity]. cbn. by rewrite Hc.
Qed.

Lemma select_effect (r : Ref) (s : t) :
  let s' := snd (select r s) in
  sameEntities s s'
  /\ selectedObject s' = selectedObject s
  /\ forall r', r' <> r -> isSelected s' r' = isSelected s r'.
Proof.
  destruct r as [a|a]; unfold select.
  - destruct (objects s !! a) as [o|] eqn:Ho.
    + pose proof (SceneObject_select_flags o (world s)) as F.
      destruct (SceneObject.select o (world s)) as [o' w']. cbn [snd fst] in *.
      destruct (object_update_effect s a o o' (fun _ => w') Ho F) as (A & B & C & D).
      split; [exact A|]. split; [exact B|exact D].
    + cbn [snd]. split; [apply sameEntities_refl|]. by split.
  - destruct (cameras s !! a) as [c|] eqn:Hc.
    + cbn [snd].
      destruct (camera_update_effect s a c _ Hc (CinemaCamera_select_flags c))
        as (A & B & C & D).
      split; [exact A|]. split; [exact B|exact D].
    + cbn [snd]. split; [apply sameEntities_refl|]. by split.
Qed.

Lemma noneSelected_invariant (s : t) : keyedById s -> noneSelected s -> invariant s.
Proof.
  intros K N. split; [exact K|]. intros r T H. rewrite (N r T) in H. discriminate.
Qed.

(** After the entity in the slot has been deselected nothing is selected. *)
Lemma deselect_slot_noneSelected (s : t) (prev : Ref) :
  invariant s -> selectedObject s = Some prev ->
  let s' := snd (deselect prev s) in
  keyedById s' /\ noneSelected s' /\ sameEntities s s'.
Proof.
  intros (K & S) Hsel. cbn zeta.
  destruct (deselect_effect prev s) as (E & _ & Hp & Ho).
  split; [by eapply keyedById_sameEntities|]. split; [|exact E].
  intros r T. destruct (decide (r = prev)) as [->|Hne]; [exact Hp|].
  rewrite (Ho r Hne). destruct (isSelected s r) eqn:Hr; [|reflexivity].
  apply (tracked_sameEntities s _ r E) in T.
  pose proof (S r T Hr). congruence.
Qed.

Lemma empty_slot_noneSelected (s : t) :
  invariant s -> selectedObject s = None -> noneSelected s.
Proof.
  intros (_ & S) Hsel r T. destruct (isSelected s r) eqn:H; [|reflexivity].
  pose proof (S r T H). congruence.
Qed.

Lemma noneSelected_set_slot (s : t) (v : option Ref) :
  keyedById s -> noneSelected s ->
  keyedById (set_selectedObject v s) /\ noneSelected (set_selectedObject v s).
Proof.
  intros K N. split; [exact K|].
  intros [a|a] T; [exact (N (RefObject a) T)|exact (N (RefCamera a) T)].
Qed.

(** Selecting the entity whose reference is in the slot, when nothing else is
    selected, gives a state of the invariant. *)
Lemma select_slot_invariant (s : t) (obj : Ref) :
  keyedById s -> noneSelected s -> selectedObject s = Some obj ->
  invariant (snd (select obj s)).
Proof.
  intros K N Hsel. destruct (select_effect obj s) as (E & Hs & Ho).
  split; [by eapply keyedById_sameEntities|].
  intros r T Hr. rewrite Hs, Hsel.
  destruct (decide (r = obj)) as [->|Hne]; [reflexivity|].
  rewrite (Ho r Hne) in Hr.
  apply (tracked_sameEntities s _ r E) in T. rewrite (N r T) in Hr. discriminate.
Qed.

Lemma invariant_keeps {A : Type} (m : M A) (s : t) :
  keeps sameSelection m -> invariant s -> invariant (snd (m s)).
Proof. intros Hm. apply invariant_sameSelection, Hm. Qed.

(** The tail of [selectObject]: gizmo, panels and preview. *)
Lemma keeps_selectObject_tail (render_ok : bool) (obj : Ref) :
  keeps sameSelection
    ((match obj with
      | RefObject a =>
          fun s1 =>
            match objects s1 !! a with
            | Some o =>
                (attach (AttachedMesh (Node.uuid (root (SceneObject.mesh o)))) ;;
                 setMode translate ;;
                 showModelControls) s1
            | None => (JS.Throw "TypeError: object is undefined", s1)
            end
      | RefCamera a =>
          attach (AttachedGroup a) ;;
          setMode translate ;;
          showCameraControls ;;
          showCameraPreview render_ok
      end) ;;
     updateTransformSpace).
Proof.
  keeps_step; [|apply keeps_updateTransformSpace].
  destruct obj as [a|a].
  - intros s1. destruct (objects s1 !! a); [|apply sameSelection_refl].
    apply (keeps_bind sameSelection sameSelection_trans); [apply keeps_attach|intros _].
    apply (keeps_bind sameSelection sameSelection_trans); [apply keeps_setMode|intros _].
    apply keeps_showModelControls.
  - keeps_step; [apply keeps_attach|].
    keeps_step; [apply keeps_setMode|].
    keeps_step; [apply keeps_showCameraControls|apply keeps_showCameraPreview].
Qed.

Lemma invariant_selectObject (render_ok : bool) (obj : Ref) (s : t) :
  invariant s -> invariant (snd (selectObject render_ok obj s)).
Proof.
  intros I. unfold selectObject.
  destruct (is_selected s obj); [exact I|].
  unfold bind at 1.
  assert (H1 : let s1 := snd ((match selectedObject s with
                               | Some prev => deselect prev
                               | None => ret tt
                               end) s) in
               keyedById s1 /\ noneSelected s1).
  { destruct (selectedObject s) as [prev|] eqn:Hsel; cbn zeta.
    - destruct (deselect_slot_noneSelected s prev I Hsel) as (K & N & _). by split.
    - split; [apply I|by apply empty_slot_noneSelected]. }
  destruct ((match selectedObject s with
             | Some prev => deselect prev
             | None => ret tt
             end) s) as [[[]|e] s1]; cbn [snd] in *;
    [|apply noneSelected_invariant; apply H1].
  destruct H1 as [K1 N1].
  unfold bind at 1. cbn [modify].
  destruct (noneSelected_set_slot s1 (Some obj) K1 N1) as [K2 N2].
  unfold bind at 1.
  pose proof (select_slot_invariant (set_selectedObject (Some obj) s1) obj K2 N2 eq_refl)
    as I3.
  destruct (select obj (set_selectedObject (Some obj) s1)) as [[[]|e] s3];
    cbn [snd] in *; [|exact I3].
  apply (invariant_keeps _ s3 (keeps_selectObject_tail render_ok obj) I3).
Qed.

Lemma invariant_deselectAll (s : t) : invariant s -> invariant (snd (deselectAll s)).
Proof.
  intros I. unfold deselectAll. unfold bind at 1.
  assert (H1 : invariant (snd ((fun s =>
                 match selectedObject s with
                 | Some cur => (deselect cur ;; modify (set_selectedObject None)) s
                 | None => (JS.Normal tt, s)
                 end) s))).
  { cbv beta. destruct (selectedObject s) as [cur|] eqn:Hsel; [|exact I].
    unfold bind. destruct (deselect_slot_noneSelected s cur I Hsel) as (K & N & _).
    destruct (deselect cur s) as [[[]|e] s1]; cbn [snd] in *.
    - apply noneSelected_invariant; by apply noneSelected_set_slot.
    - by apply noneSelected_invariant. }
  cbv beta in H1.
  destruct (match selectedObject s with
            | Some cur => (deselect cur ;; modify (set_selectedObject None)) s
            | None => (JS.Normal tt, s)
            end) as [[[]|e] s1]; cbn [snd] in *; [|exact H1].
  apply (invariant_keeps (detach ;; hideAllControlPanels) s1); [|exact H1].
  keeps_step; [apply keeps_detach|apply keeps_hideAllControlPanels].
Qed.

Lemma invariant_onMouseClick (render_ok : bool) (h : Hit) (s : t) :
  invariant s -> invariant (snd (onMouseClick render_ok h s)).
Proof.
  intros I. unfold onMouseClick. destruct (targetObject s h).
  - by apply invariant_selectObject.
  - by apply invariant_deselectAll.
Qed.

(** Removing the entity of the slot from its collection and clearing the
    slot. *)
Lemma invariant_after_delete_object (s s' : t) (a : Addr) (o : SceneObject.t) :
  invariant s -> selectedObject s = Some (RefObject a) ->
  objects s !! a = Some o ->
  objects s' = objects s -> cameras s' = cameras s ->
  cinemaCameras s' = cinemaCameras s ->
  sceneObjects s' = JS.delete (SceneObject.id o) (sceneObjects s) ->
  selectedObject s' = None ->
  invariant s'.
Proof.
  intros ((N1 & N2 & K1 & K2) & S) Hsel Ho Eo Ec Ecc Eso Es'.
  assert (K' : keyedById s').
  { unfold keyedById. rewrite Eso, Ecc, Eo, Ec.
    split; [by apply NoDup_keys_delete|]. split; [exact N2|]. split; [|exact K2].
    intros k a' Hin. apply in_delete in Hin as [Hin _]. by apply K1. }
  apply noneSelected_invariant; [exact K'|].
  intros [a'|a'] T; cbn in *.
  - rewrite Eo. destruct (objects s !! a') as [o'|] eqn:Ho'; [|reflexivity].
    destruct (SceneObject.isSelected o') eqn:Hs'; [|reflexivity]. exfalso.
    rewrite Eso in T. apply in_values in T as (k & Hin).
    apply in_delete in Hin as [Hin Hk].
    assert (Hr : selectedObject s = Some (RefObject a')).
    { apply S; cbn; [apply in_values; by exists k|by rewrite Ho']. }
    assert (a' = a) as -> by congruence.
    destruct (K1 k a Hin) as (o0 & Ho0 & Hid). congruence.
  - rewrite Ec. destruct (cameras s !! a') as [c'|] eqn:Hc'; [|reflexivity].
    destruct (CinemaCamera.isSelected c') eqn:Hs'; [|reflexivity]. exfalso.
    rewrite Ecc in T.
    assert (Hr : selectedObject s = Some (RefCamera a')).
    { apply S; cbn; [exact T|by rewrite Hc']. }
    congruence.
Qed.

Lemma invariant_after_delete_camera (s s' : t) (a : Addr) (c : CinemaCamera.t) :
  invariant s -> selectedObject s = Some (RefCamera a) ->
  cameras s !! a = Some c ->
  objects s' = objects s -> cameras s' = cameras s ->
  sceneObjects s' = sceneObjects s ->
  cinemaCameras s' = JS.delete (CinemaCamera.id c) (cinemaCameras s) ->
  selectedObject s' = None ->
  invariant s'.
Proof.
  intros ((N1 & N2 & K1 & K2) & S) Hsel Hc Eo Ec Eso Ecc Es'.
  assert (K' : keyedById s').
  { unfold keyedById. rewrite Eso, Ecc, Eo, Ec.
    split; [exact N1|]. split; [by apply NoDup_keys_delete|]. split; [exact K1|].
    intros k a' Hin. apply in_delete in Hin as [Hin _]. by apply K2. }
  apply noneSelected_invariant; [exact K'|].
  intros [a'|a'] T; cbn in *.
  - rewrite Eo. destruct (objects s !! a') as [o'|] eqn:Ho'; [|reflexivity].
    destruct (SceneObject.isSelected o') eqn:Hs'; [|reflexivity]. exfalso.
    rewrite Eso in T.
    assert (Hr : selectedObject s = Some (RefObject a')).
    { apply S; cbn; [exact T|by rewrite Ho']. }
    congruence.
  - rewrite Ec. destruct (cameras s !! a') as [c'|] eqn:Hc'; [|reflexivity].
    destruct (CinemaCamera.isSelected c') eqn:Hs'; [|reflexivity]. exfalso.
    rewrite Ecc in T. apply in_values in T as (k & Hin).
    apply in_delete in Hin as [Hin Hk].
    assert (Hr : selectedObject s = Some (RefCamera a')).
    { apply S; cbn; [apply in_values; by exists k|by rewrite Hc']. }
    assert (a' = a) as -> by congruence.
    destruct (K2 k a Hin) as (c0 & Hc0 & Hid). congruence.
Qed.

Lemma unpin_fields (s : t) :
  let s' := snd (unpinCameraPreview s) in
  objects s' = objects s /\ cameras s' = cameras s
  /\ sceneObjects s' = sceneObjects s /\ cinemaCameras s' = cinemaCameras s
  /\ selectedObject s' = selectedObject s.
Proof.
  unfold unpinCameraPreview. destruct (pinnedCamera s) as [p|]; [|by repeat split].
  unfold bind, modify, show_camera_viewport, ret.
  destruct (selectedObject s) as [[a|a]|] eqn:E; cbn; by repeat split.
Qed.

Lemma invariant_deleteSelectedObject (s : t) :
  invariant s -> invariant (snd (deleteSelectedObject s)).
Proof.
  intros I. unfold deleteSelectedObject.
  destruct (selectedObject s) as [[a|a]|] eqn:Hsel; [| |exact I].
  - unfold bind at 1.
    destruct (objects s !! a) as [o|] eqn:Ho; [|exact I].
    cbn [snd bind modify detach hideAllControlPanels].
    eapply (invariant_after_delete_object s _ a o I Hsel Ho); reflexivity.
  - unfold bind at 1. unfold bind at 1.
    pose proof (unpin_fields s) as U.
    assert (H1 : exists c1 s1,
               (fun s1 => match pinnedCamera s1 with
                          | Some p => if Pos.eqb p a then unpinCameraPreview s1
                                      else (JS.Normal tt, s1)
                          | None => (JS.Normal tt, s1)
                          end) s = (JS.Normal c1, s1)
               /\ objects s1 = objects s /\ cameras s1 = cameras s
               /\ sceneObjects s1 = sceneObjects s /\ cinemaCameras s1 = cinemaCameras s
               /\ selectedObject s1 = selectedObject s).
    { cbv beta. destruct (pinnedCamera s) as [p|] eqn:Hp;
        [|exists tt, s; by repeat split].
      destruct (Pos.eqb p a); [|exists tt, s; by repeat split].
      exists tt, (snd (unpinCameraPreview s)). split; [|exact U].
      unfold unpinCameraPreview. rewrite Hp.
      unfold bind, modify, show_camera_viewport, ret.
      by destruct (selectedObject s) as [[?|?]|]. }
    destruct H1 as (c1 & s1 & -> & Eo & Ec & Eso & Ecc & Es1).
    destruct (cameras s1 !! a) as [c|] eqn:Hc.
    + cbn [snd bind modify detach hideAllControlPanels].
      rewrite Ec in Hc.
      eapply (invariant_after_delete_camera s _ a c I Hsel Hc); cbn;
        rewrite ?Ecc; solve [assumption|reflexivity].
    + cbn [snd]. apply (invariant_sameSelection s s1); [|exact I].
      split; [|split; [exact Es1|]].
      * split; [exact Eso|]. split; [exact Ecc|]. split; intros a'; by rewrite ?Eo, ?Ec.
      * intros [a'|a']; cbn; by rewrite ?Eo, ?Ec.
Qed.

Lemma fresh_not_allocated {E : Type} (heap : gmap Addr E) :
  heap !! fresh (dom heap) = None.
Proof. apply not_elem_of_dom, is_fresh. Qed.

Lemma invariant_createCinemaCamera (uid : string) (s : t) :
  invariant s -> invariant (snd (createCinemaCamera uid s)).
Proof.
  intros ((N1 & N2 & K1 & K2) & S). unfold createCinemaCamera. cbn [snd].
  set (a := fresh (dom (cameras s))).
  set (camera := CinemaCamera.new _ uid).
  assert (Hfresh : cameras s !! a = None) by apply fresh_not_allocated.
  split.
  - unfold keyedById; cbn.
    split; [exact N1|]. split; [by apply NoDup_keys_set|]. split; [exact K1|].
    intros k a' Hin. apply in_set in Hin as [[-> ->]|Hin].
    + exists camera. by rewrite lookup_insert_eq.
    + destruct (K2 k a' Hin) as (c & Hc & Hid). exists c. split; [|exact Hid].
      rewrite lookup_insert_ne; [exact Hc|]. intros <-. congruence.
  - intros [a'|a'] T Hr; cbn in *.
    + by apply (S (RefObject a')).
    + destruct (decide (a = a')) as [<-|Hne].
      * rewrite lookup_insert_eq in Hr. discriminate.
      * rewrite lookup_insert_ne in Hr by assumption.
        apply in_values_set in T as [->|T]; [congruence|].
        by apply (S (RefCamera a')).
Qed.

Lemma invariant_loadGLTFModel (gltf : option Object3D) (name uid : string) (s : t) :
  invariant s -> invariant (snd (loadGLTFModel gltf name uid s)).
Proof.
  intros I. unfold loadGLTFModel. destruct gltf as [scene_|]; cbn [snd].
  2:{ apply (invariant_sameSelection s); [same_fields|exact I]. }
  destruct I as ((N1 & N2 & K1 & K2) & S).
  set (s1 := set_world _ s).
  set (a := fresh (dom (objects s1))).
  set (sceneObject := SceneObject.new _ _ name uid).
  assert (Hfresh : objects s !! a = None) by apply fresh_not_allocated.
  split.
  - unfold keyedById; cbn.
    split; [by apply NoDup_keys_set|]. split; [exact N2|]. split; [|exact K2].
    intros k a' Hin. apply in_set in Hin as [[-> ->]|Hin].
    + exists sceneObject. by rewrite lookup_insert_eq.
    + destruct (K1 k a' Hin) as (o & Ho & Hid). exists o. split; [|exact Hid].
      rewrite lookup_insert_ne; [exact Ho|]. intros <-. congruence.
  - intros [a'|a'] T Hr; cbn in *.
    + destruct (decide (a = a')) as [<-|Hne].
      * rewrite lookup_insert_eq in Hr. discriminate.
      * rewrite lookup_insert_ne in Hr by assumption.
        apply in_values_set in T as [->|T]; [congruence|].
        by apply (S (RefObject a')).
    + by apply (S (RefCamera a')).
Qed.

Lemma invariant_init (materials : Mats) (textures : gmap TexId Texture.t) :
  invariant (init materials textures).
Proof.
  split.
  - unfold keyedById; cbn. repeat split; try apply List.NoDup_nil; intros ? ? [].
  - intros [a|a] [].
Qed.

Lemma setFocalLength_flags (v : float) (c : CinemaCamera.t) :
  CinemaCamera.isSelected (CinemaCamera.setFocalLength v c) = CinemaCamera.isSelected c
  /\ CinemaCamera.id (CinemaCamera.setFocalLength v c) = CinemaCamera.id c.
Proof. by split. Qed.

Lemma setSensorSize_flags (v : float) (c : CinemaCamera.t) :
  CinemaCamera.isSelected (CinemaCamera.setSensorSize v c) = CinemaCamera.isSelected c
  /\ CinemaCamera.id (CinemaCamera.setSensorSize v c) = CinemaCamera.id c.
Proof. by split. Qed.

Lemma keeps_keyMode (m : Mode) : keeps sameSelection (keyMode m).
Proof.
  intros s. unfold keyMode.
  destruct (selectedObject s) as [[a|a]|]; destruct m;
    first [apply keeps_setMode|apply sameSelection_refl].
Qed.

Lemma keeps_chooseTransformSpace (sp : Space) :
  keeps sameSelection (chooseTransformSpace sp).
Proof.
  unfold chooseTransformSpace. keeps_step; [keeps_step|apply keeps_updateTransformSpace].
Qed.

Lemma keeps_keyToggleSpace : keeps sameSelection keyToggleSpace.
Proof.
  intros s. unfold keyToggleSpace, toggleTransformSpace.
  destruct (selectedObject s); [|apply sameSelection_refl].
  apply keeps_chooseTransformSpace.
Qed.

Lemma keeps_renderFullscreen (render_ok : bool) :
  keeps sameSelection (renderFullscreen render_ok).
Proof.
  intros s. unfold renderFullscreen.
  destruct (isFullscreen s); [|apply sameSelection_refl].
  destruct (selectedObject s) as [[a|a]|]; try apply sameSelection_refl.
  apply (keeps_bind sameSelection sameSelection_trans).
  - apply (keeps_forEach sameSelection sameSelection_refl sameSelection_trans).
    intros a'. keeps_step; [apply keeps_hideCamera|keeps_step].
  - intros _. keeps_step; [apply keeps_set_gizmo_visible|apply keeps_render].
Qed.

Lemma keeps_enterFullscreen (render_ok : bool) :
  keeps sameSelection (enterFullscreen render_ok).
Proof.
  intros s. unfold enterFullscreen.
  destruct (selectedObject s) as [[a|a]|]; try apply sameSelection_refl.
  apply (keeps_bind sameSelection sameSelection_trans); [keeps_step|intros _].
  apply (keeps_bind sameSelection sameSelection_trans); [keeps_step|intros _].
  apply keeps_renderFullscreen.
Qed.

Lemma keeps_exitFullscreen : keeps sameSelection exitFullscreen.
Proof.
  intros s. unfold exitFullscreen.
  destruct (isFullscreen s); [|apply sameSelection_refl].
  apply (keeps_bind sameSelection sameSelection_trans); [keeps_step|intros _].
  destruct (selectedObject s) as [[a|a]|]; [keeps_step| |keeps_step].
  keeps_step; [keeps_step|]. keeps_step; [|apply keeps_set_gizmo_visible].
  intros s1. destruct (cameras s1 !! a) as [c|] eqn:E; simpl; [|apply sameSelection_refl].
  by apply (sameSelection_camera_update s1 a c).
Qed.

Lemma invariant_loadPropFromLibrary (prop : option string) (gltf : option Object3D)
    (uid : string) (s : t) :
  invariant s -> invariant (snd (loadPropFromLibrary prop gltf uid s)).
Proof.
  intros I. unfold loadPropFromLibrary.
  destruct prop as [displayName|]; [destruct gltf as [scene_|]|].
  - by apply invariant_loadGLTFModel.
  - apply (invariant_sameSelection s); [same_fields|exact I].
  - apply (invariant_sameSelection s); [same_fields|exact I].
Qed.

Lemma invariant_step (e : Event) (s : t) : invariant s -> invariant (step e s).
Proof.
  intros I. unfold step, exec. destruct e; cbn [handle].
  - by apply invariant_keeps; [apply keeps_initializeStudioManager|].
  - by apply invariant_keeps; [apply keeps_onStudioChange|].
  - by apply invariant_keeps; [apply keeps_on_screen|].
  - by apply invariant_keeps; [apply keeps_on_screen|].
  - by apply invariant_keeps; [apply keeps_on_screen|].
  - unfold bind. pose proof (invariant_createCinemaCamera uid s I) as H.
    by destruct (createCinemaCamera uid s) as [[a|e] s1].
  - by apply invariant_loadGLTFModel.
  - by apply invariant_onMouseClick.
  - by apply invariant_selectObject.
  - by apply invariant_deselectAll.
  - by apply invariant_deleteSelectedObject.
  - by apply invariant_keeps; [apply keeps_togglePinCameraPreview|].
  - by apply invariant_keeps; [apply keeps_captureSelected|].
  - by apply invariant_keeps; [apply keeps_animate|].
  - by apply invariant_keeps;
      [apply keeps_on_selected_camera, setFocalLength_flags|].
  - by apply invariant_keeps;
      [apply keeps_on_selected_camera, setSensorSize_flags|].
  - by apply invariant_keeps; [apply keeps_keyMode|].
  - by apply invariant_keeps; [apply keeps_chooseTransformSpace|].
  - by apply invariant_keeps; [apply keeps_keyToggleSpace|].
  - by apply invariant_keeps; [apply keeps_enterFullscreen|].
  - unfold onFullscreenButton. destruct (isFullscreen s).
    + by apply invariant_keeps; [apply keeps_exitFullscreen|].
    + by apply invariant_keeps; [apply keeps_enterFullscreen|].
  - by apply invariant_keeps; [apply keeps_renderFullscreen|].
  - unfold onEscape. destruct (isFullscreen s).
    + by apply invariant_keeps; [apply keeps_exitFullscreen|].
    + by apply invariant_deselectAll.
  - by apply invariant_loadPropFromLibrary.
Qed.

Lemma reachable_invariant (s : t) : reachable s -> invariant s.
Proof.
  induction 1 as [materials textures|e s _ IH].
  - apply invariant_init.
  - by apply invariant_step.
Qed.

(** Claim C2: in every state the controller can reach, at most one entity of
    the two collections reports [isSelected = true]; [selectObject],
    [deselectAll] and [deleteSelectedObject] lead from a reachable state to a
    state with the same property, whether they return or throw. *)
Theorem at_most_one_entity_selected :
  forall s : t,
    reachable s ->
    atMostOneSelected s
    /\ (forall render_ok obj, atMostOneSelected (exec (selectObject render_ok obj) s))
    /\ atMostOneSelected (exec deselectAll s)
    /\ atMostOneSelected (exec deleteSelectedObject s).
Proof.
  intros s Hr. pose proof (reachable_invariant s Hr) as I.
  split; [by apply invariant_atMostOne|].
  split; [intros render_ok obj; by apply invariant_atMostOne, invariant_selectObject|].
  split; apply invariant_atMostOne;
    [by apply invariant_deselectAll|by apply invariant_deleteSelectedObject].
Qed.

(* --------------------------------------------------------------------- *)
(** ** Hiding and restoring the camera visuals *)

(** The two flags [hideCameraVisualsForCapture] remembers for a camera. *)
Definition visuals (c : CinemaCamera.t) : bool * bool :=
  (CinemaCamera.helper_visible c, CinemaCamera.mesh_visible c).

Definition hidden (c : CinemaCamera.t) : CinemaCamera.t :=
  CinemaCamera.set_mesh_visible false (CinemaCamera.set_helper_visible false c).

Definition shown (v : bool * bool) (c : CinemaCamera.t) : CinemaCamera.t :=
  CinemaCamera.set_mesh_visible (snd v) (CinemaCamera.set_helper_visible (fst v) c).

Definition visualsAt (s : t) (a : Addr) : option (bool * bool) :=
  visuals <$> cameras s !! a.

(** What an observer of the scene sees of the camera visuals and the gizmo. *)
Definition visualsKept (s s' : t) : Prop :=
  visible (transformControls s') = visible (transformControls s)
  /\ cinemaCameras s' = cinemaCameras s
  /\ forall a, In a (JS.values (cinemaCameras s)) -> visualsAt s' a = visualsAt s a.

Definition visualsHidden (s s' : t) : Prop :=
  visible (transformControls s') = false
  /\ cinemaCameras s' = cinemaCameras s
  /\ forall a, In a (JS.values (cinemaCameras s)) ->
       exists c, cameras s !! a = Some c /\ cameras s' !! a = Some (hidden c).

Lemma shown_hidden (c : CinemaCamera.t) : shown (visuals c) (hidden c) = c.
Proof. by destruct c. Qed.

Lemma set_cameras_same (s : t) : set_cameras (fun _ => cameras s) s = s.
Proof. by destruct s. Qed.

Definition flagsOf (s : t) (a : Addr) : bool * bool :=
  match cameras s !! a with
  | Some c => visuals c
  | None => (false, false)
  end.

Lemma hideCameras_spec (l : list Addr) :
  forall s : t,
    List.NoDup l ->
    (forall a, In a l -> is_Some (cameras s !! a)) ->
    exists cs,
      hideCameras l s = (JS.Normal (map (flagsOf s) l), set_cameras (fun _ => cs) s)
      /\ (forall a, In a l -> cs !! a = hidden <$> cameras s !! a)
      /\ (forall a, ~ In a l -> cs !! a = cameras s !! a).
Proof.
  induction l as [|a r IH]; intros s N A.
  - exists (cameras s). cbn. rewrite set_cameras_same. by repeat split.
  - apply List.NoDup_cons_iff in N as [Ha N].
    destruct (A a (or_introl eq_refl)) as [c Hc].
    set (s1 := set_cameras (insert a (hidden c)) s).
    destruct (IH s1 N) as (cs & E & In_ & Out).
    { intros a' Ha'. cbn. destruct (decide (a = a')) as [<-|Hne].
      - by rewrite lookup_insert_eq.
      - rewrite lookup_insert_ne by assumption. apply A. by right. }
    exists cs. split; [|split].
    + cbn [hideCameras]. unfold bind at 1. unfold hideCamera. rewrite Hc.
      change (set_cameras (insert a _) s) with s1.
      unfold bind at 1. rewrite E. unfold ret.
      f_equal. f_equal. cbn [map]. f_equal.
      * unfold flagsOf. by rewrite Hc.
      * apply map_ext_in. intros a' Ha'. unfold flagsOf, s1. cbn.
        rewrite lookup_insert_ne; [done|]. by intros <-.
    + intros a' [<-|Ha'].
      * rewrite (Out a Ha). unfold s1. cbn. by rewrite lookup_insert_eq, Hc.
      * rewrite (In_ a' Ha'). unfold s1. cbn.
        rewrite lookup_insert_ne; [done|]. by intros <-.
    + intros a' Ha'. rewrite Out by (intros H; apply Ha'; by right).
      unfold s1. cbn. rewrite lookup_insert_ne; [done|].
      intros <-. apply Ha'. by left.
Qed.

Lemma restoreCameras_spec (f : Addr -> bool * bool) (l : list Addr) :
  forall (pre : list (bool * bool)) (s : t),
    List.NoDup l ->
    (forall a, In a l -> is_Some (cameras s !! a)) ->
    exists cs,
      restoreCameras (pre ++ map f l) (length pre) l s
      = (JS.Normal tt, set_cameras (fun _ => cs) s)
      /\ (forall a, In a l -> cs !! a = shown (f a) <$> cameras s !! a)
      /\ (forall a, ~ In a l -> cs !! a = cameras s !! a).
Proof.
  induction l as [|a r IH]; intros pre s N A.
  - exists (cameras s). cbn. rewrite set_cameras_same. by repeat split.
  - apply List.NoDup_cons_iff in N as [Ha N].
    destruct (A a (or_introl eq_refl)) as [c Hc].
    set (s1 := set_cameras (insert a (shown (f a) c)) s).
    destruct (IH (pre ++ [f a]) s1 N) as (cs & E & In_ & Out).
    { intros a' Ha'. cbn. destruct (decide (a = a')) as [<-|Hne].
      - by rewrite lookup_insert_eq.
      - rewrite lookup_insert_ne by assumption. apply A. by right. }
    exists cs. split; [|split].
    + cbn [restoreCameras map]. unfold bind, restoreCamera.
      rewrite nth_error_app2 by lia. rewrite Nat.sub_diag. cbn [nth_error].
      destruct (f a) as [h m] eqn:Ef. rewrite Hc.
      replace (S (length pre)) with (length (pre ++ [(h, m)]))
        by (rewrite length_app; cbn; lia).
      replace (pre ++ (h, m) :: map f r) with ((pre ++ [(h, m)]) ++ map f r)
        by (by rewrite <- app_assoc).
      change (set_cameras (insert a _) s) with s1. exact E.
    + intros a' [<-|Ha'].
      * rewrite (Out a Ha). unfold s1. cbn. by rewrite lookup_insert_eq, Hc.
      * rewrite (In_ a' Ha'). unfold s1. cbn.
        rewrite lookup_insert_ne; [done|]. by intros <-.
    + intros a' Ha'. rewrite Out by (intros H; apply Ha'; by right).
      unfold s1. cbn. rewrite lookup_insert_ne; [done|].
      intros <-. apply Ha'. by left.
Qed.

Lemma round_trip_cameras (s : t) (l : list Addr) (cs1 cs2 : gmap Addr CinemaCamera.t) :
  (forall a, In a l -> cs1 !! a = hidden <$> cameras s !! a) ->
  (forall a, ~ In a l -> cs1 !! a = cameras s !! a) ->
  (forall a, In a l -> cs2 !! a = shown (flagsOf s a) <$> cs1 !! a) ->
  (forall a, ~ In a l -> cs2 !! a = cs1 !! a) ->
  cs2 = cameras s.
Proof.
  intros In1 Out1 In2 Out2. apply map_eq. intros a.
  destruct (in_dec Pos.eq_dec a l) as [Ha|Ha].
  - rewrite (In2 a Ha), (In1 a Ha). unfold flagsOf.
    destruct (cameras s !! a) as [c|]; [|done]. cbn. by rewrite shown_hidden.
  - by rewrite (Out2 a Ha), (Out1 a Ha).
Qed.

Lemma hidden_allocated (s : t) (l : list Addr) (cs : gmap Addr CinemaCamera.t) :
  (forall a, In a l -> is_Some (cameras s !! a)) ->
  (forall a, In a l -> cs !! a = hidden <$> cameras s !! a) ->
  forall a, In a l -> is_Some (cs !! a).
Proof.
  intros A H a Ha. rewrite (H a Ha). destruct (A a Ha) as [c ->]. by eexists.
Qed.

Lemma capture_completes (a : Addr) (c : CinemaCamera.t) (s : t) :
  camerasTracked s ->
  cameras s !! a = Some c ->
  In a (JS.values (cinemaCameras s)) ->
  capture true true a s
  = (JS.Normal tt,
     set_world (fun w => dispose RCaptureRenderer
                           (download (CinemaCamera.name c +:+ "_capture.png") w)) s).
Proof.
  intros [N A] Hc Ha.
  destruct (hideCameras_spec _ s N A) as (cs1 & E1 & In1 & Out1).
  unfold capture, hideCameraVisualsForCapture. unfold bind at 1. unfold bind at 1.
  rewrite E1.
  cbv [bind set_gizmo_visible modify ret render throw toDataURL
       restoreCameraVisualsAfterCapture].
  cbn [cameras set_cameras set_transformControls set_world cinemaCameras
       vis_cameras vis_transformControls transformControls visible].
  rewrite (In1 a Ha), Hc. cbn [fmap option_fmap option_map].
  change (cinemaCameras (set_world _ _)) with (cinemaCameras s).
  match goal with |- context [restoreCameras _ 0 _ ?x] => set (s4 := x) end.
  destruct (restoreCameras_spec (flagsOf s) _ [] s4 N) as (cs2 & E2 & In2 & Out2).
  { apply (hidden_allocated s); assumption. }
  cbn [app length] in E2. rewrite E2.
  rewrite (round_trip_cameras s _ cs1 cs2 In1 Out1 In2 Out2).
  unfold s4. destruct s as [? ? ? ? ? ? ? ? ? ? ? [? ? ? ?] ? ? ? ?]. reflexivity.
Qed.

Lemma visualsHidden_intro (s : t) (cs1 : gmap Addr CinemaCamera.t) (f : World -> World) :
  camerasTracked s ->
  (forall a, In a (JS.values (cinemaCameras s)) -> cs1 !! a = hidden <$> cameras s !! a) ->
  visualsHidden s
    (set_world f
       (set_transformControls
          (fun c => mkTransformControls false (object c) (mode c) (space c))
          (set_cameras (fun _ => cs1) s))).
Proof.
  intros [N A] In1. split; [done|]. split; [done|].
  intros a Ha. destruct (A a Ha) as [c Hc]. exists c. split; [exact Hc|].
  cbn. by rewrite (In1 a Ha), Hc.
Qed.

Lemma capture_fails (render_ok encode_ok : bool) (a : Addr) (s : t) :
  camerasTracked s ->
  In a (JS.values (cinemaCameras s)) ->
  render_ok && encode_ok = false ->
  exists what s',
    capture render_ok encode_ok a s = (JS.Throw what, s') /\ visualsHidden s s'.
Proof.
  intros T Ha Hfail. pose proof T as [N A].
  destruct (hideCameras_spec _ s N A) as (cs1 & E1 & In1 & Out1).
  destruct (A a Ha) as [c Hc].
  unfold capture, hideCameraVisualsForCapture. unfold bind at 1. unfold bind at 1.
  rewrite E1.
  cbv [bind set_gizmo_visible modify ret render throw toDataURL
       restoreCameraVisualsAfterCapture].
  cbn [cameras set_cameras set_transformControls set_world cinemaCameras
       vis_cameras vis_transformControls transformControls visible].
  destruct render_ok.
  - destruct encode_ok; [discriminate|].
    cbn [cameras set_cameras set_transformControls set_world].
    rewrite (In1 a Ha), Hc.
    cbn [fmap option_fmap option_map].
    eexists _, _. split; [reflexivity|].
    by apply (visualsHidden_intro s cs1 (fun w => w)).
  - eexists _, _. split; [reflexivity|].
    by apply (visualsHidden_intro s cs1 (fun w => w)).
Qed.

Lemma renderCameraPreview_completes (s : t) :
  camerasTracked s -> renderCameraPreview true s = (JS.Normal tt, s).
Proof.
  intros [N A]. unfold renderCameraPreview.
  destruct (cameraToRender s) as [a|]; [|done].
  destruct (cameraPreviewRenderer s); [|done].
  destruct (hideCameras_spec _ s N A) as (cs1 & E1 & In1 & Out1).
  unfold bind at 1. rewrite E1.
  cbv [bind set_gizmo_visible modify ret render throw].
  change (cinemaCameras (set_cameras _ _)) with (cinemaCameras s).
  match goal with |- context [restoreCameras _ 0 _ ?x] => set (s4 := x) end.
  destruct (restoreCameras_spec (flagsOf s) _ [] s4 N) as (cs2 & E2 & In2 & Out2).
  { apply (hidden_allocated s); assumption. }
  cbn [app length] in E2. rewrite E2.
  rewrite (round_trip_cameras s _ cs1 cs2 In1 Out1 In2 Out2).
  unfold s4. destruct s as [? ? ? ? ? ? ? ? ? ? ? [? ? ? ?] ? ? ? ?]. reflexivity.
Qed.

Lemma renderCameraPreview_fails (s : t) :
  camerasTracked s ->
  is_Some (cameraToRender s) ->
  cameraPreviewRenderer s = true ->
  exists what s',
    renderCameraPreview false s = (JS.Throw what, s') /\ visualsHidden s s'.
Proof.
  intros T [a Hcam] Hprev. pose proof T as [N A]. unfold renderCameraPreview.
  rewrite Hcam, Hprev.
  destruct (hideCameras_spec _ s N A) as (cs1 & E1 & In1 & Out1).
  unfold bind at 1. rewrite E1.
  cbv [bind set_gizmo_visible modify ret render throw].
  eexists _, _. split; [reflexivity|].
  by apply (visualsHidden_intro s cs1 (fun w => w)).
Qed.

Lemma reachable_camerasTracked (s : t) : reachable s -> camerasTracked s.
Proof. intros H. by apply invariant_camerasTracked, reachable_invariant. Qed.

(** A controller holding one camera, selected, with the gizmo on it. *)
Definition oneCameraSelected : t :=
  step (SelectObject true (RefCamera 1%positive))
    (step (AddCamera "cam-1") (init ∅ ∅)).

Lemma reachable_oneCameraSelected : reachable oneCameraSelected.
Proof. unfold oneCameraSelected. repeat constructor. Qed.

(** Claim C1 (amended): in every reachable state, for a camera of the
    collection, [capture] whose render and encode steps both complete returns
    with the gizmo's visibility and every camera's helper and proxy
    visibility as before the call, and likewise a camera-preview render that
    completes leaves the state as it was.  When the render or the encode step
    throws, the exception leaves [capture] (and the preview render) before
    the restore is run: the gizmo and the helper and proxy of every camera
    of the collection are left invisible. *)
Theorem capture_restores_visuals_when_it_completes :
  forall (s : t) (a : Addr),
    reachable s ->
    In a (JS.values (cinemaCameras s)) ->
    (exists s',
        capture true true a s = (JS.Normal tt, s')
        /\ visualsKept s s' /\ cameras s' = cameras s
        /\ transformControls s' = transformControls s)
    /\ (forall render_ok encode_ok,
          render_ok && encode_ok = false ->
          exists what s',
            capture render_ok encode_ok a s = (JS.Throw what, s')
            /\ visualsHidden s s')
    /\ renderCameraPreview true s = (JS.Normal tt, s)
    /\ (is_Some (cameraToRender s) ->
        cameraPreviewRenderer s = true ->
        exists what s',
          renderCameraPreview false s = (JS.Throw what, s')
          /\ visualsHidden s s').
Proof.
  intros s a Hr Ha. pose proof (reachable_camerasTracked s Hr) as T.
  split; [|split; [|split]].
  - destruct T as [N A]. destruct (A a Ha) as [c Hc].
    eexists. split; [by apply (capture_completes a c s)|].
    by repeat split.
  - intros render_ok encode_ok Hfail. by apply capture_fails.
  - by apply renderCameraPreview_completes.
  - intros Hcam Hprev. by apply renderCameraPreview_fails.
Qed.

Lemma capture_restores_visuals_when_it_completes_witness :
  reachable oneCameraSelected
  /\ In 1%positive (JS.values (cinemaCameras oneCameraSelected))
  /\ exists what s',
       capture false true 1%positive oneCameraSelected = (JS.Throw what, s')
       /\ visualsHidden oneCameraSelected s'.
Proof.
  split; [exact reachable_oneCameraSelected|].
  split; [vm_compute; by left|].
  assert (Ha : In 1%positive (JS.values (cinemaCameras oneCameraSelected)))
    by (vm_compute; by left).
  destruct (capture_restores_visuals_when_it_completes oneCameraSelected 1%positive
              reachable_oneCameraSelected Ha) as (_ & Fails & _).
  apply (Fails false true). reflexivity.
Defined.

(** Claim C1 as stated fails: with one camera selected (helper, proxy and
    gizmo visible), a [capture] whose render throws ends with the three of
    them invisible. *)
Lemma failed_render_leaves_camera_visuals_hidden :
  let s := oneCameraSelected in
  let s' := exec (capture false true 1%positive) s in
  reachable s
  /\ fst (capture false true 1%positive s) = JS.Throw "render failed"
  /\ visualsAt s 1%positive = Some (true, true)
  /\ visible (transformControls s) = true
  /\ visualsAt s' 1%positive = Some (false, false)
  /\ visible (transformControls s') = false
  /\ ~ visualsKept s s'.
Proof.
  cbv zeta. split; [exact reachable_oneCameraSelected|].
  repeat split; try (vm_compute; reflexivity).
  intros [H _]. vm_compute in H. discriminate.
Qed.

Lemma at_most_one_entity_selected_witness :
  reachable oneCameraSelected
  /\ isSelected oneCameraSelected (RefCamera 1%positive) = true
  /\ atMostOneSelected oneCameraSelected
  /\ atMostOneSelected (exec deleteSelectedObject oneCameraSelected).
Proof.
  split; [exact reachable_oneCameraSelected|].
  split; [vm_compute; reflexivity|].
  destruct (at_most_one_entity_selected oneCameraSelected reachable_oneCameraSelected)
    as (Now & _ & _ & Deleted).
  by split.
Defined.

(* --------------------------------------------------------------------- *)
(** ** Highlight of a placed object with an unlit material *)

(** The prop of [Example.prop], placed and selected. *)
Definition placedProp : SceneObject.t :=
  SceneObject.new Example.world0 Example.prop "prop" "id-1".

Definition emissiveOf (w : World) (m : MatId) : option (option Color * option float) :=
  (fun mat => (Material.emissive mat, Material.emissiveIntensity mat)) <$> mats w !! m.

(** Claim C5, at a model with an unlit material: [storeOriginalMaterials]
    caches a black colour for the decal, [select] skips it and highlights the
    body, and [deselect] throws at the decal, before the body is reached.  The
    body keeps the highlight colour and intensity, [isSelected] is false, and
    a later [deselect] returns at once without restoring anything. *)
Theorem deselect_throws_on_unlit_material :
  let w0 := Example.world0 in
  let selected := SceneObject.select placedProp w0 in
  let deselected := SceneObject.deselect (fst selected) (snd selected) in
  let o2 := snd (fst deselected) in
  let w2 := snd deselected in
  emissiveOf w0 5%positive = Some (Some (Hex 0x102030), Some 1%float)
  /\ emissiveOf (snd selected) 5%positive = Some (Some (Hex 0x333333), Some 0.3%float)
  /\ fst (fst deselected)
     = JS.Throw "TypeError: Cannot read properties of undefined (reading 'copy')"
  /\ SceneObject.isSelected o2 = false
  /\ emissiveOf w2 5%positive = Some (Some (Hex 0x333333), Some 0.3%float)
  /\ SceneObject.deselect o2 w2 = (JS.Normal tt, o2, w2).
Proof. vm_compute. by repeat split. Qed.

(* --------------------------------------------------------------------- *)
(** ** The theorems at the example studios *)

(** With the two screen halves of [Example.barcelona], the first material of
    the requested name is material 1 and the one bound is material 3, whose
    textures and intensity are the ones stored. *)
Lemma first_match_is_overwritten :
  let s' := fst (LEDScreen.findTargetMaterial
                   (blankScreen (Some Example.barcelona) "M_WhiteScreen" false)
                   Example.world0) in
  head (matchingMaterials Example.world0 "M_WhiteScreen" Example.barcelona)
  = Some 1%positive
  /\ LEDScreen.material s' = Some 3%positive
  /\ LEDScreen.material s' <> Some 1%positive
  /\ LEDScreen.originalBaseColorTexture s' = Some 12%positive
  /\ LEDScreen.originalEmissiveTexture s' = Some 13%positive
  /\ LEDScreen.originalEmissiveIntensity s' = 0.5%float.
Proof. vm_compute. by repeat split. Qed.

Lemma unbound_screen_methods_are_noops_witness :
  let s := blankScreen None "M_WhiteScreen" true in
  let g := mkGlobals None None 1%float in
  LEDScreen.material s = None
  /\ LEDScreen.setBrightness 0.7%float s g Example.world0 = (s, g, Example.world0)
  /\ LEDScreen.resetToOriginal s g Example.world0 = (s, g, Example.world0).
Proof.
  cbv zeta. split; [reflexivity|].
  apply (unbound_screen_methods_are_noops
           (blankScreen None "M_WhiteScreen" true) (mkGlobals None None 1%float)
           Example.world0 (Some 50%positive) 0.7%float).
  reflexivity.
Defined.

Lemma constructor_applies_global_state_witness :
  let g := mkGlobals (Some 50%positive) (Some 50%positive) 0.7%float in
  let w' := snd (LEDScreen.new (Some Example.barcelona) "M_WhiteScreen" true g
                   Example.world0) in
  last (matchingMaterials Example.world0 "M_WhiteScreen" Example.barcelona)
  = Some 3%positive
  /\ exists mat,
       mats w' !! 3%positive = Some mat
       /\ Material.emissiveIntensity mat = Some 0.7%float
       /\ Material.map mat = Some 50%positive
       /\ Material.emissiveMap mat = Some 50%positive.
Proof.
  cbv zeta. split; [vm_compute; reflexivity|].
  assert (L : last (matchingMaterials Example.world0 "M_WhiteScreen" Example.barcelona)
              = Some 3%positive) by (vm_compute; reflexivity).
  pose proof (constructor_applies_global_state Example.world0 Example.barcelona
                "M_WhiteScreen"
                (mkGlobals (Some 50%positive) (Some 50%positive) 0.7%float)
                3%positive L eq_refl) as H.
  destruct (LEDScreen.new _ _ _ _ _) as [s' w'].
  destruct H as (mat0 & mat & _ & Hmat & _ & Hi & _ & Hmap & Hemap & _).
  exists mat. by repeat split.
Defined.

Lemma resetToOriginal_restores_bound_values_witness :
  let g := mkGlobals None None 1%float in
  let calls := [LEDScreen.CallSetCustomTexture (Some 50%positive);
                LEDScreen.CallSetBrightness 0.7%float;
                LEDScreen.CallSetCustomTexture (Some 51%positive)] in
  let bound := LEDScreen.new (Some Example.barcelona) "M_WhiteScreen" true g
                 Example.world0 in
  let used := LEDScreen.runAll calls (fst bound, g, snd bound) in
  let w2 := snd (LEDScreen.resetToOriginal (fst (fst used)) (snd (fst used)) (snd used)) in
  last (matchingMaterials Example.world0 "M_WhiteScreen" Example.barcelona)
  = Some 3%positive
  /\ exists mat2,
       mats w2 !! 3%positive = Some mat2
       /\ Material.map mat2 = Some 12%positive
       /\ Material.emissiveMap mat2 = Some 13%positive
       /\ Material.emissiveIntensity mat2 = Some 0.5%float.
Proof.
  cbv zeta. split; [vm_compute; reflexivity|].
  assert (L : last (matchingMaterials Example.world0 "M_WhiteScreen" Example.barcelona)
              = Some 3%positive) by (vm_compute; reflexivity).
  pose proof (resetToOriginal_restores_bound_values Example.world0 Example.barcelona
                "M_WhiteScreen" true (mkGlobals None None 1%float) 3%positive
                [LEDScreen.CallSetCustomTexture (Some 50%positive);
                 LEDScreen.CallSetBrightness 0.7%float;
                 LEDScreen.CallSetCustomTexture (Some 51%positive)] L) as H.
  destruct (LEDScreen.new _ _ _ _ _) as [s0 w0]. cbn [fst snd].
  destruct (LEDScreen.runAll _ _) as [[s1 g1] w1]. cbn [fst snd].
  destruct (LEDScreen.resetToOriginal _ _ _) as [[s2 g2] w2]. cbn [fst snd].
  destruct H as (mat0 & mat2 & H0 & _ & _ & _ & H2 & _ & Hmap & Hemap & Hi & _).
  assert (E0 : mat0 = Example.screenMat2)
    by (vm_compute in H0; by injection H0 as <-).
  subst mat0. exists mat2. by repeat split.
Defined.

(** A loader that knows both studios. *)
Definition loadBoth (path : string) : option Object3D :=
  if String.eqb path "public/LED_Studio/BARCELONA/LED_Studio_Barcelona.gltf"
  then Some Example.barcelona else loadMadrid path.

Definition barcelonaStudio : Studio.t :=
  Studio.mk "BARCELONA" "Barcelona"
    "public/LED_Studio/BARCELONA/LED_Studio_Barcelona.gltf"
    "public/LED_Studio/BARCELONA/".

(** The started controller after a texture was chosen and the brightness
    slider was set to 0.7. *)
Definition litApp : LEDStageApp.t :=
  LEDStageApp.step (LEDStageApp.BrightnessInput 0.7%float)
    (LEDStageApp.step (LEDStageApp.TextureChosen (Some 50%positive)) startedApp).

Lemma failed_load_outcome_witness :
  let m := LEDStageApp.studioManager startedApp in
  let w := LEDStageApp.world startedApp in
  let out := LEDStudioManager.switchStudio loadNothing "BARCELONA" false m w in
  LEDStudioManager.getStudioByName "BARCELONA" m = Some barcelonaStudio
  /\ loadNothing (Studio.gltfPath barcelonaStudio) = None
  /\ fst (fst out) = None
  /\ snd (fst out) = m.
Proof.
  cbv zeta.
  assert (Hs : LEDStudioManager.getStudioByName "BARCELONA"
                 (LEDStageApp.studioManager startedApp) = Some barcelonaStudio)
    by (vm_compute; reflexivity).
  split; [exact Hs|]. split; [reflexivity|].
  pose proof (failed_load_outcome loadNothing "BARCELONA" false
                (LEDStageApp.studioManager startedApp) (LEDStageApp.world startedApp)
                barcelonaStudio Hs eq_refl) as H.
  destruct (LEDStudioManager.switchStudio _ _ _ _ _) as [[res m'] w'].
  destruct H as (Hres & Hm & _). by split.
Defined.

Lemma studio_change_keeps_screen_state_witness :
  let s' := LEDStageApp.exec (LEDStageApp.onStudioChange loadBoth "BARCELONA") litApp in
  globalCustomTexture (LEDStageApp.globals litApp) = Some 50%positive
  /\ globalBrightness (LEDStageApp.globals litApp) = 0.7%float
  /\ exists scr mat,
       LEDStageApp.ledScreen s' = Some scr
       /\ LEDScreen.material scr = Some 3%positive
       /\ LEDScreen.brightness scr = 0.7%float
       /\ LEDScreen.currentTexture scr = Some 50%positive
       /\ mats (LEDStageApp.world s') !! 3%positive = Some mat
       /\ Material.map mat = Some 50%positive
       /\ Material.emissiveMap mat = Some 50%positive
       /\ Material.emissiveIntensity mat = Some 0.7%float.
Proof.
  cbv zeta. split; [vm_compute; reflexivity|]. split; [vm_compute; reflexivity|].
  refine (proj1 (studio_change_keeps_screen_state litApp loadBoth "BARCELONA"
                   barcelonaStudio
                   (traverse_map LEDStudioManager.configureStudioNode Example.barcelona)
                   3%positive 50%positive 0.7%float _ _ _ _ _ _ _));
    try (vm_compute; reflexivity).
  discriminate.
Defined.


(* --------------------------------------------------------------------- *)
(** ** Highlight of a placed object whose materials are all lit *)

Lemma nodes_traverse_map (f : Node.t -> Node.t) :
  forall o : Object3D, nodes (traverse_map f o) = List.map f (nodes o).
Proof.
  fix IH 1. intros [d cs]. cbn [traverse_map nodes List.map]. f_equal.
  induction cs as [|c cs IHcs]; [reflexivity|].
  cbn [List.map List.concat]. by rewrite List.map_app, IH, IHcs.
Qed.

(** The material a traversal callback of [SceneObject] touches on a node. *)
Definition nodeMaterial (d : Node.t) : option MatId :=
  if Node.isMesh d && Node.hasMaterial d then
    match Node.material d with
    | Single m => Some m
    | _ => None
    end
  else None.

(** [d] is a node the highlight can handle: not a mesh with a material, or
    a mesh with a single lit material whose intensity is a number that
    [|| 0] leaves alone; [userData] holds no cached colour yet. *)
Definition litNode (w : World) (d : Node.t) : Prop :=
  Node.isMesh d && Node.hasMaterial d = true ->
  Node.originalEmissive (Node.userData d) = None
  /\ exists m mat c i,
       Node.material d = Single m
       /\ mats w !! m = Some mat
       /\ Material.emissive mat = Some c
       /\ Material.emissiveIntensity mat = Some i
       /\ JS.or_num (Some i) 0 = i.

Definition litModel (w : World) (mesh : Object3D) : Prop :=
  forall d, In d (nodes mesh) -> litNode w d.

(** A node after [storeOriginalMaterials] ran on it in the world [w]. *)
Definition cachedNode (w : World) (d : Node.t) : Prop :=
  Node.isMesh d && Node.hasMaterial d = true ->
  exists m mat c i,
    Node.material d = Single m
    /\ mats w !! m = Some mat
    /\ Material.emissive mat = Some c
    /\ Material.emissiveIntensity mat = Some i
    /\ Node.userData d = Node.mkUserData (Some c) (Some i).

Lemma storeOriginal_cachedNode (w : World) (d : Node.t) :
  litNode w d -> cachedNode w (SceneObject.storeOriginal w d).
Proof.
  intros L. unfold SceneObject.storeOriginal.
  destruct (Node.isMesh d && Node.hasMaterial d) eqn:E; [|intros H; cbn in H; congruence].
  destruct (L E) as (U & m & mat & c & i & Hm & Hmat & Hc & Hi & Hor).
  rewrite U. intros _. exists m, mat, c, i. cbn.
  unfold SceneObject.material_emissive, SceneObject.material_emissiveIntensity.
  rewrite Hm, Hmat, Hc, Hi, Hor. by repeat split.
Qed.

Lemma storeOriginal_nodeMaterial (w : World) (d : Node.t) :
  nodeMaterial (SceneObject.storeOriginal w d) = nodeMaterial d.
Proof.
  unfold SceneObject.storeOriginal, nodeMaterial.
  destruct (Node.isMesh d && Node.hasMaterial d) eqn:E; [|by rewrite E].
  destruct (Node.originalEmissive (Node.userData d)); [by rewrite E|].
  cbn. unfold Node.hasMaterial in *. cbn. by rewrite E.
Qed.

(** The materials the traversal of the nodes [l] touches. *)
Definition touched (l : list Node.t) (m : MatId) : Prop :=
  In (Some m) (List.map nodeMaterial l).

(** The touched materials exist and are lit in [w']; the others are those
    of [w]. *)
Definition highlightFrame (w : World) (l0 : list Node.t) (w' : World) : Prop :=
  (forall m, touched l0 m ->
     exists mat', mats w' !! m = Some mat' /\ is_Some (Material.emissive mat'))
  /\ (forall m, ~ touched l0 m -> mats w' !! m = mats w !! m).

Lemma cachedNode_nodeMaterial (w : World) (d : Node.t) :
  cachedNode w d ->
  Node.isMesh d && Node.hasMaterial d = true ->
  exists m, nodeMaterial d = Some m /\ Node.material d = Single m.
Proof.
  intros C E. destruct (C E) as (m & mat & c & i & Hm & _).
  exists m. unfold nodeMaterial. by rewrite E, Hm.
Qed.

Lemma highlight_frame (w : World) (l0 : list Node.t) (d : Node.t) (w' : World) :
  cachedNode w d ->
  (forall m, nodeMaterial d = Some m -> touched l0 m) ->
  highlightFrame w l0 w' ->
  highlightFrame w l0 (SceneObject.highlight w' d).
Proof.
  intros C Hin [P1 P2]. unfold SceneObject.highlight.
  destruct (Node.isMesh d && Node.hasMaterial d) eqn:E; [|by split].
  destruct (cachedNode_nodeMaterial w d C E) as (m & Hn & Hm).
  pose proof (Hin m Hn) as Hms. destruct (P1 m Hms) as (mat' & Hmat' & [c' Hc']).
  unfold SceneObject.material_emissive, SceneObject.assign_material.
  rewrite Hm, Hmat', Hc'. split.
  - intros m' Hm'. destruct (decide (m = m')) as [<-|Hne].
    + rewrite !lookup_update_mat_eq, Hmat'. cbn. eexists. split; [reflexivity|].
      by eexists.
    + rewrite !lookup_update_mat_ne by assumption. by apply P1.
  - intros m' Hm'. rewrite !lookup_update_mat_ne by (intros <-; contradiction).
    by apply P2.
Qed.

Lemma select_frame (w : World) (l0 l : list Node.t) :
  forall w',
    (forall d, In d l -> cachedNode w d) ->
    (forall d m, In d l -> nodeMaterial d = Some m -> touched l0 m) ->
    highlightFrame w l0 w' ->
    highlightFrame w l0 (fold_left SceneObject.highlight l w').
Proof.
  induction l as [|d l IH]; intros w' C Hin F; [exact F|].
  cbn [fold_left]. apply IH.
  - intros d' Hd'. apply C. by right.
  - intros d' m Hd'. apply Hin. by right.
  - apply (highlight_frame w l0 d w'); [apply C; by left| |exact F].
    intros m. apply Hin. by left.
Qed.

Lemma restore_cachedNode (w : World) (l0 : list Node.t) (d : Node.t) (w' : World) :
  cachedNode w d ->
  (forall m, nodeMaterial d = Some m -> touched l0 m) ->
  highlightFrame w l0 w' ->
  exists w'',
    SceneObject.restore d w' = (JS.Normal tt, w'')
    /\ highlightFrame w l0 w''
    /\ (forall m, nodeMaterial d = Some m -> emissiveOf w'' m = emissiveOf w m)
    /\ (forall m, nodeMaterial d <> Some m -> mats w'' !! m = mats w' !! m).
Proof.
  intros C Hin [P1 P2]. unfold SceneObject.restore.
  destruct (Node.isMesh d && Node.hasMaterial d) eqn:E.
  2:{ exists w'. split; [reflexivity|]. split; [by split|].
      split; [|reflexivity]. unfold nodeMaterial. rewrite E. discriminate. }
  destruct (C E) as (m & mat & c & i & Hm & Hmat & Hc & Hi & Hu).
  assert (Hn : nodeMaterial d = Some m) by (unfold nodeMaterial; by rewrite E, Hm).
  destruct (P1 m (Hin m Hn)) as (mat' & Hmat' & [c' Hc']).
  rewrite Hu. cbn [Node.originalEmissive Node.originalEmissiveIntensity].
  unfold SceneObject.material_emissive, SceneObject.assign_material.
  rewrite Hm, Hmat', Hc'. eexists. split; [reflexivity|]. split; [split|split].
  - intros m' Hm'. destruct (decide (m = m')) as [<-|Hne].
    + rewrite !lookup_update_mat_eq, Hmat'. cbn. eexists. split; [reflexivity|].
      by eexists.
    + rewrite !lookup_update_mat_ne by assumption. by apply P1.
  - intros m' Hm'. rewrite !lookup_update_mat_ne by (intros <-; by apply Hm', Hin).
    by apply P2.
  - intros m' Hm'. rewrite Hn in Hm'. injection Hm' as <-.
    unfold emissiveOf. rewrite !lookup_update_mat_eq, Hmat', Hmat. cbn.
    by rewrite Hc, Hi.
  - intros m' Hm'. rewrite !lookup_update_mat_ne; [done|..]; intros <-; by apply Hm'.
Qed.

Lemma deselect_traversal (w : World) (l0 l : list Node.t) :
  forall w',
    (forall d, In d l -> cachedNode w d) ->
    (forall d m, In d l -> nodeMaterial d = Some m -> touched l0 m) ->
    highlightFrame w l0 w' ->
    exists w'',
      SceneObject.traverse_try SceneObject.restore l w' = (JS.Normal tt, w'')
      /\ highlightFrame w l0 w''
      /\ (forall m, touched l m -> emissiveOf w'' m = emissiveOf w m)
      /\ (forall m, ~ touched l m -> mats w'' !! m = mats w' !! m).
Proof.
  induction l as [|d l IH]; intros w' C Hin F.
  - exists w'. split; [reflexivity|]. split; [exact F|]. split; [intros m []|done].
  - destruct (restore_cachedNode w l0 d w') as (w1 & E1 & F1 & In1 & Out1);
      [apply C; by left|intros m; apply Hin; by left|exact F|].
    destruct (IH w1) as (w2 & E2 & F2 & In2 & Out2);
      [intros d' Hd'; apply C; by right
      |intros d' m Hd'; apply Hin; by right|exact F1|].
    exists w2. cbn [SceneObject.traverse_try]. rewrite E1.
    split; [exact E2|]. split; [exact F2|]. split.
    + intros m Hm.
      destruct (in_dec (fun a b : option MatId => decide (a = b)) (Some m)
                  (List.map nodeMaterial l)) as [Hl|Hl].
      * by apply In2.
      * destruct Hm as [Hd|Hm]; [|contradiction].
        unfold emissiveOf. rewrite (Out2 m Hl). by apply In1.
    + intros m Hm. rewrite Out2 by (intros H; apply Hm; by right).
      apply Out1. intros H. apply Hm. by left.
Qed.

(** A sequence of [select()] and [deselect()] calls on one object; an
    exception ends the sequence. *)
Inductive HighlightCall : Type := CallSelect | CallDeselect.

Definition highlightCall (c : HighlightCall)
    (st : JS.completion unit * SceneObject.t * World)
    : JS.completion unit * SceneObject.t * World :=
  let '(r, o, w) := st in
  match r, c with
  | JS.Throw _, _ => st
  | JS.Normal _, CallSelect =>
      let '(o', w') := SceneObject.select o w in (JS.Normal tt, o', w')
  | JS.Normal _, CallDeselect => SceneObject.deselect o w
  end.

Definition highlightCalls (cs : list HighlightCall)
    (st : JS.completion unit * SceneObject.t * World)
    : JS.completion unit * SceneObject.t * World :=
  fold_left (fun st c => highlightCall c st) cs st.

(** What the calls keep true of an object built in the world [w]. *)
Definition highlightInvariant (w : World) (l0 : list Node.t)
    (st : JS.completion unit * SceneObject.t * World) : Prop :=
  let '(r, o, w') := st in
  r = JS.Normal tt
  /\ nodes (SceneObject.mesh o) = l0
  /\ highlightFrame w l0 w'
  /\ (SceneObject.isSelected o = false -> forall m, emissiveOf w' m = emissiveOf w m).

Lemma touched_In (l : list Node.t) (d : Node.t) (m : MatId) :
  In d l -> nodeMaterial d = Some m -> touched l m.
Proof. intros Hd Hm. unfold touched. rewrite <- Hm. by apply in_map. Qed.

Lemma highlightInvariant_new (w : World) (mesh : Object3D) (name id : string) :
  litModel w mesh ->
  let o := SceneObject.new w mesh name id in
  (forall d, In d (nodes (SceneObject.mesh o)) -> cachedNode w d)
  /\ highlightInvariant w (nodes (SceneObject.mesh o)) (JS.Normal tt, o, w).
Proof.
  intros L. cbv zeta.
  assert (C : forall d, In d (nodes (SceneObject.mesh (SceneObject.new w mesh name id))) ->
                        cachedNode w d).
  { cbn. unfold SceneObject.storeOriginalMaterials. rewrite nodes_traverse_map.
    intros d Hd. apply in_map_iff in Hd as (d0 & <- & Hd0).
    by apply storeOriginal_cachedNode, L. }
  split; [exact C|]. split; [reflexivity|]. split; [reflexivity|].
  split; [|done]. split; [|done].
  intros m Hm. apply in_map_iff in Hm as (d & Hn & Hd).
  assert (E : Node.isMesh d && Node.hasMaterial d = true).
  { unfold nodeMaterial in Hn. by destruct (Node.isMesh d && Node.hasMaterial d). }
  destruct (C d Hd E) as (m' & mat & c & i & Hm' & Hmat & Hc & _).
  unfold nodeMaterial in Hn. rewrite E, Hm' in Hn. injection Hn as <-.
  exists mat. split; [exact Hmat|]. by exists c.
Qed.

Lemma highlightInvariant_call (w : World) (l0 : list Node.t) (c : HighlightCall)
    (st : JS.completion unit * SceneObject.t * World) :
  (forall d, In d l0 -> cachedNode w d) ->
  highlightInvariant w l0 st ->
  highlightInvariant w l0 (highlightCall c st)
  /\ (c = CallDeselect -> SceneObject.isSelected (snd (fst (highlightCall c st))) = false).
Proof.
  intros C. destruct st as [[r o] w']. intros (-> & Hl & F & R).
  destruct c; cbn [highlightCall].
  - unfold SceneObject.select. split; [|discriminate].
    destruct (SceneObject.isSelected o) eqn:Es;
      [split; [reflexivity|split; [exact Hl|split; [exact F|by rewrite Es]]]|].
    split; [reflexivity|]. split; [exact Hl|]. split; [|discriminate].
    cbn [SceneObject.mesh SceneObject.set_isSelected]. rewrite Hl.
    apply (select_frame w l0 l0); [exact C| |exact F].
    intros d m. apply touched_In.
  - unfold SceneObject.deselect.
    destruct (SceneObject.isSelected o) eqn:Es;
      [|split; [|intros _; exact Es];
        split; [reflexivity|split; [exact Hl|split; [exact F|by rewrite Es]]]].
    rewrite Hl.
    destruct (deselect_traversal w l0 l0 w' C) as (w2 & E2 & F2 & In2 & Out2);
      [intros d m; apply touched_In|exact F|].
    rewrite E2. split; [|reflexivity].
    split; [reflexivity|]. split; [exact Hl|]. split; [exact F2|].
    intros _ m.
    destruct (in_dec (fun a b : option MatId => decide (a = b)) (Some m)
                (List.map nodeMaterial l0)) as [Hm|Hm].
    + by apply In2.
    + unfold emissiveOf. rewrite (Out2 m Hm). destruct F as [_ P2]. by rewrite (P2 m Hm).
Qed.

Lemma highlightInvariant_calls (w : World) (l0 : list Node.t) (cs : list HighlightCall) :
  forall st,
    (forall d, In d l0 -> cachedNode w d) ->
    highlightInvariant w l0 st ->
    highlightInvariant w l0 (highlightCalls cs st).
Proof.
  unfold highlightCalls. induction cs as [|c cs IH]; intros st C I; [exact I|].
  cbn [fold_left]. apply IH; [exact C|]. by apply highlightInvariant_call.
Qed.

(** For a model whose mesh materials are all single and lit, built into a
    [SceneObject] in the world [w]: any sequence of [select()] and
    [deselect()] calls that ends in [deselect()] returns without an
    exception, leaves the object deselected, and leaves every material with
    the emissive colour and the emissive intensity it has in [w]. *)
Theorem lit_model_highlight_round_trip :
  forall (w : World) (mesh : Object3D) (name id : string) (cs : list HighlightCall),
    litModel w mesh ->
    let '(r, o', w') :=
      highlightCalls (cs ++ [CallDeselect])
        (JS.Normal tt, SceneObject.new w mesh name id, w) in
    r = JS.Normal tt
    /\ SceneObject.isSelected o' = false
    /\ forall m, emissiveOf w' m = emissiveOf w m.
Proof.
  intros w mesh name id cs L.
  destruct (highlightInvariant_new w mesh name id L) as [C I0].
  set (o := SceneObject.new w mesh name id) in *.
  pose proof (highlightInvariant_calls w _ cs _ C I0) as I1.
  unfold highlightCalls in *. rewrite fold_left_app. cbn [fold_left].
  destruct (highlightInvariant_call w _ CallDeselect _ C I1) as [I2 Hsel].
  specialize (Hsel eq_refl).
  destruct (highlightCall CallDeselect _) as [[r o'] w'].
  destruct I2 as (Hr & _ & _ & R). cbn in Hsel. split; [exact Hr|].
  split; [exact Hsel|]. by apply R.
Qed.

(** [select()] on a selected object and [deselect()] on an object that is
    not selected return at once; a second [select()] changes nothing. *)
Theorem select_and_deselect_are_idempotent :
  forall (o : SceneObject.t) (w : World),
    (SceneObject.isSelected o = true -> SceneObject.select o w = (o, w))
    /\ (SceneObject.isSelected o = false ->
        SceneObject.deselect o w = (JS.Normal tt, o, w))
    /\ SceneObject.select (fst (SceneObject.select o w)) (snd (SceneObject.select o w))
       = SceneObject.select o w
    /\ (let '(_, o1, w1) := SceneObject.deselect o w in
        SceneObject.deselect o1 w1 = (JS.Normal tt, o1, w1)).
Proof.
  intros o w. unfold SceneObject.select, SceneObject.deselect.
  destruct (SceneObject.isSelected o) eqn:Es.
  - split; [done|]. split; [discriminate|]. cbn. rewrite Es. split; [done|].
    by destruct (SceneObject.traverse_try _ _ _) as [r w'].
  - split; [discriminate|]. split; [done|]. cbn. split; [done|]. by rewrite Es.
Qed.

Lemma litModel_madrid : litModel Example.world0 Example.madrid.
Proof.
  intros d [<-|[<-|[<-|[]]]] E; try discriminate E; (split; [reflexivity|]).
  - exists 2%positive, Example.wallMat, (Hex 0), 1%float. by vm_compute.
  - exists 1%positive, Example.screenMat, (Hex 0), 2%float. by vm_compute.
Qed.

Lemma lit_model_highlight_round_trip_witness :
  let out :=
    highlightCalls [CallSelect; CallSelect; CallDeselect; CallSelect; CallDeselect]
      (JS.Normal tt, SceneObject.new Example.world0 Example.madrid "set" "id-2",
       Example.world0) in
  litModel Example.world0 Example.madrid
  /\ fst (fst out) = JS.Normal tt
  /\ forall m, emissiveOf (snd out) m = emissiveOf Example.world0 m.
Proof.
  cbv zeta. split; [exact litModel_madrid|].
  pose proof (lit_model_highlight_round_trip Example.world0 Example.madrid "set" "id-2"
                [CallSelect; CallSelect; CallDeselect; CallSelect] litModel_madrid) as H.
  cbn [app] in H.
  destruct (highlightCalls _ _) as [[r o'] w']. by destruct H as (Hr & _ & Hm).
Defined.

Lemma select_and_deselect_are_idempotent_witness :
  SceneObject.isSelected placedProp = false
  /\ SceneObject.deselect placedProp Example.world0
     = (JS.Normal tt, placedProp, Example.world0).
Proof.
  split; [reflexivity|].
  destruct (select_and_deselect_are_idempotent placedProp Example.world0)
    as (_ & H & _).
  by apply H.
Defined.

(* ===================================================================== *)
(** * The procedural variant: [selectModel] and [deselectModel] *)

Module Procedural.

(** [traverse] with a callback that rewrites the visited node and the
    materials. *)
Fixpoint traverse_st (f : World -> Node.t -> Node.t * World) (o : Object3D)
    (w : World) : Object3D * World :=
  match o with
  | Obj d cs =>
      let '(d', w1) := f w d in
      let '(cs', w2) :=
        (fix children (cs : list Object3D) (w : World) : list Object3D * World :=
           match cs with
           | [] => ([], w)
           | c :: r =>
               let '(c', w') := traverse_st f c w in
               let '(r', w'') := children r w' in
               (c' :: r', w'')
           end) cs w1 in
      (Obj d' cs', w2)
  end.

(** The loaded models, which keep their [userData] between selections, and
    the variable [selectedModel]. *)
Record t : Type := mk {
  models : gmap Addr Object3D;
  selectedModel : option Addr
}.

(** Callback of the traversal in [selectModel]: the original values are
    cached on the first visit of the child, then the highlight is applied. *)
Definition highlightChild (w : World) (child : Node.t) : Node.t * World :=
  if Node.isMesh child && Node.hasMaterial child then
    let child' :=
      match Node.originalEmissive (Node.userData child) with
      | Some _ => child
      | None =>
          Node.set_userData
            (Node.mkUserData
               (Some (match SceneObject.material_emissive w child with
                      | Some c => c
                      | None => Hex 0
                      end))
               (Some (JS.or_num (SceneObject.material_emissiveIntensity w child) 0)))
            child
      end in
    let w1 :=
      match SceneObject.material_emissive w child with
      | Some _ =>
          SceneObject.assign_material child
            (Material.set_emissiveIntensity (Some 0.3%float))
            (SceneObject.assign_material child
               (Material.set_emissive (Some (Hex 0x333333))) w)
      | None => w
      end in
    (child', SceneObject.assign_material child (Material.set_needsUpdate true) w1)
  else (child, w).

(** Callback of the traversal in [deselectModel]. *)
Definition restoreChild (child : Node.t) (w : World) : JS.completion unit * World :=
  if Node.isMesh child && Node.hasMaterial child then
    match Node.originalEmissive (Node.userData child) with
    | Some c =>
        match SceneObject.material_emissive w child with
        | None =>
            (JS.Throw "TypeError: Cannot read properties of undefined (reading 'copy')", w)
        | Some _ =>
            (JS.Normal tt,
             SceneObject.assign_material child (Material.set_needsUpdate true)
               (SceneObject.assign_material child
                  (Material.set_emissiveIntensity
                     (Node.originalEmissiveIntensity (Node.userData child)))
                  (SceneObject.assign_material child (Material.set_emissive (Some c)) w)))
        end
    | None => (JS.Normal tt, w)
    end
  else (JS.Normal tt, w).

(** [deselectModel()]: [selectedModel = null] is the last statement, after
    the traversal. *)
Definition deselectModel (s : t) (w : World) : JS.completion unit * t * World :=
  match selectedModel s with
  | None => (JS.Normal tt, s, w)
  | Some a =>
      match models s !! a with
      | Some model =>
          match SceneObject.traverse_try restoreChild (nodes model) w with
          | (JS.Normal _, w') => (JS.Normal tt, mk (models s) None, w')
          | (JS.Throw e, w') => (JS.Throw e, s, w')
          end
      | None => (JS.Throw "TypeError: selectedModel is undefined", s, w)
      end
  end.

(** [selectModel(model)] for the model at [a]. *)
Definition selectModel (a : Addr) (s : t) (w : World) : JS.completion unit * t * World :=
  if decide (selectedModel s = Some a) then (JS.Normal tt, s, w)
  else
    match deselectModel s w with
    | (JS.Throw e, s1, w1) => (JS.Throw e, s1, w1)
    | (JS.Normal _, s1, w1) =>
        match models s1 !! a with
        | Some model =>
            let '(model', w2) := traverse_st highlightChild model w1 in
            (JS.Normal tt, mk (<[a := model']> (models s1)) (Some a), w2)
        | None =>
            (JS.Throw "TypeError: model is undefined", mk (models s1) (Some a), w1)
        end
    end.

End Procedural.

(** A model whose two meshes share the lit body material. *)
Definition twinModel : Object3D :=
  Obj (Example.group 500%positive "Twin")
    [ Obj (Example.meshNode 501%positive "Left" 8%positive 5%positive) [];
      Obj (Example.meshNode 502%positive "Right" 9%positive 5%positive) [] ].

(** ** The procedural variant on a model whose meshes share a material *)

(** A traversal that rewrites nodes and materials, on the list of nodes. *)
Fixpoint visit (f : World -> Node.t -> Node.t * World) (l : list Node.t) (w : World)
    : list Node.t * World :=
  match l with
  | [] => ([], w)
  | d :: r =>
      let '(d', w1) := f w d in
      let '(r', w2) := visit f r w1 in
      (d' :: r', w2)
  end.

Lemma visit_app (f : World -> Node.t -> Node.t * World) (l1 l2 : list Node.t) :
  forall w,
    visit f (l1 ++ l2) w
    = let '(l1', w1) := visit f l1 w in
      let '(l2', w2) := visit f l2 w1 in
      (l1' ++ l2', w2).
Proof.
  induction l1 as [|d l1 IH]; intros w; cbn [visit app].
  - by destruct (visit f l2 w).
  - destruct (f w d) as [d' w1]. rewrite IH.
    destruct (visit f l1 w1) as [l1' w2]. by destruct (visit f l2 w2).
Qed.

(** The loop of [traverse] over the children. *)
Definition children_st (f : World -> Node.t -> Node.t * World) :=
  fix children (cs : list Object3D) (w : World) : list Object3D * World :=
    match cs with
    | [] => ([], w)
    | c :: r =>
        let '(c', w') := Procedural.traverse_st f c w in
        let '(r', w'') := children r w' in
        (c' :: r', w'')
    end.

Lemma traverse_st_Obj (f : World -> Node.t -> Node.t * World) (d : Node.t)
    (cs : list Object3D) (w : World) :
  Procedural.traverse_st f (Obj d cs) w
  = let '(d', w1) := f w d in
    let '(cs', w2) := children_st f cs w1 in
    (Obj d' cs', w2).
Proof. reflexivity. Qed.

Lemma traverse_st_visit (f : World -> Node.t -> Node.t * World) :
  forall (o : Object3D) (w : World),
    (let '(o', w') := Procedural.traverse_st f o w in (nodes o', w'))
    = visit f (nodes o) w.
Proof.
  fix IH 1. intros [d cs] w. rewrite traverse_st_Obj. cbn [nodes visit].
  destruct (f w d) as [d' w1].
  assert (H : forall w1,
             (let '(cs', w2) := children_st f cs w1 in
              (List.concat (List.map nodes cs'), w2))
             = visit f (List.concat (List.map nodes cs)) w1).
  { induction cs as [|c cs IHcs]; intros w2; [reflexivity|].
    cbn [List.map List.concat children_st]. rewrite visit_app, <- (IH c w2).
    destruct (Procedural.traverse_st f c w2) as [c' w3].
    rewrite <- (IHcs w3).
    destruct (children_st f cs w3) as [cs' w4]. reflexivity. }
  rewrite <- (H w1). destruct (children_st f cs w1) as [cs' w2]. reflexivity.
Qed.

Lemma traverse_try_app (f : Node.t -> World -> JS.completion unit * World)
    (l1 l2 : list Node.t) :
  forall w,
    SceneObject.traverse_try f (l1 ++ l2) w
    = match SceneObject.traverse_try f l1 w with
      | (JS.Normal _, w1) => SceneObject.traverse_try f l2 w1
      | (JS.Throw e, w1) => (JS.Throw e, w1)
      end.
Proof.
  induction l1 as [|d l1 IH]; intros w; cbn [SceneObject.traverse_try app]; [reflexivity|].
  destruct (f d w) as [[[]|e] w1]; [apply IH|reflexivity].
Qed.

(** What a node caches when it is visited after its material was
    highlighted. *)
Definition highlightData : Node.UserData :=
  Node.mkUserData (Some (Hex 0x333333)) (Some 0.3%float).

Definition highlightedIn (w : World) (m : MatId) : Prop :=
  emissiveOf w m = Some (Some (Hex 0x333333), Some 0.3%float).

(** The highlight traversal has visited the nodes [pre]: their materials are
    highlighted, the others are those of [w]. *)
Definition highlightedUpTo (w : World) (pre : list Node.t) (w' : World) : Prop :=
  (forall m, touched pre m -> highlightedIn w' m)
  /\ (forall m, ~ touched pre m -> mats w' !! m = mats w !! m).

(** A node [restoreChild] handles: a mesh with a single material, with a
    cached colour, or a node it skips. *)
Definition cachedSingle (d : Node.t) : Prop :=
  Node.isMesh d && Node.hasMaterial d = true ->
  exists m c, Node.material d = Single m
              /\ Node.originalEmissive (Node.userData d) = Some c.

Definition litAt (w : World) (m : MatId) : Prop :=
  exists mat, mats w !! m = Some mat /\ is_Some (Material.emissive mat).

Lemma highlightedIn_litAt (w : World) (m : MatId) : highlightedIn w m -> litAt w m.
Proof.
  unfold highlightedIn, emissiveOf, litAt. intros H.
  destruct (mats w !! m) as [mat|]; [|discriminate].
  exists mat. split; [reflexivity|]. cbn in H. injection H as H _. by rewrite H.
Qed.

Lemma touched_app (l1 l2 : list Node.t) (m : MatId) :
  touched (l1 ++ l2) m <-> touched l1 m \/ touched l2 m.
Proof. unfold touched. rewrite List.map_app. apply in_app_iff. Qed.

Lemma touched_cons (d : Node.t) (l : list Node.t) (m : MatId) :
  touched (d :: l) m <-> nodeMaterial d = Some m \/ touched l m.
Proof. unfold touched. cbn. tauto. Qed.

Lemma touched_nil (m : MatId) : ~ touched [] m.
Proof. intros []. Qed.

Lemma touched_dec (l : list Node.t) (m : MatId) : {touched l m} + {~ touched l m}.
Proof.
  apply List.in_dec. intros x y. exact (decide (x = y)).
Qed.

Lemma nodeMaterial_None (d : Node.t) :
  Node.isMesh d && Node.hasMaterial d = false -> nodeMaterial d = None.
Proof. intros E. unfold nodeMaterial. by rewrite E. Qed.

(** One step of the highlight traversal on a node of a lit model. *)
Lemma highlightChild_lit (w : World) (pre : list Node.t) (d : Node.t) (w' : World) :
  litNode w d ->
  highlightedUpTo w pre w' ->
  let '(d', w'') := Procedural.highlightChild w' d in
  nodeMaterial d' = nodeMaterial d
  /\ cachedSingle d'
  /\ highlightedUpTo w (pre ++ [d]) w''
  /\ (forall m, nodeMaterial d = Some m -> touched pre m ->
                Node.userData d' = highlightData)
  /\ (forall m, nodeMaterial d = Some m -> ~ touched pre m ->
                Some (Node.originalEmissive (Node.userData d'),
                      Node.originalEmissiveIntensity (Node.userData d'))
                = emissiveOf w m).
Proof.
  intros L [P1 P2]. unfold Procedural.highlightChild.
  destruct (Node.isMesh d && Node.hasMaterial d) eqn:E.
  2:{ pose proof (nodeMaterial_None d E) as N.
      split; [reflexivity|]. split; [intros H; congruence|]. split.
      - split.
        + intros m Hm. apply touched_app in Hm as [Hm|Hm]; [by apply P1|].
          apply touched_cons in Hm as [Hm|Hm]; [congruence|by destruct Hm].
        + intros m Hm. apply P2. intros H. apply Hm, touched_app. by left.
      - split; intros m Hm; congruence. }
  destruct (L E) as (U & m & mat & c & i & Hm & Hmat & Hc & Hi & Hor).
  assert (Hn : nodeMaterial d = Some m) by (unfold nodeMaterial; by rewrite E, Hm).
  rewrite U. unfold SceneObject.material_emissive, SceneObject.material_emissiveIntensity,
    SceneObject.assign_material. rewrite Hm.
  assert (Hlit : exists mat' c' i',
             mats w' !! m = Some mat' /\ Material.emissive mat' = Some c'
             /\ Material.emissiveIntensity mat' = Some i'
             /\ JS.or_num (Some i') 0 = i'
             /\ (touched pre m -> c' = Hex 0x333333 /\ i' = 0.3%float)
             /\ (~ touched pre m -> mat' = mat)).
  { destruct (touched_dec pre m) as [T|T].
    - pose proof (P1 m T) as H. unfold highlightedIn, emissiveOf in H.
      destruct (mats w' !! m) as [mat'|]; [|discriminate]. cbn in H.
      injection H as H1 H2. exists mat', (Hex 0x333333), 0.3%float.
      split; [reflexivity|]. split; [exact H1|]. split; [exact H2|].
      split; [reflexivity|]. split; [by intros _|intros N; by destruct N].
    - exists mat, c, i. rewrite (P2 m T). by repeat split. }
  destruct Hlit as (mat' & c' & i' & Hmat' & Hc' & Hi' & Hor' & Ht & Hnt).
  rewrite Hmat', Hc', Hi', Hor'.
  split; [|split; [|split; [|split]]].
  - unfold nodeMaterial. cbn. unfold Node.hasMaterial in *. cbn. by rewrite E.
  - intros _. exists m, c'. by split.
  - split.
    + intros m' Hm'. apply touched_app in Hm' as [Hm'|Hm'].
      * unfold highlightedIn, emissiveOf. destruct (decide (m = m')) as [<-|Hne].
        -- rewrite !lookup_update_mat_eq, Hmat'. reflexivity.
        -- rewrite !lookup_update_mat_ne by assumption. by apply P1.
      * apply touched_cons in Hm' as [Hm'|Hm']; [|by destruct Hm'].
        assert (m' = m) as -> by congruence.
        unfold highlightedIn, emissiveOf.
        rewrite !lookup_update_mat_eq, Hmat'. reflexivity.
    + intros m' Hm'.
      assert (Hne : m <> m').
      { intros <-. apply Hm', touched_app. right. apply touched_cons. by left. }
      rewrite !lookup_update_mat_ne by assumption.
      apply P2. intros H. apply Hm', touched_app. by left.
  - intros m0 Hm0 T. assert (m0 = m) as -> by congruence.
    destruct (Ht T) as [-> ->]. reflexivity.
  - intros m0 Hm0 T. assert (m0 = m) as -> by congruence.
    pose proof (Hnt T) as Heq. subst mat'. cbn. unfold emissiveOf. rewrite Hmat. cbn.
    congruence.
Qed.

Lemma highlightedUpTo_nil (w : World) : highlightedUpTo w [] w.
Proof. split; [intros m []|reflexivity]. Qed.

(** The highlight traversal over the nodes of a lit model. *)
Lemma visit_lit (w : World) (l : list Node.t) :
  forall (pre : list Node.t) (w' : World),
    (forall d, In d l -> litNode w d) ->
    highlightedUpTo w pre w' ->
    let '(l', w'') := visit Procedural.highlightChild l w' in
    List.map nodeMaterial l' = List.map nodeMaterial l
    /\ List.Forall cachedSingle l'
    /\ highlightedUpTo w (pre ++ l) w''.
Proof.
  induction l as [|d l IH]; intros pre w' L P; cbn [visit].
  - split; [reflexivity|]. split; [constructor|]. by rewrite app_nil_r.
  - pose proof (highlightChild_lit w pre d w' (L d (or_introl eq_refl)) P) as H.
    destruct (Procedural.highlightChild w' d) as [d' w1].
    destruct H as (Hn & Hc & P1 & _).
    specialize (IH (pre ++ [d]) w1 (fun x Hx => L x (or_intror Hx)) P1).
    destruct (visit Procedural.highlightChild l w1) as [l' w2].
    destruct IH as (Hm & Hf & P2).
    split; [cbn; by rewrite Hn, Hm|]. split; [by constructor|].
    by rewrite <- app_assoc in P2.
Qed.

(** The node visited after the nodes [pre0]. *)
Lemma visit_lit_at (w : World) (pre0 : list Node.t) (d : Node.t) (post : list Node.t) :
  (forall x, In x (pre0 ++ d :: post) -> litNode w x) ->
  let '(l', w1) := visit Procedural.highlightChild (pre0 ++ d :: post) w in
  highlightedUpTo w (pre0 ++ d :: post) w1
  /\ List.Forall cachedSingle l'
  /\ exists pre' d' post',
       l' = pre' ++ d' :: post'
       /\ length pre' = length pre0
       /\ List.map nodeMaterial pre' = List.map nodeMaterial pre0
       /\ nodeMaterial d' = nodeMaterial d
       /\ List.map nodeMaterial post' = List.map nodeMaterial post
       /\ (forall m, nodeMaterial d = Some m -> touched pre0 m ->
                     Node.userData d' = highlightData)
       /\ (forall m, nodeMaterial d = Some m -> ~ touched pre0 m ->
                     Some (Node.originalEmissive (Node.userData d'),
                           Node.originalEmissiveIntensity (Node.userData d'))
                     = emissiveOf w m).
Proof.
  intros L.
  assert (Lpre : forall x, In x pre0 -> litNode w x)
    by (intros x Hx; apply L, in_app_iff; by left).
  assert (Ld : litNode w d) by (apply L, in_app_iff; right; by left).
  assert (Lpost : forall x, In x post -> litNode w x)
    by (intros x Hx; apply L, in_app_iff; right; by right).
  rewrite visit_app.
  pose proof (visit_lit w pre0 [] w Lpre (highlightedUpTo_nil w)) as H1.
  destruct (visit Procedural.highlightChild pre0 w) as [pre' wa].
  destruct H1 as (Hm1 & Hf1 & P1). cbn [app] in P1. cbn [visit].
  pose proof (highlightChild_lit w pre0 d wa Ld P1) as H2.
  destruct (Procedural.highlightChild wa d) as [d' wb].
  destruct H2 as (Hn & Hc & P2 & Hhi & Horig).
  pose proof (visit_lit w post (pre0 ++ [d]) wb Lpost P2) as H3.
  destruct (visit Procedural.highlightChild post wb) as [post' wc].
  destruct H3 as (Hm3 & Hf3 & P3).
  split; [by rewrite <- app_assoc in P3|].
  split; [apply Forall_app; split; [exact Hf1|by constructor]|].
  exists pre', d', post'. split; [reflexivity|].
  split.
  { apply (f_equal (@length _)) in Hm1. by rewrite !length_map in Hm1. }
  by repeat split.
Qed.

(** One step of the traversal of [deselectModel]. *)
Lemma restoreChild_cached (d : Node.t) (w' : World) :
  cachedSingle d ->
  (forall m, nodeMaterial d = Some m -> litAt w' m) ->
  exists w'',
    Procedural.restoreChild d w' = (JS.Normal tt, w'')
    /\ (forall m, nodeMaterial d <> Some m -> mats w'' !! m = mats w' !! m)
    /\ (forall m, nodeMaterial d = Some m ->
                  emissiveOf w'' m
                  = Some (Node.originalEmissive (Node.userData d),
                          Node.originalEmissiveIntensity (Node.userData d)))
    /\ (forall m, litAt w' m -> litAt w'' m).
Proof.
  intros C Hlit. unfold Procedural.restoreChild.
  destruct (Node.isMesh d && Node.hasMaterial d) eqn:E.
  2:{ exists w'. split; [reflexivity|]. split; [reflexivity|].
      split; [|by intros m Hm].
      intros m Hm. rewrite (nodeMaterial_None d E) in Hm. discriminate. }
  destruct (C E) as (m & c & Hm & Hc).
  assert (Hn : nodeMaterial d = Some m) by (unfold nodeMaterial; by rewrite E, Hm).
  destruct (Hlit m Hn) as (mat & Hmat & [c0 Hc0]).
  rewrite Hc. unfold SceneObject.material_emissive, SceneObject.assign_material.
  rewrite Hm, Hmat, Hc0. eexists. split; [reflexivity|]. split; [|split].
  - intros m' Hne. rewrite !lookup_update_mat_ne by congruence. reflexivity.
  - intros m' Hm'. assert (m' = m) as -> by congruence.
    unfold emissiveOf. rewrite !lookup_update_mat_eq, Hmat. reflexivity.
  - intros m' (mat' & Hmat' & Hc'). unfold litAt.
    destruct (decide (m = m')) as [<-|Hne].
    + rewrite !lookup_update_mat_eq, Hmat. cbn. eexists. split; [reflexivity|].
      by eexists.
    + rewrite !lookup_update_mat_ne by assumption. by exists mat'.
Qed.

Lemma restore_pass (l : list Node.t) :
  forall w1,
    List.Forall cachedSingle l ->
    (forall m, touched l m -> litAt w1 m) ->
    exists w2,
      SceneObject.traverse_try Procedural.restoreChild l w1 = (JS.Normal tt, w2)
      /\ (forall m, ~ touched l m -> mats w2 !! m = mats w1 !! m)
      /\ (forall m, litAt w1 m -> litAt w2 m).
Proof.
  induction l as [|d l IH]; intros w1 C Hlit; cbn [SceneObject.traverse_try].
  - exists w1. by repeat split.
  - apply List.Forall_cons_iff in C as [Cd Cl].
    destruct (restoreChild_cached d w1 Cd) as (wa & Ea & Fa & Va & Keep).
    { intros m Hm. apply Hlit, touched_cons. by left. }
    rewrite Ea.
    destruct (IH wa Cl) as (w2 & E2 & F2 & K2).
    { intros m Hm. apply Keep, Hlit, touched_cons. by right. }
    exists w2. split; [exact E2|]. split.
    + intros m Hm. rewrite F2, Fa; [reflexivity| |].
      * intros H. apply Hm, touched_cons. by left.
      * intros H. apply Hm, touched_cons. by right.
    + intros m Hm. by apply K2, Keep.
Qed.

(** Among two or more nodes that use [m], the last one comes after another. *)
Lemma last_toucher (m : MatId) (l : list Node.t) :
  forall (i j : nat) (d1 d2 : Node.t),
    i < j -> l !! i = Some d1 -> l !! j = Some d2 ->
    nodeMaterial d1 = Some m -> nodeMaterial d2 = Some m ->
    exists pre d post,
      l = pre ++ d :: post /\ nodeMaterial d = Some m
      /\ touched pre m /\ ~ touched post m.
Proof.
  induction l as [|x l IH] using rev_ind; intros i j d1 d2 Hij H1 H2 M1 M2;
    [done|].
  assert (Hj : j < length (l ++ [x])) by (by eapply lookup_lt_Some).
  rewrite length_app in Hj. cbn in Hj.
  assert (Hi : i < length l) by lia.
  rewrite lookup_app_l in H1 by exact Hi.
  assert (T1 : touched l m).
  { unfold touched. rewrite <- M1. apply in_map, list_elem_of_In.
    by eapply list_elem_of_lookup_2. }
  destruct (decide (nodeMaterial x = Some m)) as [Hx|Hx].
  - exists l, x, []. split; [reflexivity|]. split; [exact Hx|].
    split; [exact T1|apply touched_nil].
  - assert (Hj' : j < length l).
    { destruct (decide (j = length l)) as [->|]; [|lia].
      rewrite lookup_app_r, Nat.sub_diag in H2 by lia. cbn in H2. congruence. }
    rewrite lookup_app_l in H2 by exact Hj'.
    destruct (IH i j d1 d2 Hij H1 H2 M1 M2) as (pre & d & post & -> & Hd & Tp & Np).
    exists pre, d, (post ++ [x]). split; [by rewrite <- app_assoc|].
    split; [exact Hd|]. split; [exact Tp|].
    intros H. apply touched_app in H as [H|H]; [by apply Np|].
    apply touched_cons in H as [H|H]; [congruence|by destruct H].
Qed.

Lemma touched_same (l l' : list Node.t) (m : MatId) :
  List.map nodeMaterial l' = List.map nodeMaterial l -> touched l' m <-> touched l m.
Proof. unfold touched. by intros ->. Qed.

(** [selectModel] on a lit model, then [deselectModel]. *)
Lemma select_then_deselect (s : Procedural.t) (w : World) (a : Addr) (model : Object3D) :
  Procedural.selectedModel s = None ->
  Procedural.models s !! a = Some model ->
  litModel w model ->
  exists model' w1 w2,
    Procedural.traverse_st Procedural.highlightChild model w = (model', w1)
    /\ visit Procedural.highlightChild (nodes model) w = (nodes model', w1)
    /\ Procedural.selectModel a s w
       = (JS.Normal tt, Procedural.mk (<[a := model']> (Procedural.models s)) (Some a), w1)
    /\ SceneObject.traverse_try Procedural.restoreChild (nodes model') w1
       = (JS.Normal tt, w2)
    /\ Procedural.deselectModel
         (Procedural.mk (<[a := model']> (Procedural.models s)) (Some a)) w1
       = (JS.Normal tt, Procedural.mk (<[a := model']> (Procedural.models s)) None, w2)
    /\ (forall m, ~ touched (nodes model) m -> mats w2 !! m = mats w !! m).
Proof.
  intros Hsel Hmodel L.
  pose proof (traverse_st_visit Procedural.highlightChild model w) as Ev.
  destruct (Procedural.traverse_st Procedural.highlightChild model w) as [model' w1] eqn:Et.
  symmetry in Ev.
  pose proof (visit_lit w (nodes model) [] w L (highlightedUpTo_nil w)) as H.
  rewrite Ev in H. cbn [app] in H. destruct H as (Hm & Hf & [P1 P2]).
  destruct (restore_pass (nodes model') w1 Hf) as (w2 & E2 & F2 & _).
  { intros m Hm'. apply highlightedIn_litAt, P1. by apply (touched_same _ _ m Hm). }
  exists model', w1, w2. split; [reflexivity|]. split; [exact Ev|]. split; [|split; [exact E2|split]].
  - unfold Procedural.selectModel, Procedural.deselectModel. rewrite Hsel.
    destruct (decide (None = Some a)) as [?|_]; [discriminate|].
    cbn [Procedural.models]. by rewrite Hmodel, Et.
  - unfold Procedural.deselectModel. cbn [Procedural.selectedModel Procedural.models].
    by rewrite lookup_insert_eq, E2.
  - intros m Hm'. rewrite F2; [by apply P2|].
    intros H. by apply Hm', (touched_same _ _ m Hm).
Qed.

(** In the procedural variant the original values are cached inside the
    traversal that applies the highlight.  On a model whose mesh materials
    are all single lit materials, with nothing cached yet, and in which two
    meshes share the material [m]: [selectModel] returns, and the later of
    the two meshes has cached the highlight colour and intensity;
    [deselectModel] then returns and leaves [m] with the highlight colour
    0x333333 and the intensity 0.3, whatever its values were.  Materials the
    model does not use are not changed. *)
Theorem procedural_shared_material_stays_highlighted :
  forall (s : Procedural.t) (w : World) (a : Addr) (model : Object3D) (m : MatId)
         (i j : nat) (d1 d2 : Node.t),
    Procedural.selectedModel s = None ->
    Procedural.models s !! a = Some model ->
    litModel w model ->
    i < j ->
    nodes model !! i = Some d1 ->
    nodes model !! j = Some d2 ->
    nodeMaterial d1 = Some m ->
    nodeMaterial d2 = Some m ->
    let '(r1, s1, w1) := Procedural.selectModel a s w in
    let '(r2, s2, w2) := Procedural.deselectModel s1 w1 in
    r1 = JS.Normal tt
    /\ Procedural.selectedModel s1 = Some a
    /\ (exists model' d2',
          Procedural.models s1 !! a = Some model'
          /\ nodes model' !! j = Some d2'
          /\ Node.userData d2' = highlightData)
    /\ r2 = JS.Normal tt
    /\ Procedural.selectedModel s2 = None
    /\ emissiveOf w2 m = Some (Some (Hex 0x333333), Some 0.3%float)
    /\ (forall m', ~ touched (nodes model) m' -> mats w2 !! m' = mats w !! m').
Proof.
  intros s w a model m i j d1 d2 Hsel Hmodel L Hij H1 H2 M1 M2.
  destruct (select_then_deselect s w a model Hsel Hmodel L)
    as (model' & w1 & w2 & _ & Ev & Es & Et & Ed & Frame).
  rewrite Es, Ed.
  split; [reflexivity|]. split; [reflexivity|].
  split; [|split; [reflexivity|split; [reflexivity|split; [|exact Frame]]]].
  - (* the cache of the later mesh *)
    pose proof (take_drop_middle (nodes model) j d2 H2) as Hsplit.
    pose proof (visit_lit_at w (take j (nodes model)) d2 (drop (S j) (nodes model))) as H.
    rewrite Hsplit, Ev in H. destruct (H L) as (_ & _ & pre' & d' & post' & El & Hlen & _ & _ & _ & Hhi & _).
    exists model', d'. cbn [Procedural.models]. split; [by rewrite lookup_insert_eq|].
    split.
    + rewrite El. rewrite length_take in Hlen.
      assert (Hj : j < length (nodes model)) by (by eapply lookup_lt_Some).
      apply list_lookup_middle. lia.
    + apply (Hhi m M2). unfold touched. rewrite <- M1.
      apply in_map, list_elem_of_In. apply (list_elem_of_lookup_2 _ i).
      rewrite lookup_take_lt by exact Hij. exact H1.
  - (* the last mesh that uses [m] restores what it cached *)
    destruct (last_toucher m (nodes model) i j d1 d2 Hij H1 H2 M1 M2)
      as (pre & d & post & Hsplit & Md & Tpre & Npost).
    pose proof (visit_lit_at w pre d post) as H.
    rewrite <- Hsplit, Ev in H.
    destruct (H L)
      as ([P1 _] & Hf & pre' & d' & post' & El & _ & Mpre & Mn & Mpost & Hhi & _).
    rewrite El in Et, Hf.
    apply Forall_app in Hf as [Fpre Fd]. apply List.Forall_cons_iff in Fd as [Fd Fpost].
    assert (Lit1 : forall m', touched (nodes model) m' -> litAt w1 m')
      by (intros m' Hm'; by apply highlightedIn_litAt, P1).
    rewrite traverse_try_app in Et.
    destruct (restore_pass pre' w1 Fpre) as (wa & Ea & _ & Ka).
    { intros m' Hm'. apply Lit1. rewrite Hsplit. apply touched_app. left.
      by apply (touched_same pre pre' m' Mpre). }
    rewrite Ea in Et. cbn [SceneObject.traverse_try] in Et.
    destruct (restoreChild_cached d' wa Fd) as (wb & Eb & _ & Vb & Kb).
    { intros m' Hm'. apply Ka, Lit1. rewrite Hsplit. apply touched_app. right.
      apply touched_cons. left. congruence. }
    rewrite Eb in Et.
    destruct (restore_pass post' wb Fpost) as (wc & Ec & Fc & _).
    { intros m' Hm'. apply Kb, Ka, Lit1. rewrite Hsplit. apply touched_app. right.
      apply touched_cons. right. by apply (touched_same post post' m' Mpost). }
    rewrite Ec in Et. injection Et as <-.
    unfold emissiveOf. rewrite Fc.
    + fold (emissiveOf wb m). rewrite (Vb m) by congruence.
      by rewrite (Hhi m Md Tpre).
    + intros T. by apply Npost, (touched_same post post' m Mpost).
Qed.

Lemma litModel_twinModel : litModel Example.world0 twinModel.
Proof.
  intros d [<-|[<-|[<-|[]]]] E; try discriminate E; (split; [reflexivity|]);
    exists 5%positive, Example.bodyMat, (Hex 0x102030), 1%float; by vm_compute.
Qed.

Lemma procedural_shared_material_stays_highlighted_witness :
  let s0 := Procedural.mk (<[1%positive := twinModel]> ∅) None in
  let selected := Procedural.selectModel 1%positive s0 Example.world0 in
  let deselected := Procedural.deselectModel (snd (fst selected)) (snd selected) in
  litModel Example.world0 twinModel
  /\ emissiveOf Example.world0 5%positive = Some (Some (Hex 0x102030), Some 1%float)
  /\ fst (fst deselected) = JS.Normal tt
  /\ emissiveOf (snd deselected) 5%positive = Some (Some (Hex 0x333333), Some 0.3%float).
Proof.
  cbv zeta. split; [exact litModel_twinModel|]. split; [vm_compute; reflexivity|].
  set (s0 := Procedural.mk (<[1%positive := twinModel]> ∅) None).
  assert (Hm : Procedural.models s0 !! 1%positive = Some twinModel)
    by (vm_compute; reflexivity).
  assert (Hij : 1 < 2) by lia.
  pose proof (procedural_shared_material_stays_highlighted
                s0 Example.world0 1%positive twinModel 5%positive 1 2
                (Example.meshNode 501%positive "Left" 8%positive 5%positive)
                (Example.meshNode 502%positive "Right" 9%positive 5%positive)
                eq_refl Hm litModel_twinModel Hij eq_refl eq_refl eq_refl eq_refl) as H.
  destruct (Procedural.selectModel _ _ _) as [[r1 s1] w1]. cbn [fst snd].
  destruct (Procedural.deselectModel s1 w1) as [[r2 s2] w2]. cbn [fst snd].
  by destruct H as (_ & _ & _ & Hr & _ & Hv & _).
Defined.

(* --------------------------------------------------------------------- *)
(** ** Brightness right after start-up *)

(** Claim C3, on the code: a studio change made right after start-up does
    not keep the brightness of the screen.  [initializeStudioManager] builds
    the screen while [globalBrightness] is still [1.0] and then sets
    [globalBrightness] to the intensity the asset had, although
    [onStudioChange] reads [globalBrightness] as the current screen state.
    With the Madrid example (asset intensity 2) and a custom texture chosen,
    the bound screen and its material have brightness 1 while the controller
    holds 2; the studio change binds the new screen with the same texture but
    with brightness 2. *)
Theorem studio_change_after_startup_changes_brightness :
  let s := LEDStageApp.step (LEDStageApp.TextureChosen (Some 50%positive)) startedApp in
  let s' := LEDStageApp.step (LEDStageApp.StudioChange loadBoth "BARCELONA") s in
  (LEDScreen.currentTexture <$> LEDStageApp.ledScreen s) = Some (Some 50%positive)
  /\ (LEDScreen.brightness <$> LEDStageApp.ledScreen s) = Some 1%float
  /\ emissiveOf (LEDStageApp.world s) 1%positive = Some (Some (Hex 0), Some 1%float)
  /\ globalBrightness (LEDStageApp.globals s) = 2%float
  /\ (LEDScreen.material <$> LEDStageApp.ledScreen s') = Some (Some 3%positive)
  /\ (LEDScreen.currentTexture <$> LEDStageApp.ledScreen s') = Some (Some 50%positive)
  /\ (LEDScreen.brightness <$> LEDStageApp.ledScreen s') = Some 2%float
  /\ emissiveOf (LEDStageApp.world s') 3%positive = Some (Some (Hex 0), Some 2%float)
  /\ (LEDScreen.brightness <$> LEDStageApp.ledScreen s')
     <> (LEDScreen.brightness <$> LEDStageApp.ledScreen s).
Proof.
  vm_compute. repeat split.
  intros H.
  apply (f_equal (fun o => match o with
                           | Some x => PrimFloat.eqb x 1%float
                           | None => false
                           end)) in H.
  vm_compute in H. discriminate.
Qed.

(* ===================================================================== *)
(** * Further properties of the classes *)
(* ===================================================================== *)

(** ** LEDScreen: how the mutating methods compose *)

(** The last brightness and the last texture delivered by a sequence of
    calls. *)
Definition lastBrightness (cs : list LEDScreen.call) : option float :=
  last (omap (fun c => match c with
                       | LEDScreen.CallSetBrightness v => Some v
                       | _ => None
                       end) cs).

Definition lastTexture (cs : list LEDScreen.call) : option TexId :=
  last (omap (fun c => match c with
                       | LEDScreen.CallSetCustomTexture loaded => loaded
                       | _ => None
                       end) cs).

(** What a bound screen, the controller and the bound material show of the
    brightness and the texture. *)
Record ScreenView : Type := mkScreenView {
  view_brightness : float;
  view_intensity : option float;
  view_currentTexture : option TexId;
  view_map : option TexId;
  view_emissiveMap : option TexId;
  view_globals : Globals
}.

Definition screenView (mid : MatId) (st : LEDScreen.t * Globals * World)
    : option ScreenView :=
  let '(s, g, w) := st in
  (fun mat =>
     mkScreenView (LEDScreen.brightness s) (Material.emissiveIntensity mat)
       (LEDScreen.currentTexture s) (Material.map mat) (Material.emissiveMap mat) g)
  <$> mats w !! mid.

(** The view after the brightness [v] was written. *)
Definition withBrightness (app : bool) (v : float) (x : ScreenView) : ScreenView :=
  mkScreenView v (Some v) (view_currentTexture x) (view_map x) (view_emissiveMap x)
    (if app
     then mkGlobals (globalCustomTexture (view_globals x))
                    (globalCustomEmissiveTexture (view_globals x)) v
     else view_globals x).

(** The view after the texture [t] was applied. *)
Definition withTexture (app : bool) (t : TexId) (x : ScreenView) : ScreenView :=
  mkScreenView (view_brightness x) (view_intensity x) (Some t) (Some t) (Some t)
    (if app
     then mkGlobals (Some t) (Some t) (globalBrightness (view_globals x))
     else view_globals x).

Definition withLast {A : Type} (f : A -> ScreenView -> ScreenView) (o : option A)
    (x : ScreenView) : ScreenView :=
  match o with
  | Some a => f a x
  | None => x
  end.

Lemma run_view (c : LEDScreen.call) (mid : MatId) (s : LEDScreen.t) (g : Globals)
    (w : World) (x : ScreenView) :
  LEDScreen.material s = Some mid ->
  screenView mid (s, g, w) = Some x ->
  let st' := LEDScreen.run c (s, g, w) in
  LEDScreen.material (fst (fst st')) = Some mid
  /\ LEDScreen.app (fst (fst st')) = LEDScreen.app s
  /\ screenView mid st'
     = Some match c with
            | LEDScreen.CallSetBrightness v => withBrightness (LEDScreen.app s) v x
            | LEDScreen.CallSetCustomTexture (Some t) => withTexture (LEDScreen.app s) t x
            | LEDScreen.CallSetCustomTexture None => x
            end.
Proof.
  intros Hm Hx. unfold screenView in Hx.
  destruct (mats w !! mid) as [mat|] eqn:Hmat; [|discriminate].
  injection Hx as <-.
  destruct c as [[t|]|v]; cbn [LEDScreen.run];
    unfold LEDScreen.setCustomTexture, LEDScreen.setBrightness; rewrite Hm;
    cbn [fst snd screenView LEDScreen.material LEDScreen.app
         LEDScreen.set_currentTexture LEDScreen.set_brightness].
  - split; [exact Hm|]. split; [reflexivity|].
    rewrite !lookup_update_mat_eq. cbn [mats set_texs]. rewrite Hmat.
    unfold withTexture. cbn. by destruct (LEDScreen.app s).
  - split; [exact Hm|]. split; [reflexivity|]. by rewrite Hmat.
  - split; [exact Hm|]. split; [reflexivity|].
    rewrite !lookup_update_mat_eq, Hmat.
    unfold withBrightness. cbn. by destruct (LEDScreen.app s).
Qed.

Lemma withBrightness_withTexture (app : bool) (v : float) (t : TexId) (x : ScreenView) :
  withBrightness app v (withTexture app t x) = withTexture app t (withBrightness app v x).
Proof. by destruct app. Qed.

Lemma withBrightness_twice (app : bool) (v v' : float) (x : ScreenView) :
  withBrightness app v' (withBrightness app v x) = withBrightness app v' x.
Proof. by destruct app. Qed.

Lemma withTexture_twice (app : bool) (t t' : TexId) (x : ScreenView) :
  withTexture app t' (withTexture app t x) = withTexture app t' x.
Proof. by destruct app. Qed.

Lemma lastBrightness_snoc (cs : list LEDScreen.call) (c : LEDScreen.call) :
  lastBrightness (cs ++ [c])
  = match c with
    | LEDScreen.CallSetBrightness v => Some v
    | _ => lastBrightness cs
    end.
Proof.
  unfold lastBrightness. rewrite omap_app.
  destruct c as [loaded|v]; cbn; [by rewrite app_nil_r|by rewrite last_snoc].
Qed.

Lemma lastTexture_snoc (cs : list LEDScreen.call) (c : LEDScreen.call) :
  lastTexture (cs ++ [c])
  = match c with
    | LEDScreen.CallSetCustomTexture (Some t) => Some t
    | _ => lastTexture cs
    end.
Proof.
  unfold lastTexture. rewrite omap_app.
  destruct c as [[t|]|v]; cbn; [by rewrite last_snoc|by rewrite app_nil_r..].
Qed.

Lemma withLast_snoc (app : bool) (cs : list LEDScreen.call) (c : LEDScreen.call)
    (x : ScreenView) :
  withLast (withBrightness app) (lastBrightness (cs ++ [c]))
    (withLast (withTexture app) (lastTexture (cs ++ [c])) x)
  = match c with
    | LEDScreen.CallSetBrightness v => withBrightness app v
    | LEDScreen.CallSetCustomTexture (Some t) => withTexture app t
    | LEDScreen.CallSetCustomTexture None => fun y => y
    end (withLast (withBrightness app) (lastBrightness cs)
           (withLast (withTexture app) (lastTexture cs) x)).
Proof.
  rewrite lastBrightness_snoc, lastTexture_snoc.
  destruct c as [[t|]|v]; destruct (lastBrightness cs) as [v0|];
    destruct (lastTexture cs) as [t0|]; cbn [withLast];
    rewrite ?withBrightness_withTexture, ?withTexture_twice, ?withBrightness_twice;
    reflexivity.
Qed.

(** On a bound screen the last call of each kind wins: after any sequence
    of [setBrightness] calls and texture loads, the screen, the bound material
    and (for a screen of the controller) the global state show the brightness
    of the last [setBrightness] and the texture of the last load that
    delivered one, and what they showed before where there was no such call.
    Brightness and texture do not disturb each other. *)
Theorem last_call_of_each_kind_wins :
  forall (cs : list LEDScreen.call) (mid : MatId) (s : LEDScreen.t) (g : Globals)
         (w : World) (x : ScreenView),
    LEDScreen.material s = Some mid ->
    screenView mid (s, g, w) = Some x ->
    screenView mid (LEDScreen.runAll cs (s, g, w))
    = Some (withLast (withBrightness (LEDScreen.app s)) (lastBrightness cs)
              (withLast (withTexture (LEDScreen.app s)) (lastTexture cs) x)).
Proof.
  intros cs mid s g w x Hm Hx.
  enough (H : LEDScreen.material (fst (fst (LEDScreen.runAll cs (s, g, w)))) = Some mid
              /\ LEDScreen.app (fst (fst (LEDScreen.runAll cs (s, g, w)))) = LEDScreen.app s
              /\ screenView mid (LEDScreen.runAll cs (s, g, w))
                 = Some (withLast (withBrightness (LEDScreen.app s)) (lastBrightness cs)
                           (withLast (withTexture (LEDScreen.app s)) (lastTexture cs) x)))
    by apply H.
  induction cs as [|c cs IH] using rev_ind.
  - by repeat split.
  - unfold LEDScreen.runAll in *. rewrite fold_left_app. cbn [fold_left].
    destruct (fold_left _ cs (s, g, w)) as [[s1 g1] w1].
    destruct IH as (Hm1 & Ha1 & Hv1). cbn [fst] in Hm1, Ha1.
    destruct (run_view c mid s1 g1 w1 _ Hm1 Hv1) as (Hm2 & Ha2 & Hv2).
    split; [exact Hm2|]. split; [congruence|].
    rewrite Hv2, Ha1. f_equal.
    rewrite withLast_snoc. by destruct c as [[t|]|v].
Qed.

Lemma last_call_of_each_kind_wins_witness :
  let g := mkGlobals None None 1%float in
  let bound := LEDScreen.new (Some Example.barcelona) "M_WhiteScreen" true g
                 Example.world0 in
  let cs := [LEDScreen.CallSetBrightness 0.7%float;
             LEDScreen.CallSetCustomTexture (Some 50%positive);
             LEDScreen.CallSetBrightness 0.4%float;
             LEDScreen.CallSetCustomTexture None] in
  LEDScreen.material (fst bound) = Some 3%positive
  /\ (view_intensity <$> screenView 3%positive (LEDScreen.runAll cs (fst bound, g, snd bound)))
     = Some (Some 0.4%float)
  /\ (view_map <$> screenView 3%positive (LEDScreen.runAll cs (fst bound, g, snd bound)))
     = Some (Some 50%positive).
Proof.
  cbv zeta.
  set (g := mkGlobals None None 1%float).
  set (bound := LEDScreen.new (Some Example.barcelona) "M_WhiteScreen" true g
                  Example.world0).
  assert (Hm : LEDScreen.material (fst bound) = Some 3%positive)
    by (vm_compute; reflexivity).
  split; [exact Hm|].
  destruct (screenView 3%positive (fst bound, g, snd bound)) as [x|] eqn:Hx;
    [|vm_compute in Hx; discriminate].
  rewrite (last_call_of_each_kind_wins _ 3%positive (fst bound) g (snd bound) x Hm Hx).
  vm_compute in Hx. injection Hx as <-. vm_compute. by split.
Defined.

(** ** LEDScreen: what the methods leave alone *)

Lemma findTargetMaterial_world (s : LEDScreen.t) (w : World) :
  let w' := snd (LEDScreen.findTargetMaterial s w) in
  mats w' = mats w /\ texs w' = texs w /\ disposed w' = disposed w /\ scene w' = scene w.
Proof.
  unfold LEDScreen.findTargetMaterial.
  destruct (LEDScreen.mesh s) as [m|]; [|by repeat split].
  cbv zeta. destruct (LEDScreen.material (LEDScreen.scanMesh w m s)); [by repeat split|].
  cbn [snd]. unfold LEDScreen.logAvailableMaterials.
  set (l := LEDScreen.availableMaterials _ m). clearbody l.
  set (w0 := log _ w).
  assert (H0 : mats w0 = mats w /\ texs w0 = texs w /\ disposed w0 = disposed w
               /\ scene w0 = scene w) by by repeat split.
  clearbody w0. revert w0 H0.
  induction l as [|c l IH]; intros w0 H0; [exact H0|].
  cbn [fold_left]. apply IH. exact H0.
Qed.

(** The part of the world outside the material [mid]. *)
Definition sameOutside (mid : option MatId) (w w' : World) : Prop :=
  (forall mid', mid <> Some mid' -> mats w' !! mid' = mats w !! mid')
  /\ disposed w' = disposed w
  /\ scene w' = scene w.

Lemma sameOutside_refl (mid : option MatId) (w : World) : sameOutside mid w w.
Proof. by repeat split. Qed.

Lemma sameOutside_trans (mid : option MatId) (w1 w2 w3 : World) :
  sameOutside mid w1 w2 -> sameOutside mid w2 w3 -> sameOutside mid w1 w3.
Proof.
  intros (A1 & A2 & A3) (B1 & B2 & B3). split; [|split; congruence].
  intros mid' H. by rewrite B1, A1.
Qed.

Lemma sameOutside_update_mat (mid : MatId) (f : Material.t -> Material.t) (w : World) :
  sameOutside (Some mid) w (update_mat mid f w).
Proof.
  split; [|by split]. intros mid' H.
  apply lookup_update_mat_ne. congruence.
Qed.

Lemma sameOutside_set_texs (mid : option MatId)
    (f : gmap TexId Texture.t -> gmap TexId Texture.t) (w : World) :
  sameOutside mid w (set_texs f w).
Proof. by repeat split. Qed.

Lemma sameOutside_log (mid : option MatId) (c : Console) (w : World) :
  sameOutside mid w (log c w).
Proof. by repeat split. Qed.

Ltac same_outside :=
  repeat lazymatch goal with
    | |- sameOutside _ ?w ?w => apply sameOutside_refl
    | |- sameOutside _ _ (update_mat _ _ _) =>
        eapply sameOutside_trans; [|apply sameOutside_update_mat]
    | |- sameOutside _ _ (set_texs _ _) =>
        eapply sameOutside_trans; [|apply sameOutside_set_texs]
    | |- sameOutside _ _ (log _ _) =>
        eapply sameOutside_trans; [|apply sameOutside_log]
    end.

Lemma applyGlobalState_sameOutside (s : LEDScreen.t) (g : Globals) (w : World) :
  sameOutside (LEDScreen.material s) w (snd (LEDScreen.applyGlobalState s g w)).
Proof.
  unfold LEDScreen.applyGlobalState.
  destruct (LEDScreen.material s) as [mid|]; [|apply sameOutside_refl].
  destruct (LEDScreen.app s); [|apply sameOutside_refl].
  destruct (globalCustomTexture g); cbn [snd]; same_outside.
Qed.

Lemma run_sameOutside (c : LEDScreen.call) (s : LEDScreen.t) (g : Globals) (w : World) :
  sameOutside (LEDScreen.material s) w (snd (LEDScreen.run c (s, g, w))).
Proof.
  destruct c as [[t|]|v]; cbn [LEDScreen.run];
    unfold LEDScreen.setCustomTexture, LEDScreen.setBrightness;
    destruct (LEDScreen.material s) as [mid|]; cbn [snd]; same_outside.
Qed.

Lemma resetToOriginal_sameOutside (s : LEDScreen.t) (g : Globals) (w : World) :
  sameOutside (LEDScreen.material s) w (snd (LEDScreen.resetToOriginal s g w)).
Proof.
  unfold LEDScreen.resetToOriginal.
  destruct (LEDScreen.material s) as [mid|]; cbn [snd]; same_outside.
Qed.

Lemma new_sameOutside (m : option Object3D) (name : string) (app : bool)
    (g : Globals) (w : World) :
  sameOutside (LEDScreen.material (fst (LEDScreen.new m name app g w))) w
    (snd (LEDScreen.new m name app g w)).
Proof.
  unfold LEDScreen.new.
  pose proof (findTargetMaterial_world
                (LEDScreen.mk m name None None None 1 None 1 app) w) as F.
  destruct (LEDScreen.findTargetMaterial _ w) as [s1 w1]. cbn [snd] in F.
  destruct F as (Fm & _ & Fd & Fs).
  pose proof (applyGlobalState_keeps_binding s1 g w1) as [(Bm & _) _].
  pose proof (applyGlobalState_sameOutside s1 g w1) as (A1 & A2 & A3).
  destruct (LEDScreen.applyGlobalState s1 g w1) as [s2 w2]. cbn [fst snd] in *.
  rewrite Bm. split; [|split; congruence].
  intros mid' H. by rewrite A1, Fm.
Qed.

Lemma runAll_sameOutside (cs : list LEDScreen.call) :
  forall (s : LEDScreen.t) (g : Globals) (w : World),
    sameOutside (LEDScreen.material s) w (snd (LEDScreen.runAll cs (s, g, w))).
Proof.
  unfold LEDScreen.runAll.
  induction cs as [|c cs IH]; intros s g w; cbn [fold_left]; [apply sameOutside_refl|].
  pose proof (run_sameOutside c s g w) as H1.
  pose proof (run_keeps_binding c s g w) as H2.
  destruct (LEDScreen.run c (s, g, w)) as [[s1 g1] w1]. cbn [snd] in H1.
  destruct H2 as [(Bm & _) _].
  eapply sameOutside_trans; [exact H1|]. rewrite <- Bm. apply IH.
Qed.

(** The constructor, [setCustomTexture], [setBrightness] and
    [resetToOriginal] write to the bound material only: whatever the mesh, the
    controller state and the calls, every other material is as it was, and
    nothing is disposed or taken out of or put into the scene. *)
Theorem screen_methods_touch_only_the_bound_material :
  forall (m : option Object3D) (name : string) (app : bool) (g : Globals)
         (w : World) (cs : list LEDScreen.call),
    let '(s0, w0) := LEDScreen.new m name app g w in
    let '(s1, g1, w1) := LEDScreen.runAll cs (s0, g, w0) in
    let '(s2, g2, w2) := LEDScreen.resetToOriginal s1 g1 w1 in
    LEDScreen.material s2 = LEDScreen.material s0
    /\ sameOutside (LEDScreen.material s0) w w0
    /\ sameOutside (LEDScreen.material s0) w w1
    /\ sameOutside (LEDScreen.material s0) w w2.
Proof.
  intros m name app g w cs.
  pose proof (new_sameOutside m name app g w) as H0.
  destruct (LEDScreen.new m name app g w) as [s0 w0]. cbn [fst snd] in H0.
  pose proof (runAll_sameOutside cs s0 g w0) as H1.
  pose proof (runAll_keeps_binding cs s0 g w0) as B1.
  destruct (LEDScreen.runAll cs (s0, g, w0)) as [[s1 g1] w1]. cbn [snd] in H1.
  destruct B1 as [(Bm & _) _].
  pose proof (resetToOriginal_sameOutside s1 g1 w1) as H2.
  assert (B2 : LEDScreen.material (fst (fst (LEDScreen.resetToOriginal s1 g1 w1)))
               = LEDScreen.material s1).
  { unfold LEDScreen.resetToOriginal.
    destruct (LEDScreen.material s1) eqn:E; cbn; by rewrite ?E. }
  destruct (LEDScreen.resetToOriginal s1 g1 w1) as [[s2 g2] w2]. cbn [fst snd] in *.
  rewrite Bm in H2.
  split; [congruence|]. split; [exact H0|].
  split; [by eapply sameOutside_trans|].
  eapply sameOutside_trans; [|exact H2]. by eapply sameOutside_trans.
Qed.

(** ** LEDStudioManager: the studios that can be switched to *)

Lemma loadStudioData_Some (exists_ : string -> bool) (info : string * string * string)
    (st : Studio.t) :
  LEDStudioManager.loadStudioData exists_ info = Some st ->
  exists name displayName gltfFile,
    info = (name, displayName, gltfFile)
    /\ st = Studio.mk name displayName
              (LEDStudioManager.studioPath +:+ name +:+ "/" +:+ gltfFile)
              (LEDStudioManager.studioPath +:+ name +:+ "/")
    /\ exists_ (LEDStudioManager.studioPath +:+ name +:+ "/" +:+ gltfFile) = true.
Proof.
  destruct info as [[name displayName] gltfFile]. unfold LEDStudioManager.loadStudioData.
  destruct (exists_ _) eqn:E; [|discriminate].
  intros [= <-]. by exists name, displayName, gltfFile.
Qed.

(** After [loadAvailableStudios], [getStudioByName] finds a studio exactly
    when the name is one of the known studios and the HEAD request for its
    glTF file succeeded, and the record it returns carries that name and the
    path that was probed.  For any other name [switchStudio] returns [false]
    with one error logged, whatever the loader would deliver: the manager and
    the scene, with the studio that is current, stay as they are. *)
Theorem only_available_studios_are_switched_to :
  forall (exists_ : string -> bool) (loader : string -> option Object3D)
         (name : string) (preserve : bool) (m : LEDStudioManager.t) (w : World),
    let m1 := LEDStudioManager.loadAvailableStudios exists_ m in
    (forall st,
        LEDStudioManager.getStudioByName name m1 = Some st ->
        Studio.name st = name
        /\ exists_ (Studio.gltfPath st) = true
        /\ exists displayName gltfFile,
             In (name, displayName, gltfFile) LEDStudioManager.knownStudios
             /\ Studio.gltfPath st
                = LEDStudioManager.studioPath +:+ name +:+ "/" +:+ gltfFile)
    /\ (forall displayName gltfFile,
          In (name, displayName, gltfFile) LEDStudioManager.knownStudios ->
          exists_ (LEDStudioManager.studioPath +:+ name +:+ "/" +:+ gltfFile) = true ->
          is_Some (LEDStudioManager.getStudioByName name m1))
    /\ (LEDStudioManager.getStudioByName name m1 = None ->
        LEDStudioManager.switchStudio loader name preserve m1 w
        = (None, m1, log (Error "Studio not found:") w)).
Proof.
  intros exists_ loader name preserve m w. cbv zeta. split; [|split].
  - intros st H. unfold LEDStudioManager.getStudioByName in H.
    apply find_some in H as [Hin Hname].
    unfold LEDStudioManager.loadAvailableStudios in Hin.
    cbn [LEDStudioManager.availableStudios] in Hin.
    apply String.eqb_eq in Hname.
    apply list_elem_of_In, list_elem_of_omap in Hin as (info & Hinfo & Hload).
    apply loadStudioData_Some in Hload as (n & d & f & -> & -> & He).
    cbn in Hname. subst n. split; [reflexivity|]. split; [exact He|].
    exists d, f. split; [by apply list_elem_of_In|reflexivity].
  - intros d f Hin He. unfold LEDStudioManager.getStudioByName.
    destruct (find _ _) as [st|] eqn:Hf; [by eexists|]. exfalso.
    pose proof (find_none _ _ Hf
                  (Studio.mk name d
                     (LEDStudioManager.studioPath +:+ name +:+ "/" +:+ f)
                     (LEDStudioManager.studioPath +:+ name +:+ "/"))) as Hn.
    cbn [Studio.name] in Hn. rewrite String.eqb_refl in Hn.
    assert (true = false); [|discriminate]. apply Hn.
    unfold LEDStudioManager.loadAvailableStudios.
    cbn [LEDStudioManager.availableStudios].
    apply list_elem_of_In, list_elem_of_omap.
    exists (name, d, f). split; [by apply list_elem_of_In|].
    unfold LEDStudioManager.loadStudioData. by rewrite He.
  - intros H. unfold LEDStudioManager.switchStudio. by rewrite H.
Qed.

Lemma only_available_studios_are_switched_to_witness :
  let exists_ := String.eqb "public/LED_Studio/MADRID_15X5/LED_Studio_Madrid.gltf" in
  let m1 := LEDStudioManager.loadAvailableStudios exists_
              (LEDStudioManager.mk [] None None false) in
  LEDStudioManager.getStudioByName "BARCELONA" m1 = None
  /\ LEDStudioManager.switchStudio loadBoth "BARCELONA" true m1 Example.world0
     = (None, m1, log (Error "Studio not found:") Example.world0).
Proof.
  cbv zeta.
  assert (H : LEDStudioManager.getStudioByName "BARCELONA"
                (LEDStudioManager.loadAvailableStudios
                   (String.eqb "public/LED_Studio/MADRID_15X5/LED_Studio_Madrid.gltf")
                   (LEDStudioManager.mk [] None None false)) = None)
    by (vm_compute; reflexivity).
  split; [exact H|].
  destruct (only_available_studios_are_switched_to
              (String.eqb "public/LED_Studio/MADRID_15X5/LED_Studio_Madrid.gltf")
              loadBoth "BARCELONA" true (LEDStudioManager.mk [] None None false)
              Example.world0) as (_ & _ & Hnone).
  by apply Hnone.
Defined.

(** ** LEDStudioManager: a switch that preserves the screen state *)

(** What [applyScreenState] writes into a screen material. *)
Definition applied (st : LEDStudioManager.ScreenState) (mat : Material.t) : Material.t :=
  let m1 := match LEDStudioManager.emissiveIntensity st with
            | Some i => Material.set_emissiveIntensity (Some i) mat
            | None => mat
            end in
  let m2 := match LEDStudioManager.hasCustomTexture st,
                  LEDStudioManager.currentTexture st with
            | true, Some tex =>
                Material.set_emissiveMap (LEDStudioManager.emissiveTexture st)
                  (Material.set_map (Some tex) m1)
            | _, _ => m1
            end in
  Material.set_needsUpdate true m2.

Lemma applied_twice (st : LEDStudioManager.ScreenState) (mat : Material.t) :
  applied st (applied st mat) = applied st mat.
Proof.
  unfold applied.
  destruct (LEDStudioManager.emissiveIntensity st),
    (LEDStudioManager.hasCustomTexture st), (LEDStudioManager.currentTexture st);
    reflexivity.
Qed.

Lemma applied_name (st : LEDStudioManager.ScreenState) (mat : Material.t) :
  Material.name (applied st mat) = Material.name mat.
Proof.
  unfold applied.
  destruct (LEDStudioManager.emissiveIntensity st),
    (LEDStudioManager.hasCustomTexture st), (LEDStudioManager.currentTexture st);
    reflexivity.
Qed.

Lemma applyMaterial_lookup (st : LEDStudioManager.ScreenState) (w : World)
    (mid mid' : MatId) :
  mats (LEDStudioManager.applyMaterial st w mid) !! mid'
  = if decide (mid = mid') then
      (if hasName w LEDStudioManager.screenMaterialName mid
       then applied st <$> mats w !! mid'
       else mats w !! mid')
    else mats w !! mid'.
Proof.
  unfold LEDStudioManager.applyMaterial, hasName.
  destruct (decide (mid = mid')) as [<-|Hne].
  - destruct (mats w !! mid) as [mat|] eqn:Hmat; [|by rewrite Hmat].
    destruct (String.eqb _ _); [|by rewrite Hmat].
    unfold applied.
    destruct (LEDStudioManager.emissiveIntensity st),
      (LEDStudioManager.hasCustomTexture st), (LEDStudioManager.currentTexture st);
      rewrite !lookup_update_mat_eq, Hmat; reflexivity.
  - destruct (mats w !! mid) as [mat|]; [|reflexivity].
    destruct (String.eqb _ _); [|reflexivity].
    destruct (LEDStudioManager.emissiveIntensity st),
      (LEDStudioManager.hasCustomTexture st), (LEDStudioManager.currentTexture st);
      rewrite !lookup_update_mat_ne by assumption; reflexivity.
Qed.

Lemma applyMaterial_hasName (st : LEDStudioManager.ScreenState) (w : World)
    (mid : MatId) (name : string) (mid' : MatId) :
  hasName (LEDStudioManager.applyMaterial st w mid) name mid' = hasName w name mid'.
Proof.
  unfold hasName at 1. rewrite applyMaterial_lookup.
  destruct (decide (mid = mid')) as [<-|Hne]; [|reflexivity].
  destruct (hasName w LEDStudioManager.screenMaterialName mid); [|reflexivity].
  unfold hasName. destruct (mats w !! mid) as [mat|]; [|reflexivity].
  change (String.eqb (Material.name (applied st mat)) name
          = String.eqb (Material.name mat) name).
  by rewrite applied_name.
Qed.

Lemma applyMaterial_world (st : LEDStudioManager.ScreenState) (w : World) (mid : MatId) :
  let w' := LEDStudioManager.applyMaterial st w mid in
  texs w' = texs w /\ disposed w' = disposed w /\ scene w' = scene w
  /\ console w' = console w.
Proof.
  unfold LEDStudioManager.applyMaterial.
  destruct (mats w !! mid) as [mat|]; [|by repeat split].
  destruct (String.eqb _ _); [|by repeat split].
  destruct (LEDStudioManager.emissiveIntensity st),
    (LEDStudioManager.hasCustomTexture st), (LEDStudioManager.currentTexture st);
    by repeat split.
Qed.

Lemma fold_applyMaterial (st : LEDStudioManager.ScreenState) (l : list MatId) :
  forall w : World,
    let w' := fold_left (LEDStudioManager.applyMaterial st) l w in
    (forall mid,
        mats w' !! mid
        = if existsb (Pos.eqb mid) l && hasName w LEDStudioManager.screenMaterialName mid
          then applied st <$> mats w !! mid
          else mats w !! mid)
    /\ texs w' = texs w /\ disposed w' = disposed w /\ scene w' = scene w
    /\ console w' = console w.
Proof.
  induction l as [|a l IH]; intros w; cbv zeta.
  - by repeat split.
  - cbn [fold_left existsb].
    destruct (IH (LEDStudioManager.applyMaterial st w a)) as (L & T & D & S & C).
    pose proof (applyMaterial_world st w a) as (T1 & D1 & S1 & C1).
    split; [|repeat split; congruence].
    intros mid. rewrite L, applyMaterial_hasName, applyMaterial_lookup.
    destruct (hasName w LEDStudioManager.screenMaterialName mid) eqn:Hn;
      rewrite ?andb_true_r, ?andb_false_r.
    + destruct (decide (a = mid)) as [->|Hne].
      * rewrite Hn, Pos.eqb_refl. cbn [orb].
        destruct (existsb (Pos.eqb mid) l); [|reflexivity].
        rewrite <- option_fmap_compose. apply option_fmap_ext.
        intros mat. apply applied_twice.
      * assert (E : Pos.eqb mid a = false) by (apply Pos.eqb_neq; congruence).
        by rewrite E.
    + destruct (decide (a = mid)) as [->|Hne]; [by rewrite Hn|reflexivity].
Qed.

(** [material.map] of the material at [mid] passes the test for a custom
    texture in [extractScreenState]. *)
Definition customAt (w : World) (mid : MatId) : bool :=
  match mats w !! mid with
  | Some mat => LEDStudioManager.isCustom w (Material.map mat)
  | None => false
  end.

Lemma fold_extractMaterial (w : World) (l : list MatId)
    (st0 : LEDStudioManager.ScreenState) :
  let st := fold_left (LEDStudioManager.extractMaterial w) l st0 in
  match last (List.filter (hasName w LEDStudioManager.screenMaterialName) l) with
  | Some mid =>
      exists mat,
        mats w !! mid = Some mat
        /\ LEDStudioManager.currentTexture st = Material.map mat
        /\ LEDStudioManager.emissiveTexture st = Material.emissiveMap mat
        /\ LEDStudioManager.emissiveIntensity st = Material.emissiveIntensity mat
        /\ LEDStudioManager.baseColorTexture st = Material.map mat
  | None => st = st0
  end
  /\ LEDStudioManager.hasCustomTexture st
     = LEDStudioManager.hasCustomTexture st0
       || existsb (customAt w)
            (List.filter (hasName w LEDStudioManager.screenMaterialName) l).
Proof.
  induction l as [|a l IH] using rev_ind; cbv zeta.
  - cbn. split; [reflexivity|]. by rewrite orb_false_r.
  - rewrite fold_left_app, List.filter_app. cbn [fold_left List.filter].
    cbv zeta in IH. destruct IH as [IH1 IH2].
    set (st := fold_left (LEDStudioManager.extractMaterial w) l st0) in *.
    destruct (hasName w LEDStudioManager.screenMaterialName a) eqn:Hn.
    + unfold hasName in Hn.
      destruct (mats w !! a) as [mat|] eqn:Hmat; [|discriminate].
      assert (Hc : customAt w a = LEDStudioManager.isCustom w (Material.map mat))
        by (unfold customAt; by rewrite Hmat).
      unfold LEDStudioManager.extractMaterial. rewrite Hmat, Hn.
      rewrite last_snoc, existsb_app. cbn [existsb]. rewrite Hc.
      cbn [LEDStudioManager.hasCustomTexture
           LEDStudioManager.currentTexture LEDStudioManager.emissiveTexture
           LEDStudioManager.emissiveIntensity LEDStudioManager.baseColorTexture].
      split; [by exists mat|].
      rewrite IH2, orb_false_r.
      destruct (LEDStudioManager.isCustom w (Material.map mat));
        [by rewrite !orb_true_r|by rewrite orb_false_r].
    + rewrite app_nil_r.
      assert (E : LEDStudioManager.extractMaterial w st a = st).
      { unfold LEDStudioManager.extractMaterial. unfold hasName in Hn.
        destruct (mats w !! a) as [mat|]; [|reflexivity]. by rewrite Hn. }
      rewrite E. by split.
Qed.

Lemma extractScreenState_spec (w : World) (mesh : Object3D) :
  let st := LEDStudioManager.extractScreenState w mesh in
  match last (matchingMaterials w LEDStudioManager.screenMaterialName mesh) with
  | Some mid =>
      exists mat,
        mats w !! mid = Some mat
        /\ LEDStudioManager.currentTexture st = Material.map mat
        /\ LEDStudioManager.emissiveTexture st = Material.emissiveMap mat
        /\ LEDStudioManager.emissiveIntensity st = Material.emissiveIntensity mat
        /\ LEDStudioManager.baseColorTexture st = Material.map mat
  | None => st = LEDStudioManager.mkScreenState None None None None false
  end
  /\ LEDStudioManager.hasCustomTexture st
     = existsb (customAt w)
         (matchingMaterials w LEDStudioManager.screenMaterialName mesh).
Proof.
  unfold LEDStudioManager.extractScreenState, matchingMaterials, visitedMaterials.
  rewrite fold_left_concat_map.
  apply (fold_extractMaterial w _ (LEDStudioManager.mkScreenState None None None None false)).
Qed.

Lemma applyScreenState_spec (new : Object3D) (st : LEDStudioManager.ScreenState)
    (w : World) :
  let w' := LEDStudioManager.applyScreenState new st w in
  (forall mid,
      In mid (matchingMaterials w LEDStudioManager.screenMaterialName new) ->
      mats w' !! mid = applied st <$> mats w !! mid)
  /\ (forall mid,
        ~ In mid (matchingMaterials w LEDStudioManager.screenMaterialName new) ->
        mats w' !! mid = mats w !! mid)
  /\ texs w' = texs w /\ disposed w' = disposed w /\ scene w' = scene w.
Proof.
  unfold LEDStudioManager.applyScreenState, matchingMaterials.
  rewrite fold_left_concat_map. fold (visitedMaterials new).
  destruct (fold_applyMaterial st (visitedMaterials new) w) as (L & T & D & S & _).
  split; [|split; [|by repeat split]].
  - intros mid Hin. apply filter_In in Hin as [Hin Hn]. rewrite L, Hn, andb_true_r.
    assert (E : existsb (Pos.eqb mid) (visitedMaterials new) = true).
    { apply existsb_exists. exists mid. split; [exact Hin|apply Pos.eqb_refl]. }
    by rewrite E.
  - intros mid Hin. rewrite L.
    destruct (existsb (Pos.eqb mid) (visitedMaterials new)) eqn:E; [|reflexivity].
    destruct (hasName w LEDStudioManager.screenMaterialName mid) eqn:Hn; [|reflexivity].
    exfalso. apply Hin. apply filter_In. split; [|exact Hn].
    apply existsb_exists in E as (x & Hx & Ex). apply Pos.eqb_eq in Ex. by subst.
Qed.

Lemma mats_after_removal_and_insertion (old new : Object3D) (w : World) :
  mats (scene_add (ChildObject (Node.uuid (root new)))
          (LEDStudioManager.disposeStudioMesh old
             (scene_remove (ChildObject (Node.uuid (root old))) w)))
  = mats w.
Proof. by rewrite disposeStudioMesh_disposing. Qed.

(** [switchStudio] with [preserveScreenState = true], from one studio to
    another: the state extracted from the last screen material of the old
    studio is written into every screen material of the new one.  Each of them
    takes the emissive intensity of the old screen (when it has one), and,
    when the old screen showed a custom texture, that texture with the old
    emissive map; with no custom texture anywhere in the old studio the
    textures of the new studio stay.  Materials with another name are not
    written to. *)
Theorem switch_with_preservation_carries_the_screen_state :
  forall (loader : string -> option Object3D) (name : string)
         (m : LEDStudioManager.t) (w : World) (studio : Studio.t)
         (old new : Object3D) (mo : MatId) (mato : Material.t),
    LEDStudioManager.getStudioByName name m = Some studio ->
    LEDStudioManager.currentStudioMesh m = Some old ->
    LEDStudioManager.loadStudioMesh loader studio = Some new ->
    last (matchingMaterials w LEDStudioManager.screenMaterialName old) = Some mo ->
    mats w !! mo = Some mato ->
    let '(res, m', w') := LEDStudioManager.switchStudio loader name true m w in
    let st := LEDStudioManager.extractScreenState w old in
    res = Some (new, Some st)
    /\ LEDStudioManager.currentStudioMesh m' = Some new
    /\ LEDStudioManager.currentStudio m' = Some studio
    /\ LEDStudioManager.emissiveIntensity st = Material.emissiveIntensity mato
    /\ LEDStudioManager.currentTexture st = Material.map mato
    /\ (forall mid mat,
          In mid (matchingMaterials w LEDStudioManager.screenMaterialName new) ->
          mats w !! mid = Some mat ->
          exists mat',
            mats w' !! mid = Some mat'
            /\ Material.emissiveIntensity mat'
               = match Material.emissiveIntensity mato with
                 | Some i => Some i
                 | None => Material.emissiveIntensity mat
                 end
            /\ (forall tex,
                  customAt w mo = true -> Material.map mato = Some tex ->
                  Material.map mat' = Some tex
                  /\ Material.emissiveMap mat' = Material.emissiveMap mato)
            /\ (LEDStudioManager.hasCustomTexture st = false ->
                Material.map mat' = Material.map mat
                /\ Material.emissiveMap mat' = Material.emissiveMap mat))
    /\ (forall mid,
          ~ In mid (matchingMaterials w LEDStudioManager.screenMaterialName new) ->
          mats w' !! mid = mats w !! mid).
Proof.
  intros loader name m w studio old new mo mato Hs Hc Hl Hlast Hmato.
  unfold LEDStudioManager.switchStudio. rewrite Hs, Hc, Hl. cbv zeta.
  set (st := LEDStudioManager.extractScreenState w old).
  set (w2 := scene_add _ _).
  assert (Hm2 : mats w2 = mats w) by apply mats_after_removal_and_insertion.
  destruct (extractScreenState_spec w old) as [Hlastst Hcustom].
  fold st in Hlastst, Hcustom. rewrite Hlast in Hlastst.
  destruct Hlastst as (mat0 & Hmat0 & Hct & Het & Hei & _).
  rewrite Hmato in Hmat0. injection Hmat0 as <-.
  destruct (applyScreenState_spec new st w2) as (Hin & Hout & _).
  rewrite (matchingMaterials_mats w w2 _ new Hm2) in Hin, Hout.
  split; [reflexivity|]. split; [reflexivity|]. split; [reflexivity|].
  split; [exact Hei|]. split; [exact Hct|]. split.
  - intros mid mat Hmid Hmat. exists (applied st mat).
    split; [by rewrite (Hin mid Hmid), Hm2, Hmat|].
    unfold applied. rewrite Hei, Hct. split; [|split].
    + destruct (Material.emissiveIntensity mato), (LEDStudioManager.hasCustomTexture st),
        (Material.map mato); reflexivity.
    + intros tex Hcu Hmap.
      assert (Hh : LEDStudioManager.hasCustomTexture st = true).
      { rewrite Hcustom. apply existsb_exists. exists mo. split; [|exact Hcu].
        destruct (matchingMaterials w LEDStudioManager.screenMaterialName old)
          as [|x l] eqn:El using rev_ind; [discriminate|].
        rewrite last_snoc in Hlast. injection Hlast as ->.
        apply in_or_app. right. by left. }
      rewrite Hh, Hmap, Het. by destruct (Material.emissiveIntensity mato).
    + intros Hh. rewrite Hh. by destruct (Material.emissiveIntensity mato).
  - intros mid Hmid. by rewrite (Hout mid Hmid), Hm2.
Qed.

Lemma switch_with_preservation_carries_the_screen_state_witness :
  let m := LEDStageApp.studioManager litApp in
  let w := LEDStageApp.world litApp in
  let new := traverse_map LEDStudioManager.configureStudioNode Example.barcelona in
  let out := LEDStudioManager.switchStudio loadBoth "BARCELONA" true m w in
  last (matchingMaterials w LEDStudioManager.screenMaterialName new) = Some 3%positive
  /\ customAt w 1%positive = true
  /\ exists mat',
       mats (snd out) !! 3%positive = Some mat'
       /\ Material.emissiveIntensity mat' = Some 0.7%float
       /\ Material.map mat' = Some 50%positive.
Proof.
  cbv zeta.
  set (m := LEDStageApp.studioManager litApp).
  set (w := LEDStageApp.world litApp).
  set (new := traverse_map LEDStudioManager.configureStudioNode Example.barcelona).
  split; [vm_compute; reflexivity|]. split; [vm_compute; reflexivity|].
  assert (Hs : LEDStudioManager.getStudioByName "BARCELONA" m = Some barcelonaStudio)
    by (vm_compute; reflexivity).
  assert (Hc : LEDStudioManager.currentStudioMesh m
               = Some (traverse_map LEDStudioManager.configureStudioNode Example.madrid))
    by (vm_compute; reflexivity).
  assert (Hl : LEDStudioManager.loadStudioMesh loadBoth barcelonaStudio = Some new)
    by (vm_compute; reflexivity).
  assert (Hlast : last (matchingMaterials w LEDStudioManager.screenMaterialName
                          (traverse_map LEDStudioManager.configureStudioNode
                             Example.madrid)) = Some 1%positive)
    by (vm_compute; reflexivity).
  destruct (mats w !! 1%positive) as [mato|] eqn:Hmato;
    [|vm_compute in Hmato; discriminate].
  pose proof (switch_with_preservation_carries_the_screen_state loadBoth "BARCELONA"
                m w barcelonaStudio _ new 1%positive mato Hs Hc Hl Hlast Hmato) as H.
  destruct (LEDStudioManager.switchStudio loadBoth "BARCELONA" true m w)
    as [[res m'] w'].
  destruct H as (_ & _ & _ & _ & _ & Hin & _).
  destruct (mats w !! 3%positive) as [mat|] eqn:Hmat;
    [|vm_compute in Hmat; discriminate].
  destruct (Hin 3%positive mat) as (mat' & Hmat' & Hi & Htex & _);
    [vm_compute; right; by left|exact Hmat|].
  exists mat'. split; [exact Hmat'|].
  assert (E : mato = Material.mk "M_WhiteScreen" (Some 50%positive) None
                       (Some 50%positive) (Some (Hex 0)) (Some 0.7%float) true)
    by (vm_compute in Hmato; by injection Hmato as <-).
  subst mato. split; [exact Hi|].
  by apply (Htex 50%positive); [vm_compute|].
Defined.

(* ===================================================================== *)
(** * Further properties of the controller *)
(* ===================================================================== *)

(** ** The frame callback *)

(** In every reachable state a frame whose renders succeed leaves the state
    exactly as it was: the main render changes nothing and the preview render
    puts every visibility flag back.  A frame whose main render throws stops
    before the preview and changes nothing either. *)
Theorem frame_leaves_the_state_unchanged :
  forall (s : t) (preview_ok : bool),
    reachable s ->
    animate true true s = (JS.Normal tt, s)
    /\ animate false preview_ok s = (JS.Throw "render failed", s).
Proof.
  intros s preview_ok Hr. split; [|reflexivity].
  unfold animate, bind, render, ret.
  destruct (cameraPreviewRenderer s); [|reflexivity].
  destruct (cameraToRender s); [|reflexivity].
  by apply renderCameraPreview_completes, reachable_camerasTracked.
Qed.

Lemma frame_leaves_the_state_unchanged_witness :
  reachable oneCameraSelected
  /\ cameraPreviewRenderer oneCameraSelected = true
  /\ animate true true oneCameraSelected = (JS.Normal tt, oneCameraSelected).
Proof.
  split; [exact reachable_oneCameraSelected|]. split; [vm_compute; reflexivity|].
  exact (proj1 (frame_leaves_the_state_unchanged oneCameraSelected true
                  reachable_oneCameraSelected)).
Defined.

(** ** Fullscreen view *)

Lemma hideAll_spec (l : list Addr) :
  forall s : t,
    (forall a, In a l -> is_Some (cameras s !! a)) ->
    exists cs,
      forEach (fun a => hideCamera a ;; ret tt) l s
      = (JS.Normal tt, set_cameras (fun _ => cs) s)
      /\ (forall a, In a l -> cs !! a = hidden <$> cameras s !! a)
      /\ (forall a, ~ In a l -> cs !! a = cameras s !! a).
Proof.
  induction l as [|a r IH]; intros s A.
  - exists (cameras s). cbn. rewrite set_cameras_same. by repeat split.
  - destruct (A a (or_introl eq_refl)) as [c Hc].
    set (s1 := set_cameras (insert a (hidden c)) s).
    destruct (IH s1) as (cs & E & In_ & Out).
    { intros a' Ha'. cbn. destruct (decide (a = a')) as [<-|Hne].
      - by rewrite lookup_insert_eq.
      - rewrite lookup_insert_ne by assumption. apply A. by right. }
    exists cs. split; [|split].
    + cbn [forEach]. unfold bind at 1. unfold bind at 1. unfold hideCamera. rewrite Hc.
      change (set_cameras (insert a _) s) with s1. unfold ret at 1. exact E.
    + intros a' Ha'.
      destruct (in_dec Pos.eq_dec a' r) as [Hr|Hr].
      * rewrite (In_ a' Hr). unfold s1. cbn.
        destruct (decide (a = a')) as [<-|Hne].
        -- rewrite lookup_insert_eq, Hc. by destruct c.
        -- by rewrite lookup_insert_ne.
      * destruct Ha' as [<-|Ha']; [|contradiction].
        rewrite (Out a Hr). unfold s1. cbn. by rewrite lookup_insert_eq, Hc.
    + intros a' Ha'. rewrite Out by (intros H; apply Ha'; by right).
      unfold s1. cbn. rewrite lookup_insert_ne; [done|].
      intros <-. apply Ha'. by left.
Qed.

(** Entering the fullscreen view of the selected camera hides the gizmo and
    the helper and proxy of every camera of the collection, remembering
    nothing; leaving it shows the gizmo and the helper and proxy of the
    selected camera only.  Every other camera of the collection is left
    invisible, whatever its visibility was before. *)
Theorem fullscreen_shows_only_the_selected_camera_again :
  forall (s : t) (a : Addr),
    reachable s ->
    selectedObject s = Some (RefCamera a) ->
    In a (JS.values (cinemaCameras s)) ->
    let s1 := exec (enterFullscreen true) s in
    let s2 := exec exitFullscreen s1 in
    fst (enterFullscreen true s) = JS.Normal tt
    /\ fst (exitFullscreen s1) = JS.Normal tt
    /\ isFullscreen s1 = true
    /\ visualsHidden s s1
    /\ isFullscreen s2 = false
    /\ visible (transformControls s2) = true
    /\ visualsAt s2 a = Some (true, true)
    /\ (forall a', In a' (JS.values (cinemaCameras s)) -> a' <> a ->
                   visualsAt s2 a' = Some (false, false))
    /\ cinemaCameras s2 = cinemaCameras s
    /\ selectedObject s2 = selectedObject s.
Proof.
  intros s a Hr Hsel Ha. cbv zeta.
  destruct (reachable_camerasTracked s Hr) as [N A].
  set (s0 := set_panels
               (fun p => mkPanels false true
                           match pinnedCamera (set_isFullscreen true s) with
                           | Some _ => camera_viewport p
                           | None => false
                           end)
               (set_isFullscreen true s)).
  destruct (hideAll_spec (JS.values (cinemaCameras s)) s0 A) as (cs & E & In1 & Out1).
  assert (E1 : enterFullscreen true s
               = (JS.Normal tt,
                  set_transformControls
                    (fun c => mkTransformControls false (object c) (mode c) (space c))
                    (set_cameras (fun _ => cs) s0))).
  { unfold enterFullscreen. rewrite Hsel.
    unfold bind at 1. unfold modify at 1. unfold bind at 1. unfold modify at 1.
    fold s0. unfold renderFullscreen.
    change (isFullscreen s0) with true. change (selectedObject s0) with (selectedObject s).
    rewrite Hsel. change (cinemaCameras s0) with (cinemaCameras s).
    unfold bind at 1. rewrite E. reflexivity. }
  unfold exec. rewrite E1. cbn [fst snd].
  set (s1 := set_transformControls _ (set_cameras (fun _ => cs) s0)).
  destruct (A a Ha) as [c Hc].
  assert (Hc1 : cameras s1 !! a = Some (hidden c)).
  { change (cameras s1) with cs. rewrite (In1 a Ha).
    change (cameras s0) with (cameras s). by rewrite Hc. }
  assert (E2 : exitFullscreen s1
               = (JS.Normal tt,
                  set_transformControls
                    (fun t => mkTransformControls true (object t) (mode t) (space t))
                    (set_cameras
                       (insert a (CinemaCamera.set_mesh_visible true
                                    (CinemaCamera.set_helper_visible true (hidden c))))
                       (set_panels (fun p => mkPanels (model_controls p) true true)
                          (set_isFullscreen false s1))))).
  { unfold exitFullscreen. change (isFullscreen s1) with true. cbv iota.
    change (selectedObject s1) with (selectedObject s). rewrite Hsel.
    unfold bind, modify, set_gizmo_visible.
    change (cameras (set_panels _ (set_isFullscreen false s1))) with (cameras s1).
    by rewrite Hc1. }
  rewrite E2. cbn [fst snd].
  split; [reflexivity|]. split; [reflexivity|]. split; [reflexivity|].
  split.
  { split; [reflexivity|]. split; [reflexivity|].
    intros a' Ha'. destruct (A a' Ha') as [c' Hc']. exists c'. split; [exact Hc'|].
    change (cameras s1) with cs. rewrite (In1 a' Ha').
    change (cameras s0) with (cameras s). by rewrite Hc'. }
  split; [reflexivity|]. split; [reflexivity|]. split.
  { unfold visualsAt. cbn. by rewrite lookup_insert_eq. }
  split; [|by split].
  intros a' Ha' Hne. unfold visualsAt. cbn.
  rewrite lookup_insert_ne by congruence.
  rewrite (In1 a' Ha'). change (cameras s0) with (cameras s).
  destruct (A a' Ha') as [c' ->]. reflexivity.
Qed.

(** Two cameras; the first was selected, then the second. *)
Definition twoCameras : t :=
  step (SelectObject true (RefCamera 2%positive))
    (step (AddCamera "cam-2") oneCameraSelected).

Lemma reachable_twoCameras : reachable twoCameras.
Proof. unfold twoCameras. repeat constructor. Qed.

Lemma fullscreen_shows_only_the_selected_camera_again_witness :
  let s2 := exec exitFullscreen (exec (enterFullscreen true) twoCameras) in
  selectedObject twoCameras = Some (RefCamera 2%positive)
  /\ visualsAt twoCameras 1%positive = Some (false, true)
  /\ visualsAt s2 2%positive = Some (true, true)
  /\ visualsAt s2 1%positive = Some (false, false).
Proof.
  cbv zeta.
  assert (Hsel : selectedObject twoCameras = Some (RefCamera 2%positive))
    by (vm_compute; reflexivity).
  assert (Ha : In 2%positive (JS.values (cinemaCameras twoCameras)))
    by (vm_compute; right; by left).
  split; [exact Hsel|]. split; [vm_compute; reflexivity|].
  destruct (fullscreen_shows_only_the_selected_camera_again twoCameras 2%positive
              reachable_twoCameras Hsel Ha)
    as (_ & _ & _ & _ & _ & _ & Hown & Hother & _).
  split; [exact Hown|].
  apply Hother; [vm_compute; by left|discriminate].
Defined.

(** ** Deleting entities *)

(** The [dispose] calls of [SceneObject.disposeMaterial], in the order made. *)
Definition objectMaterialDisposals (ms : Mats) (mid : MatId) : list Resource :=
  match ms !! mid with
  | Some mat =>
      textureDisposals (Material.map mat)
      ++ textureDisposals (Material.normalMap mat)
      ++ textureDisposals (Material.emissiveMap mat)
      ++ [RMaterial mid]
  | None => [RMaterial mid]
  end.

Definition objectNodeDisposals (ms : Mats) (d : Node.t) : list Resource :=
  if Node.isMesh d then
    match Node.geometry d with
    | Some g => [RGeometry g]
    | None => []
    end ++ List.concat (List.map (objectMaterialDisposals ms) (Node.materials d))
  else [].

Lemma disposeMaterial_disposing (w : World) (mid : MatId) :
  SceneObject.disposeMaterial w mid = disposing (objectMaterialDisposals (mats w) mid) w.
Proof.
  unfold SceneObject.disposeMaterial, objectMaterialDisposals.
  destruct (mats w !! mid) as [mat|]; [|reflexivity].
  rewrite !dispose_texture_disposing, !disposing_app.
  change (dispose (RMaterial mid) ?x) with (disposing [RMaterial mid] x).
  rewrite disposing_app. by rewrite <- !app_assoc.
Qed.

Lemma deleteNode_disposing (w : World) (d : Node.t) :
  SceneObject.deleteNode w d = disposing (objectNodeDisposals (mats w) d) w.
Proof.
  unfold SceneObject.deleteNode, objectNodeDisposals.
  destruct (Node.isMesh d); [|symmetry; apply disposing_nil].
  rewrite (fold_disposing _ objectMaterialDisposals disposeMaterial_disposing).
  destruct (Node.geometry d) as [g|]; simpl.
  - change (dispose (RGeometry g) w) with (disposing [RGeometry g] w).
    by rewrite disposing_app.
  - reflexivity.
Qed.

Lemma delete_disposing (o : SceneObject.t) (w : World) :
  SceneObject.delete o w
  = disposing (List.concat (List.map (objectNodeDisposals (mats w))
                              (nodes (SceneObject.mesh o)))) w.
Proof.
  unfold SceneObject.delete.
  apply (fold_disposing _ objectNodeDisposals deleteNode_disposing).
Qed.

Lemma in_objectMaterialDisposals (ms : Mats) (mid : MatId) (r : Resource) :
  In r (objectMaterialDisposals ms mid) <->
  r = RMaterial mid
  \/ exists mat x, ms !! mid = Some mat /\ holdsTexture mat x /\ r = RTexture x.
Proof.
  unfold objectMaterialDisposals, holdsTexture.
  destruct (ms !! mid) as [mat|] eqn:E.
  - rewrite !in_app_iff, !in_textureDisposals. split.
    + intros [(x & Hx & ->)|[(x & Hx & ->)|[(x & Hx & ->)|[<-|[]]]]];
        try (right; exists mat, x; by intuition); by left.
    + intros [->|(mat' & x & [= <-] & [H|[H|H]] & ->)].
      * do 3 right. by left.
      * left. by exists x.
      * right; left. by exists x.
      * right; right; left. by exists x.
  - split; [intros [<-|[]]; by left|].
    intros [->|(mat & x & F & _)]; [by left|discriminate].
Qed.

(** [SceneObject.delete] disposes exactly the geometries of the mesh nodes of
    the object, the materials of those nodes and every texture such a material
    holds in its map, normal map or emissive map, whatever the material is
    called; the materials themselves and the scene are not changed. *)
Theorem delete_disposes_exactly_the_resources_of_the_object :
  forall (o : SceneObject.t) (w : World) (r : Resource),
    let w' := SceneObject.delete o w in
    (In r (disposed w') <->
     In r (disposed w)
     \/ (exists d g, In d (nodes (SceneObject.mesh o)) /\ Node.isMesh d = true
                     /\ Node.geometry d = Some g /\ r = RGeometry g)
     \/ (exists mid, meshMaterialOf (SceneObject.mesh o) mid
                     /\ (r = RMaterial mid
                         \/ exists mat x, mats w !! mid = Some mat
                                          /\ holdsTexture mat x /\ r = RTexture x)))
    /\ mats w' = mats w /\ texs w' = texs w /\ scene w' = scene w.
Proof.
  intros o w r. cbv zeta. rewrite delete_disposing.
  split; [|by repeat split].
  cbn [disposed disposing]. rewrite in_app_iff, <- in_rev, in_concat.
  unfold meshMaterialOf. split.
  - intros [(l & Hl & Hr)|H]; [|by left]. right.
    apply in_map_iff in Hl as (d & <- & Hd).
    unfold objectNodeDisposals in Hr. destruct (Node.isMesh d) eqn:M; [|destruct Hr].
    apply in_app_iff in Hr as [Hr|Hr].
    + destruct (Node.geometry d) as [g|] eqn:G; [|destruct Hr].
      destruct Hr as [<-|[]]. left. by exists d, g.
    + apply in_concat in Hr as (l & Hl & Hr).
      apply in_map_iff in Hl as (mid & <- & Hmid).
      right. exists mid. split; [by exists d|].
      by apply in_objectMaterialDisposals.
  - intros [H|[(d & g & Hd & M & G & ->)|(mid & (d & Hd & M & Hmid) & Hr)]];
      [by right| |]; left.
    + exists (objectNodeDisposals (mats w) d). split; [apply in_map_iff; by exists d|].
      unfold objectNodeDisposals. rewrite M, G. by left.
    + exists (objectNodeDisposals (mats w) d). split; [apply in_map_iff; by exists d|].
      unfold objectNodeDisposals. rewrite M. apply in_or_app. right.
      apply in_concat. exists (objectMaterialDisposals (mats w) mid).
      split; [apply in_map_iff; by exists mid|].
      by apply in_objectMaterialDisposals.
Qed.

Lemma keys_functional {V : Type} (l : list (string * V)) (k : string) (v v' : V) :
  List.NoDup (JS.keys l) -> In (k, v) l -> In (k, v') l -> v = v'.
Proof.
  unfold JS.keys. induction l as [|[k0 v0] l IH]; cbn; intros N H1 H2; [destruct H1|].
  apply List.NoDup_cons_iff in N as [Hn N].
  destruct H1 as [H1|H1], H2 as [H2|H2].
  - congruence.
  - exfalso. apply Hn. apply in_map_iff. exists (k, v'). split; [cbn; congruence|exact H2].
  - exfalso. apply Hn. apply in_map_iff. exists (k, v). split; [cbn; congruence|exact H1].
  - by apply IH.
Qed.

(** The references that stay in a collection when the entry of [r] is
    deleted. *)
Lemma tracked_after_delete {E : Type} (l : list (string * Addr))
    (heap : gmap Addr E) (id : E -> string) (a : Addr) (e : E) :
  List.NoDup (JS.keys l) ->
  (forall k a', In (k, a') l -> exists e', heap !! a' = Some e' /\ id e' = k) ->
  heap !! a = Some e ->
  In a (JS.values l) ->
  forall a', In a' (JS.values (JS.delete (id e) l)) <-> In a' (JS.values l) /\ a' <> a.
Proof.
  intros N K He Ha a'. rewrite !in_values. split.
  - intros (k & Hin). apply in_delete in Hin as [Hin Hk]. split; [by exists k|].
    intros ->. destruct (K k a Hin) as (e' & He' & Hid). congruence.
  - intros [(k & Hin) Hne]. exists k. apply in_delete. split; [exact Hin|].
    intros ->. apply in_values in Ha as (k0 & Hin0).
    destruct (K k0 a Hin0) as (e0 & He0 & Hid0).
    assert (k0 = id e) as -> by congruence.
    apply Hne. exact (keys_functional l (id e) a' a N Hin Hin0).
Qed.

(** The state after [detach()] and after [hideAllControlPanels()]. *)
Definition detached (s : t) : t :=
  set_transformControls (fun c => mkTransformControls false None (mode c) (space c)) s.

Definition panelsHidden (s : t) : t :=
  set_panels (fun p => mkPanels false false
                         (match pinnedCamera s with
                          | Some _ => camera_viewport p
                          | None => false
                          end)) s.

(** In a reachable state, [deleteSelectedObject] on a selected entity of the
    collections returns normally; the entity is no longer in its collection,
    every other entity still is, the slot is empty, nothing is selected any
    more, the gizmo is detached and hidden, and the object (or the group and
    the helper of the camera) is out of the scene.  A camera that was pinned
    is unpinned; the pin of another camera stays. *)
Theorem deleteSelectedObject_removes_the_selected_entity :
  forall (s : t) (r : Ref),
    reachable s ->
    selectedObject s = Some r ->
    tracked s r ->
    let s' := exec deleteSelectedObject s in
    fst (deleteSelectedObject s) = JS.Normal tt
    /\ selectedObject s' = None
    /\ ~ tracked s' r
    /\ (forall r', r' <> r -> (tracked s' r' <-> tracked s r'))
    /\ noneSelected s'
    /\ object (transformControls s') = None
    /\ visible (transformControls s') = false
    /\ match r with
       | RefObject a =>
           exists o,
             objects s !! a = Some o
             /\ ~ In (ChildObject (Node.uuid (root (SceneObject.mesh o))))
                     (scene (world s'))
             /\ world s'
                = SceneObject.delete o
                    (scene_remove (ChildObject (Node.uuid (root (SceneObject.mesh o))))
                       (world s))
             /\ pinnedCamera s' = pinnedCamera s
       | RefCamera a =>
           ~ In (ChildCameraGroup a) (scene (world s'))
           /\ ~ In (ChildCameraHelper a) (scene (world s'))
           /\ In (RCameraGeometry a) (disposed (world s'))
           /\ In (RCameraMaterial a) (disposed (world s'))
           /\ In (RCameraHelper a) (disposed (world s'))
           /\ pinnedCamera s' <> Some a
           /\ (pinnedCamera s <> Some a -> pinnedCamera s' = pinnedCamera s)
       end.
Proof.
  intros s r Hr Hsel T. cbv zeta.
  pose proof (reachable_invariant s Hr) as I.
  pose proof (invariant_deleteSelectedObject s I) as I'.
  destruct I as ((N1 & N2 & K1 & K2) & S).
  destruct r as [a|a]; cbn [tracked] in T.
  - pose proof T as T0. apply in_values in T0 as (k & Hin).
    destruct (K1 k a Hin) as (o & Ho & Hid).
    assert (E : deleteSelectedObject s
                = (JS.Normal tt,
                   set_selectedObject None
                     (panelsHidden
                        (detached
                           (set_sceneObjects (JS.delete (SceneObject.id o))
                              (set_world (SceneObject.delete o)
                                 (set_world
                                    (scene_remove
                                       (ChildObject
                                          (Node.uuid (root (SceneObject.mesh o)))))
                                    s))))))).
    { unfold deleteSelectedObject. rewrite Hsel. unfold bind at 1. rewrite Ho.
      reflexivity. }
    unfold exec. rewrite E in I' |- *. cbn [fst snd] in I' |- *.
    split; [reflexivity|]. split; [reflexivity|].
    pose proof (tracked_after_delete (sceneObjects s) (objects s) SceneObject.id a o
                  N1 K1 Ho T) as TD.
    split; [|split; [|split; [|split; [|split]]]].
    + cbn. intros H. apply TD in H as [_ H]. by apply H.
    + intros [a'|a'] Hne; cbn; [|reflexivity].
      rewrite TD. split; [by intros [H _]|]. intros H. split; [exact H|congruence].
    + by apply empty_slot_noneSelected.
    + reflexivity.
    + reflexivity.
    + exists o. split; [exact Ho|]. split; [|by split].
      cbn. rewrite delete_disposing. cbn [scene disposing].
      change (~ In (ChildObject (Node.uuid (root (SceneObject.mesh o))))
                (scene (scene_remove
                          (ChildObject (Node.uuid (root (SceneObject.mesh o))))
                          (world s)))).
      rewrite in_scene_remove. by intros [_ H].
  - pose proof T as T0. apply in_values in T0 as (k & Hin).
    destruct (K2 k a Hin) as (c & Hc & Hid).
    set (s1 := match pinnedCamera s with
               | Some p => if Pos.eqb p a then set_pinnedCamera None s else s
               | None => s
               end).
    assert (E : deleteSelectedObject s
                = (JS.Normal tt,
                   set_selectedObject None
                     (panelsHidden
                        (detached
                           (set_cinemaCameras (JS.delete (CinemaCamera.id c))
                              (set_world (CinemaCamera.delete a) s1)))))).
    { unfold deleteSelectedObject. rewrite Hsel. unfold bind at 1. unfold bind at 1.
      unfold s1, unpinCameraPreview.
      destruct (pinnedCamera s) as [p|] eqn:Hp; [|by rewrite Hc].
      destruct (Pos.eqb p a); [|by rewrite Hc].
      rewrite Hsel. unfold bind, modify, ret. cbn [cameras set_pinnedCamera].
      by rewrite Hc. }
    unfold exec. rewrite E in I' |- *. cbn [fst snd] in I' |- *.
    assert (Ecc : cinemaCameras s1 = cinemaCameras s).
    { unfold s1. destruct (pinnedCamera s) as [p|]; [|reflexivity].
      by destruct (Pos.eqb p a). }
    assert (Ep : pinnedCamera s1
                 = match pinnedCamera s with
                   | Some p => if Pos.eqb p a then None else Some p
                   | None => None
                   end).
    { unfold s1. destruct (pinnedCamera s) as [p|] eqn:Hp; [|exact Hp].
      by destruct (Pos.eqb p a). }
    assert (Ew : world s1 = world s).
    { unfold s1. destruct (pinnedCamera s) as [p|]; [|reflexivity].
      by destruct (Pos.eqb p a). }
    pose proof (tracked_after_delete (cinemaCameras s) (cameras s) CinemaCamera.id a c
                  N2 K2 Hc T) as TD.
    split; [reflexivity|]. split; [reflexivity|].
    split; [|split; [|split; [|split; [|split]]]].
    + cbn. rewrite Ecc. intros H. apply TD in H as [_ H]. by apply H.
    + intros [a'|a'] Hne; cbn.
      * unfold s1. destruct (pinnedCamera s) as [p|]; [|reflexivity].
        by destruct (Pos.eqb p a).
      * rewrite Ecc, TD. split; [by intros [H _]|].
        intros H. split; [exact H|congruence].
    + by apply empty_slot_noneSelected.
    + reflexivity.
    + reflexivity.
    + cbn [world panelsHidden detached set_selectedObject
           set_panels set_transformControls set_cinemaCameras set_world].
      rewrite Ew. unfold CinemaCamera.delete, CinemaCamera.removeFromScene.
      cbn [scene disposed dispose].
      split; [|split; [|split; [|split; [|split; [|split]]]]].
      * change (~ In (ChildCameraGroup a)
                  (scene (scene_remove (ChildCameraHelper a)
                            (scene_remove (ChildCameraGroup a) (world s))))).
        rewrite !in_scene_remove. by intros [[_ H] _].
      * change (~ In (ChildCameraHelper a)
                  (scene (scene_remove (ChildCameraHelper a)
                            (scene_remove (ChildCameraGroup a) (world s))))).
        rewrite !in_scene_remove. by intros [_ H].
      * right; right; by left.
      * right; by left.
      * by left.
      * change (pinnedCamera s1 <> Some a). rewrite Ep.
        destruct (pinnedCamera s) as [p|]; [|discriminate].
        destruct (Pos.eqb p a) eqn:Epa; [discriminate|].
        intros [= ->]. by rewrite Pos.eqb_refl in Epa.
      * intros Hne. change (pinnedCamera s1 = pinnedCamera s). rewrite Ep.
        destruct (pinnedCamera s) as [p|]; [|reflexivity].
        destruct (Pos.eqb p a) eqn:Epa; [|reflexivity].
        apply Pos.eqb_eq in Epa. congruence.
Qed.

Lemma deleteSelectedObject_removes_the_selected_entity_witness :
  let s' := exec deleteSelectedObject twoCameras in
  selectedObject twoCameras = Some (RefCamera 2%positive)
  /\ tracked twoCameras (RefCamera 2%positive)
  /\ ~ tracked s' (RefCamera 2%positive)
  /\ tracked s' (RefCamera 1%positive)
  /\ selectedObject s' = None.
Proof.
  cbv zeta.
  assert (Hsel : selectedObject twoCameras = Some (RefCamera 2%positive))
    by (vm_compute; reflexivity).
  assert (T : tracked twoCameras (RefCamera 2%positive))
    by (vm_compute; right; by left).
  split; [exact Hsel|]. split; [exact T|].
  destruct (deleteSelectedObject_removes_the_selected_entity twoCameras
              (RefCamera 2%positive) reachable_twoCameras Hsel T)
    as (_ & Hslot & Hgone & Hothers & _).
  split; [exact Hgone|]. split; [|exact Hslot].
  apply Hothers; [discriminate|]. vm_compute. by left.
Defined.

(** ** Selecting and clearing the selection *)

Lemma bind_Normal {A B : Type} (m : M A) (k : A -> M B) (s s' : t) (b : B) :
  bind m k s = (JS.Normal b, s') ->
  exists a s1, m s = (JS.Normal a, s1) /\ k a s1 = (JS.Normal b, s').
Proof.
  unfold bind. destruct (m s) as [[a|e] s1]; [|discriminate].
  intros H. by exists a, s1.
Qed.

Lemma deselectAll_outcome (s : t) :
  deselectAll s
  = match selectedObject s with
    | Some cur =>
        match deselect cur s with
        | (JS.Normal _, s1) =>
            (JS.Normal tt, panelsHidden (detached (set_selectedObject None s1)))
        | (JS.Throw e, s1) => (JS.Throw e, s1)
        end
    | None => (JS.Normal tt, panelsHidden (detached s))
    end.
Proof.
  unfold deselectAll, bind, modify, detach, hideAllControlPanels.
  destruct (selectedObject s) as [cur|]; [|reflexivity].
  by destruct (deselect cur s) as [[[]|e] s1].
Qed.

(** [deselectAll] leaves no entity of the collections selected, whether the
    [deselect()] of the entity in the slot returns or throws; when it returns,
    the slot is empty, the gizmo is detached and hidden and the two control
    panels are hidden. *)
Theorem deselectAll_leaves_nothing_selected :
  forall s : t,
    reachable s ->
    let s' := exec deselectAll s in
    noneSelected s'
    /\ (forall r, tracked s' r <-> tracked s r)
    /\ (fst (deselectAll s) = JS.Normal tt ->
        selectedObject s' = None
        /\ object (transformControls s') = None
        /\ visible (transformControls s') = false
        /\ model_controls (panels s') = false
        /\ camera_controls_panel (panels s') = false
        /\ pinnedCamera s' = pinnedCamera s).
Proof.
  intros s Hr. cbv zeta. pose proof (reachable_invariant s Hr) as I.
  unfold exec. rewrite deselectAll_outcome.
  destruct (selectedObject s) as [cur|] eqn:Hsel.
  - destruct (deselect_slot_noneSelected s cur I Hsel) as (K & N & E).
    assert (Hpin : pinnedCamera (snd (deselect cur s)) = pinnedCamera s).
    { unfold deselect. destruct cur as [a|a].
      - destruct (objects s !! a) as [o|]; [|reflexivity].
        by destruct (SceneObject.deselect o (world s)) as [[res o'] w'].
      - by destruct (cameras s !! a) as [c|]. }
    destruct (deselect cur s) as [[[]|e] s1]; cbn [fst snd] in *.
    + split; [|split].
      * intros [a|a] T; [exact (N (RefObject a) T)|exact (N (RefCamera a) T)].
      * intros r. rewrite <- (tracked_sameEntities s s1 r E). by destruct r.
      * intros _. by repeat split.
    + split; [exact N|]. split; [|discriminate].
      intros r. by apply (tracked_sameEntities s).
  - cbn [fst snd]. split; [|split].
    + pose proof (empty_slot_noneSelected s I Hsel) as N.
      intros [a|a] T; [exact (N (RefObject a) T)|exact (N (RefCamera a) T)].
    + intros r. by destruct r.
    + intros _. by repeat split.
Qed.

Lemma deselectAll_leaves_nothing_selected_witness :
  reachable twoCameras
  /\ isSelected twoCameras (RefCamera 2%positive) = true
  /\ noneSelected (exec deselectAll twoCameras).
Proof.
  split; [exact reachable_twoCameras|]. split; [vm_compute; reflexivity|].
  exact (proj1 (deselectAll_leaves_nothing_selected twoCameras reachable_twoCameras)).
Defined.

Lemma select_Normal (r : Ref) (s s' : t) (u : unit) :
  select r s = (JS.Normal u, s') -> isSelected s' r = true.
Proof.
  destruct r as [a|a]; unfold select.
  - destruct (objects s !! a) as [o|]; [|discriminate].
    unfold SceneObject.select.
    destruct (SceneObject.isSelected o) eqn:Es; intros [= Hu <-];
      cbn [isSelected objects set_world set_objects fst snd];
      by rewrite lookup_insert_eq.
  - destruct (cameras s !! a) as [c|]; [|discriminate].
    intros [= Hu <-]. cbn [isSelected cameras set_cameras].
    rewrite lookup_insert_eq. unfold CinemaCamera.select.
    by destruct (CinemaCamera.isSelected c) eqn:Es.
Qed.

(** What the gizmo is attached to when [r] is selected in [s]. *)
Definition gizmoTarget (s : t) (r : Ref) : option Attached :=
  match r with
  | RefObject a =>
      (fun o => AttachedMesh (Node.uuid (root (SceneObject.mesh o)))) <$> objects s !! a
  | RefCamera a => Some (AttachedGroup a)
  end.

Lemma selectObject_tail_Normal (render_ok : bool) (r : Ref) (s s' : t) (u : unit) :
  invariant s ->
  selectedObject s = Some r ->
  ((match r with
    | RefObject a =>
        fun s1 =>
          match objects s1 !! a with
          | Some o =>
              (attach (AttachedMesh (Node.uuid (root (SceneObject.mesh o)))) ;;
               setMode translate ;;
               showModelControls) s1
          | None => (JS.Throw "TypeError: object is undefined", s1)
          end
    | RefCamera a =>
        attach (AttachedGroup a) ;;
        setMode translate ;;
        showCameraControls ;;
        showCameraPreview render_ok
    end) ;;
   updateTransformSpace) s = (JS.Normal u, s') ->
  object (transformControls s') = gizmoTarget s' r
  /\ visible (transformControls s') = true
  /\ mode (transformControls s') = translate
  /\ space (transformControls s') = transformSpace s'.
Proof.
  intros I Hsel H. destruct r as [a|a].
  - unfold bind at 1 in H.
    destruct (objects s !! a) as [o|] eqn:Ho; [|discriminate].
    unfold bind, attach, setMode, showModelControls, updateTransformSpace, setSpace,
      modify in H.
    injection H as _ <-. cbn. by rewrite Ho.
  - set (sc := exec showCameraControls
                 (exec (setMode translate) (exec (attach (AttachedGroup a)) s))).
    set (sd := set_cameraPreviewRenderer true
                 (exec (show_camera_viewport true) sc)).
    assert (Id : invariant sd).
    { apply (invariant_sameSelection s); [|exact I]. unfold sd, sc. same_fields. }
    assert (E : (attach (AttachedGroup a) ;; setMode translate ;; showCameraControls ;;
                 showCameraPreview render_ok) s
                = renderCameraPreview render_ok sd).
    { unfold bind, attach, setMode, showCameraControls, modify.
      unfold showCameraPreview.
      change (selectedObject (set_panels _ _)) with (selectedObject s). rewrite Hsel.
      reflexivity. }
    unfold bind at 1 in H. rewrite E in H.
    destruct render_ok.
    + rewrite (renderCameraPreview_completes sd (invariant_camerasTracked sd Id)) in H.
      unfold updateTransformSpace, setSpace, modify in H. injection H as _ <-.
      by repeat split.
    + exfalso.
      destruct (renderCameraPreview_fails sd (invariant_camerasTracked sd Id))
        as (what & sf & Ef & _).
      * unfold cameraToRender. change (pinnedCamera sd) with (pinnedCamera s).
        change (selectedObject sd) with (selectedObject s). rewrite Hsel.
        destruct (pinnedCamera s); by eexists.
      * reflexivity.
      * rewrite Ef in H. discriminate.
Qed.

(** A call of [selectObject] on an entity that is not in the slot, when it
    returns, has put the entity in the slot and marked it selected, has left
    every other entity of the collections unselected and the collections as
    they were, and has attached the visible gizmo to the entity in translate
    mode with the transform space of the controller. *)
Theorem selectObject_selects_and_attaches_the_gizmo :
  forall (render_ok : bool) (r : Ref) (s s' : t) (u : unit),
    reachable s ->
    is_selected s r = false ->
    selectObject render_ok r s = (JS.Normal u, s') ->
    selectedObject s' = Some r
    /\ isSelected s' r = true
    /\ (forall r', tracked s' r' -> r' <> r -> isSelected s' r' = false)
    /\ (forall r', tracked s' r' <-> tracked s r')
    /\ object (transformControls s') = gizmoTarget s' r
    /\ visible (transformControls s') = true
    /\ mode (transformControls s') = translate
    /\ space (transformControls s') = transformSpace s'.
Proof.
  intros render_ok r s s' u Hr Hn H. pose proof (reachable_invariant s Hr) as I.
  unfold selectObject in H. rewrite Hn in H.
  apply bind_Normal in H as ([] & s1 & H1 & H).
  apply bind_Normal in H as ([] & s2 & H2 & H).
  apply bind_Normal in H as ([] & s3 & H3 & H).
  unfold modify in H2. injection H2 as <-.
  assert (P1 : keyedById s1 /\ noneSelected s1 /\ sameEntities s s1).
  { destruct (selectedObject s) as [prev|] eqn:Hsel.
    - pose proof (deselect_slot_noneSelected s prev I Hsel) as P.
      rewrite H1 in P. exact P.
    - injection H1 as <-. split; [apply I|].
      split; [by apply empty_slot_noneSelected|apply sameEntities_refl]. }
  destruct P1 as (K1 & N1 & E1).
  destruct (noneSelected_set_slot s1 (Some r) K1 N1) as [K2 N2].
  pose proof (select_slot_invariant (set_selectedObject (Some r) s1) r K2 N2 eq_refl)
    as I3.
  pose proof (select_effect r (set_selectedObject (Some r) s1)) as (E3 & S3 & _).
  pose proof (select_Normal r _ _ _ H3) as F3.
  rewrite H3 in I3, E3, S3. cbn [snd] in I3, E3, S3.
  change (selectedObject (set_selectedObject (Some r) s1)) with (Some r) in S3.
  pose proof (keeps_selectObject_tail render_ok r s3) as (E4 & S4 & F4).
  pose proof (invariant_keeps _ s3 (keeps_selectObject_tail render_ok r) I3) as I4.
  rewrite H in E4, S4, F4, I4. cbn [snd] in E4, S4, F4, I4.
  destruct (selectObject_tail_Normal render_ok r s3 s' u I3 S3 H) as (G1 & G2 & G3 & G4).
  split; [congruence|]. split; [by rewrite F4|].
  split; [|split; [|by repeat split]].
  - intros r' T Hne. destruct (isSelected s' r') eqn:Hs; [|reflexivity].
    destruct I4 as [_ S]. pose proof (S r' T Hs). congruence.
  - intros r'. rewrite (tracked_sameEntities s3 s' r' E4).
    rewrite (tracked_sameEntities _ s3 r' E3).
    change (tracked (set_selectedObject (Some r) s1) r') with (tracked s1 r').
    apply (tracked_sameEntities s s1 r' E1).
Qed.

Definition secondCameraAdded : t := step (AddCamera "cam-2") oneCameraSelected.

Lemma reachable_secondCameraAdded : reachable secondCameraAdded.
Proof. unfold secondCameraAdded. repeat constructor. Qed.

Lemma selectObject_selects_and_attaches_the_gizmo_witness :
  let s' := exec (selectObject true (RefCamera 2%positive)) secondCameraAdded in
  selectedObject secondCameraAdded = Some (RefCamera 1%positive)
  /\ selectedObject s' = Some (RefCamera 2%positive)
  /\ isSelected s' (RefCamera 1%positive) = false
  /\ object (transformControls s') = Some (AttachedGroup 2%positive).
Proof.
  cbv zeta.
  assert (Hrun : selectObject true (RefCamera 2%positive) secondCameraAdded
                 = (JS.Normal tt,
                    exec (selectObject true (RefCamera 2%positive)) secondCameraAdded))
    by (vm_compute; reflexivity).
  destruct (selectObject_selects_and_attaches_the_gizmo true (RefCamera 2%positive)
              secondCameraAdded _ tt reachable_secondCameraAdded
              ltac:(vm_compute; reflexivity) Hrun)
    as (Hslot & _ & Hothers & Htr & Hg & _).
  split; [vm_compute; reflexivity|]. split; [exact Hslot|]. split; [|exact Hg].
  apply Hothers; [|discriminate].
  apply Htr. vm_compute. by left.
Defined.

(** ** The pinned camera preview *)

(** The camera at [a] is pinned and the preview viewport is displayed. *)
Definition pinnedShown (a : Addr) (s : t) : Prop :=
  pinnedCamera s = Some a /\ camera_viewport (panels s) = true.

Definition pinKept (a : Addr) (s s' : t) : Prop := pinnedShown a s -> pinnedShown a s'.

Lemma pinKept_refl (a : Addr) (s : t) : pinKept a s s.
Proof. by intros H. Qed.

Lemma pinKept_trans (a : Addr) (s1 s2 s3 : t) :
  pinKept a s1 s2 -> pinKept a s2 s3 -> pinKept a s1 s3.
Proof. intros H1 H2 H. by apply H2, H1. Qed.

Ltac pin_fields :=
  let Hp := fresh "Hp" in
  let Hv := fresh "Hv" in
  intros [Hp Hv]; split; cbn; rewrite ?Hp; first [assumption|reflexivity].

Ltac pin_step :=
  first
    [ apply keeps_ret; apply pinKept_refl
    | apply keeps_throw; apply pinKept_refl
    | apply keeps_bind; [apply pinKept_trans| |intros ?]
    | apply keeps_try_catch; [apply pinKept_trans| |]
    | apply keeps_modify; intros ?; pin_fields ].

Section PinKept.
Variable a : Addr.

Lemma pin_attach (o : Attached) : keeps (pinKept a) (attach o).
Proof. unfold attach. pin_step. Qed.

Lemma pin_detach : keeps (pinKept a) detach.
Proof. unfold detach. pin_step. Qed.

Lemma pin_setMode (m : Mode) : keeps (pinKept a) (setMode m).
Proof. unfold setMode. pin_step. Qed.

Lemma pin_setSpace (sp : Space) : keeps (pinKept a) (setSpace sp).
Proof. unfold setSpace. pin_step. Qed.

Lemma pin_set_gizmo_visible (v : bool) : keeps (pinKept a) (set_gizmo_visible v).
Proof. unfold set_gizmo_visible. pin_step. Qed.

Lemma pin_showModelControls : keeps (pinKept a) showModelControls.
Proof. unfold showModelControls. pin_step. Qed.

Lemma pin_showCameraControls : keeps (pinKept a) showCameraControls.
Proof. unfold showCameraControls. pin_step. Qed.

Lemma pin_hideAllControlPanels : keeps (pinKept a) hideAllControlPanels.
Proof. unfold hideAllControlPanels. pin_step. Qed.

Lemma pin_updateTransformSpace : keeps (pinKept a) updateTransformSpace.
Proof. intros s. unfold updateTransformSpace. apply pin_setSpace. Qed.

Lemma pin_render (ok : bool) : keeps (pinKept a) (render ok).
Proof. unfold render. destruct ok; pin_step. Qed.

Lemma pin_toDataURL (ok : bool) : keeps (pinKept a) (toDataURL ok).
Proof. unfold toDataURL. destruct ok; pin_step. Qed.

Lemma pin_hideCamera (c : Addr) : keeps (pinKept a) (hideCamera c).
Proof.
  intros s. unfold hideCamera.
  destruct (cameras s !! c); [pin_fields|apply pinKept_refl].
Qed.

Lemma pin_hideCameras (l : list Addr) : keeps (pinKept a) (hideCameras l).
Proof.
  induction l as [|c l IH]; simpl; [pin_step|].
  pin_step; [apply pin_hideCamera|]. pin_step; [exact IH|]. pin_step.
Qed.

Lemma pin_restoreCamera (vis : list (bool * bool)) (i : nat) (c : Addr) :
  keeps (pinKept a) (restoreCamera vis i c).
Proof.
  unfold restoreCamera. destruct (nth_error vis i) as [[h m]|]; [|pin_step].
  intros s. destruct (cameras s !! c); [pin_fields|apply pinKept_refl].
Qed.

Lemma pin_restoreCameras (vis : list (bool * bool)) (l : list Addr) :
  forall i, keeps (pinKept a) (restoreCameras vis i l).
Proof.
  induction l as [|c l IH]; intros i; simpl; [pin_step|].
  pin_step; [apply pin_restoreCamera|apply IH].
Qed.

Lemma pin_capture (render_ok encode_ok : bool) (c : Addr) :
  keeps (pinKept a) (capture render_ok encode_ok c).
Proof.
  unfold capture. pin_step.
  { intros s. unfold hideCameraVisualsForCapture.
    apply (keeps_bind _ (pinKept_trans a)); [apply pin_hideCameras|].
    intros vis s1.
    apply (keeps_bind _ (pinKept_trans a)); [apply pin_set_gizmo_visible|intros; pin_step]. }
  pin_step; [apply pin_render|].
  pin_step.
  { intros s. destruct (cameras s !! c); [|apply pinKept_refl].
    apply (keeps_bind _ (pinKept_trans a)); [apply pin_toDataURL|intros; pin_step]. }
  pin_step; [|pin_step].
  unfold restoreCameraVisualsAfterCapture.
  pin_step; [apply pin_set_gizmo_visible|].
  intros s. apply pin_restoreCameras.
Qed.

Lemma pin_renderCameraPreview (render_ok : bool) :
  keeps (pinKept a) (renderCameraPreview render_ok).
Proof.
  intros s. unfold renderCameraPreview.
  destruct (cameraToRender s); [|apply pinKept_refl].
  destruct (cameraPreviewRenderer s); [|apply pinKept_refl].
  apply (keeps_bind _ (pinKept_trans a)); [apply pin_hideCameras|].
  intros vis s1.
  apply (keeps_bind _ (pinKept_trans a)); [apply pin_set_gizmo_visible|intros _].
  apply (keeps_bind _ (pinKept_trans a)); [apply pin_render|intros _].
  apply (keeps_bind _ (pinKept_trans a)); [apply pin_set_gizmo_visible|intros _].
  apply pin_restoreCameras.
Qed.

Lemma pin_showCameraPreview (render_ok : bool) :
  keeps (pinKept a) (showCameraPreview render_ok).
Proof.
  intros s. unfold showCameraPreview.
  destruct (selectedObject s) as [[c|c]|]; try apply pinKept_refl.
  apply (keeps_bind _ (pinKept_trans a)).
  { unfold show_camera_viewport. pin_step. }
  intros _.
  apply (keeps_bind _ (pinKept_trans a)); [pin_step|intros _].
  apply pin_renderCameraPreview.
Qed.

Lemma pin_select (r : Ref) : keeps (pinKept a) (select r).
Proof.
  intros s. unfold select. destruct r as [c|c].
  - destruct (objects s !! c) as [o|]; [|apply pinKept_refl].
    destruct (SceneObject.select o (world s)) as [o' w']. pin_fields.
  - destruct (cameras s !! c); [pin_fields|apply pinKept_refl].
Qed.

Lemma pin_deselect (r : Ref) : keeps (pinKept a) (deselect r).
Proof.
  intros s. unfold deselect. destruct r as [c|c].
  - destruct (objects s !! c) as [o|]; [|apply pinKept_refl].
    destruct (SceneObject.deselect o (world s)) as [[res o'] w']. pin_fields.
  - destruct (cameras s !! c); [pin_fields|apply pinKept_refl].
Qed.

Lemma pin_selectObject (render_ok : bool) (r : Ref) :
  keeps (pinKept a) (selectObject render_ok r).
Proof.
  intros s. unfold selectObject.
  destruct (is_selected s r); [apply pinKept_refl|].
  apply (keeps_bind _ (pinKept_trans a)).
  { destruct (selectedObject s); [apply pin_deselect|pin_step]. }
  intros _.
  apply (keeps_bind _ (pinKept_trans a)); [pin_step|intros _].
  apply (keeps_bind _ (pinKept_trans a)); [apply pin_select|intros _].
  apply (keeps_bind _ (pinKept_trans a)); [|intros _; apply pin_updateTransformSpace].
  destruct r as [c|c].
  - intros s1. destruct (objects s1 !! c); [|apply pinKept_refl].
    apply (keeps_bind _ (pinKept_trans a)); [apply pin_attach|intros _].
    apply (keeps_bind _ (pinKept_trans a)); [apply pin_setMode|intros _].
    apply pin_showModelControls.
  - pin_step; [apply pin_attach|].
    pin_step; [apply pin_setMode|].
    pin_step; [apply pin_showCameraControls|apply pin_showCameraPreview].
Qed.

Lemma pin_deselectAll : keeps (pinKept a) deselectAll.
Proof.
  unfold deselectAll. pin_step.
  { intros s. destruct (selectedObject s); [|apply pinKept_refl].
    apply (keeps_bind _ (pinKept_trans a)); [apply pin_deselect|intros _]. pin_step. }
  pin_step; [apply pin_detach|apply pin_hideAllControlPanels].
Qed.

Lemma pin_onMouseClick (render_ok : bool) (h : Hit) :
  keeps (pinKept a) (onMouseClick render_ok h).
Proof.
  intros s. unfold onMouseClick.
  destruct (targetObject s h); [apply pin_selectObject|apply pin_deselectAll].
Qed.

Lemma pin_on_screen
    (f : LEDScreen.t -> Globals -> World -> LEDScreen.t * Globals * World) :
  keeps (pinKept a) (on_screen f).
Proof.
  intros s. unfold on_screen.
  destruct (ledScreen s) as [scr|]; [|apply pinKept_refl].
  destruct (f scr (globals s) (world s)) as [[scr' g'] w']. pin_fields.
Qed.

Lemma pin_newLEDScreen (mesh : Object3D) : keeps (pinKept a) (newLEDScreen mesh).
Proof.
  intros s. unfold newLEDScreen.
  destruct (LEDScreen.new _ _ _ _ _) as [scr w']. pin_fields.
Qed.

Lemma pin_switchStudio (loader : string -> option Object3D) (name : string)
    (preserve : bool) :
  keeps (pinKept a) (LEDStageApp.switchStudio loader name preserve).
Proof.
  intros s. unfold LEDStageApp.switchStudio.
  destruct (LEDStudioManager.switchStudio _ _ _ _ _) as [[res m'] w']. pin_fields.
Qed.

Lemma pin_assign_screen_material (f : Material.t -> Material.t) :
  keeps (pinKept a) (assign_screen_material f).
Proof.
  intros s. unfold assign_screen_material.
  destruct (ledScreen s) as [scr|]; [|apply pinKept_refl].
  destruct (LEDScreen.material scr); [pin_fields|apply pinKept_refl].
Qed.

Lemma pin_onStudioChange (loader : string -> option Object3D) (name : string) :
  keeps (pinKept a) (onStudioChange loader name).
Proof.
  unfold onStudioChange. destruct (String.eqb name ""); [pin_step|].
  pin_step; [|pin_step].
  intros s.
  apply (keeps_bind _ (pinKept_trans a)); [apply pin_switchStudio|].
  intros [[mesh st]|]; [|pin_step].
  pin_step; [apply pin_newLEDScreen|].
  pin_step; [|apply pin_on_screen].
  intros s1.
  destruct (globalCustomTexture (globals s)); [|apply pinKept_refl].
  destruct (globalCustomTexture (globals s1)); [|apply pinKept_refl].
  apply (keeps_bind _ (pinKept_trans a)); [apply pin_assign_screen_material|intros _].
  apply (keeps_bind _ (pinKept_trans a)); [apply pin_assign_screen_material|intros _].
  apply (keeps_bind _ (pinKept_trans a)); [pin_step|intros _].
  apply pin_assign_screen_material.
Qed.

Lemma pin_initializeStudioManager (exists_ : string -> bool)
    (loader : string -> option Object3D) :
  keeps (pinKept a) (initializeStudioManager exists_ loader).
Proof.
  unfold initializeStudioManager. pin_step; [|pin_step].
  pin_step; [pin_step|].
  apply (keeps_bind _ (pinKept_trans a)); [apply pin_switchStudio|].
  intros [[mesh st]|]; [|pin_step].
  pin_step; [apply pin_newLEDScreen|].
  apply keeps_modify. intros s.
  destruct (ledScreen s); [pin_fields|apply pinKept_refl].
Qed.

Lemma pin_loadGLTFModel (gltf : option Object3D) (name uid : string) :
  keeps (pinKept a) (loadGLTFModel gltf name uid).
Proof. intros s. unfold loadGLTFModel. destruct gltf; pin_fields. Qed.

Lemma pin_on_selected_camera (f : CinemaCamera.t -> CinemaCamera.t) :
  keeps (pinKept a) (on_selected_camera f).
Proof.
  intros s. unfold on_selected_camera.
  destruct (selectedObject s) as [[c|c]|]; try apply pinKept_refl.
  destruct (cameras s !! c); [pin_fields|apply pinKept_refl].
Qed.

Lemma pin_renderFullscreen (render_ok : bool) :
  keeps (pinKept a) (renderFullscreen render_ok).
Proof.
  intros s. unfold renderFullscreen.
  destruct (isFullscreen s); [|apply pinKept_refl].
  destruct (selectedObject s) as [[c|c]|]; try apply pinKept_refl.
  apply (keeps_bind _ (pinKept_trans a)).
  { apply (keeps_forEach _ (pinKept_refl a) (pinKept_trans a)). intros c'.
    pin_step; [apply pin_hideCamera|pin_step]. }
  intros _.
  apply (keeps_bind _ (pinKept_trans a)); [apply pin_set_gizmo_visible|intros _].
  apply pin_render.
Qed.

Lemma pin_enterFullscreen (render_ok : bool) :
  keeps (pinKept a) (enterFullscreen render_ok).
Proof.
  intros s. unfold enterFullscreen.
  destruct (selectedObject s) as [[c|c]|]; try apply pinKept_refl.
  apply (keeps_bind _ (pinKept_trans a)); [pin_step|intros _].
  apply (keeps_bind _ (pinKept_trans a)); [pin_step|intros _].
  apply pin_renderFullscreen.
Qed.

Lemma pin_exitFullscreen : keeps (pinKept a) exitFullscreen.
Proof.
  intros s. unfold exitFullscreen.
  destruct (isFullscreen s); [|apply pinKept_refl].
  apply (keeps_bind _ (pinKept_trans a)); [pin_step|intros _].
  destruct (selectedObject s) as [[c|c]|]; [pin_step| |pin_step].
  pin_step; [pin_step|].
  pin_step; [|apply pin_set_gizmo_visible].
  intros s1. destruct (cameras s1 !! c); [pin_fields|apply pinKept_refl].
Qed.

Lemma pinKept_bind_at {A B : Type} (m : M A) (k : A -> M B) (s : t) :
  pinKept a s (snd (m s)) ->
  (forall x, keeps (pinKept a) (k x)) ->
  pinKept a s (snd (bind m k s)).
Proof.
  intros Hm Hk. unfold bind. destruct (m s) as [[x|e] s1]; cbn [snd] in *; [|exact Hm].
  eapply pinKept_trans; [exact Hm|apply Hk].
Qed.

Lemma pin_deleteSelectedObject (s : t) :
  selectedObject s <> Some (RefCamera a) ->
  pinKept a s (snd (deleteSelectedObject s)).
Proof.
  intros Hne P. pose proof P as [Hp Hv]. revert P.
  unfold deleteSelectedObject.
  destruct (selectedObject s) as [[c|c]|] eqn:Hsel; [| |by intros P].
  - apply pinKept_bind_at.
    { destruct (objects s !! c); [|apply pinKept_refl].
      apply pinKept_bind_at; [pin_fields|intros _].
      apply (keeps_bind _ (pinKept_trans a)); [pin_step|intros _]. pin_step. }
    intros _. pin_step; [apply pin_detach|].
    pin_step; [apply pin_hideAllControlPanels|pin_step].
  - assert (Hca : a <> c) by congruence.
    apply pinKept_bind_at.
    { apply pinKept_bind_at.
      - rewrite Hp. destruct (Pos.eqb_spec a c) as [E|_]; [done|apply pinKept_refl].
      - intros _ s1. destruct (cameras s1 !! c); [|apply pinKept_refl].
        apply (keeps_bind _ (pinKept_trans a)); [pin_step|intros _]. pin_step. }
    intros _. pin_step; [apply pin_detach|].
    pin_step; [apply pin_hideAllControlPanels|pin_step].
Qed.

Lemma pin_handle (e : Event) (s : t) :
  e <> TogglePin ->
  (e = DeleteSelected -> selectedObject s <> Some (RefCamera a)) ->
  pinKept a s (step e s).
Proof.
  intros Ht Hd. unfold step, exec.
  destruct e; cbn [handle].
  - apply pin_initializeStudioManager.
  - apply pin_onStudioChange.
  - apply pin_on_screen.
  - apply pin_on_screen.
  - apply pin_on_screen.
  - apply (keeps_bind _ (pinKept_trans a)); [|intros _; pin_step].
    intros s1. unfold createCinemaCamera. pin_fields.
  - apply pin_loadGLTFModel.
  - apply pin_onMouseClick.
  - apply pin_selectObject.
  - apply pin_deselectAll.
  - by apply pin_deleteSelectedObject, Hd.
  - done.
  - unfold captureSelected.
    destruct (selectedObject s) as [[c|c]|]; try apply pinKept_refl. apply pin_capture.
  - unfold animate. apply (keeps_bind _ (pinKept_trans a)); [apply pin_render|intros _].
    intros s1. destruct (cameraPreviewRenderer s1); [|apply pinKept_refl].
    destruct (cameraToRender s1); [|apply pinKept_refl].
    apply pin_renderCameraPreview.
  - apply pin_on_selected_camera.
  - apply pin_on_selected_camera.
  - unfold keyMode.
    destruct (selectedObject s) as [[c|c]|]; [apply pin_setMode| |apply pinKept_refl].
    destruct m; first [apply pin_setMode|apply pinKept_refl].
  - unfold chooseTransformSpace.
    apply (keeps_bind _ (pinKept_trans a)); [pin_step|intros _].
    apply pin_updateTransformSpace.
  - unfold keyToggleSpace. destruct (selectedObject s); [|apply pinKept_refl].
    unfold toggleTransformSpace, chooseTransformSpace.
    apply (keeps_bind _ (pinKept_trans a)); [pin_step|intros _].
    apply pin_updateTransformSpace.
  - apply pin_enterFullscreen.
  - unfold onFullscreenButton.
    destruct (isFullscreen s); [apply pin_exitFullscreen|apply pin_enterFullscreen].
  - apply pin_renderFullscreen.
  - unfold onEscape.
    destruct (isFullscreen s); [apply pin_exitFullscreen|apply pin_deselectAll].
  - unfold loadPropFromLibrary. destruct prop as [d|].
    + destruct gltf; [apply pin_loadGLTFModel|]. apply keeps_modify. intros s1. pin_fields.
    + apply keeps_modify. intros s1. pin_fields.
Qed.

End PinKept.

(** While a camera is pinned and the preview viewport is displayed, an event
    other than the pin toggle, and other than the deletion of the selection
    when the pinned camera is the selection, leaves the same camera pinned and
    the viewport displayed, so that the preview goes on rendering from the
    pinned camera whatever gets selected. *)
Theorem pinned_preview_survives_other_events :
  forall (e : Event) (s : t) (a : Addr),
    pinnedCamera s = Some a ->
    camera_viewport (panels s) = true ->
    e <> TogglePin ->
    (e = DeleteSelected -> selectedObject s <> Some (RefCamera a)) ->
    pinnedCamera (step e s) = Some a
    /\ camera_viewport (panels (step e s)) = true
    /\ cameraToRender (step e s) = Some a.
Proof.
  intros e s a Hp Hv Ht Hd.
  destruct (pin_handle a e s Ht Hd (conj Hp Hv)) as [Hp' Hv'].
  split; [exact Hp'|]. split; [exact Hv'|].
  unfold cameraToRender. by rewrite Hp'.
Qed.

Definition cameraPinned : t := step TogglePin oneCameraSelected.

Lemma pinned_preview_survives_other_events_witness :
  let s' := step DeselectAll cameraPinned in
  pinnedCamera cameraPinned = Some 1%positive
  /\ camera_viewport (panels cameraPinned) = true
  /\ selectedObject s' = None
  /\ camera_viewport (panels s') = true
  /\ cameraToRender s' = Some 1%positive.
Proof.
  cbv zeta.
  assert (Hp : pinnedCamera cameraPinned = Some 1%positive) by (vm_compute; reflexivity).
  assert (Hv : camera_viewport (panels cameraPinned) = true) by (vm_compute; reflexivity).
  split; [exact Hp|]. split; [exact Hv|]. split; [vm_compute; reflexivity|].
  destruct (pinned_preview_survives_other_events DeselectAll cameraPinned 1%positive
              Hp Hv ltac:(discriminate) ltac:(discriminate))
    as (_ & Hv' & Hc).
  by split.
Defined.

(** ** The names of the cinema cameras *)

(** [s'] has the camera counter of [s], and every camera has kept its name. *)
Definition sameNames (s s' : t) : Prop :=
  cameraCounter s' = cameraCounter s
  /\ forall a, CinemaCamera.name <$> cameras s' !! a = CinemaCamera.name <$> cameras s !! a.

Lemma sameNames_refl (s : t) : sameNames s s.
Proof. by split. Qed.

Lemma sameNames_trans (s1 s2 s3 : t) :
  sameNames s1 s2 -> sameNames s2 s3 -> sameNames s1 s3.
Proof.
  intros [A1 A2] [B1 B2]. split; [congruence|]. intros a. by rewrite B2.
Qed.

Lemma sameNames_camera_update (s : t) (a : Addr) (c c' : CinemaCamera.t) :
  cameras s !! a = Some c ->
  CinemaCamera.name c' = CinemaCamera.name c ->
  sameNames s (set_cameras (insert a c') s).
Proof.
  intros Hc Hn. split; [reflexivity|]. intros a'. cbn.
  destruct (decide (a = a')) as [->|Hne].
  - rewrite lookup_insert_eq, Hc. cbn. by rewrite Hn.
  - by rewrite lookup_insert_ne.
Qed.

Ltac names_fields := split; [reflexivity|intros ?; reflexivity].

Ltac names_step :=
  first
    [ apply keeps_ret; apply sameNames_refl
    | apply keeps_throw; apply sameNames_refl
    | apply keeps_bind; [apply sameNames_trans| |intros ?]
    | apply keeps_try_catch; [apply sameNames_trans| |]
    | apply keeps_modify; intros ?; names_fields ].

Ltac names_camera s c :=
  let x := fresh "x" in
  let E := fresh "E" in
  destruct (cameras s !! c) as [x|] eqn:E;
    [cbn [snd]; apply (sameNames_camera_update s c x _ E)|apply sameNames_refl].

Lemma CinemaCamera_select_name (c : CinemaCamera.t) :
  CinemaCamera.name (CinemaCamera.select c) = CinemaCamera.name c.
Proof. unfold CinemaCamera.select. by destruct (CinemaCamera.isSelected c). Qed.

Lemma CinemaCamera_deselect_name (c : CinemaCamera.t) :
  CinemaCamera.name (CinemaCamera.deselect c) = CinemaCamera.name c.
Proof. unfold CinemaCamera.deselect. by destruct (CinemaCamera.isSelected c). Qed.

Lemma names_attach (o : Attached) : keeps sameNames (attach o).
Proof. unfold attach. names_step. Qed.

Lemma names_detach : keeps sameNames detach.
Proof. unfold detach. names_step. Qed.

Lemma names_setMode (m : Mode) : keeps sameNames (setMode m).
Proof. unfold setMode. names_step. Qed.

Lemma names_setSpace (sp : Space) : keeps sameNames (setSpace sp).
Proof. unfold setSpace. names_step. Qed.

Lemma names_set_gizmo_visible (v : bool) : keeps sameNames (set_gizmo_visible v).
Proof. unfold set_gizmo_visible. names_step. Qed.

Lemma names_showModelControls : keeps sameNames showModelControls.
Proof. unfold showModelControls. names_step. Qed.

Lemma names_showCameraControls : keeps sameNames showCameraControls.
Proof. unfold showCameraControls. names_step. Qed.

Lemma names_hideAllControlPanels : keeps sameNames hideAllControlPanels.
Proof. unfold hideAllControlPanels. names_step. Qed.

Lemma names_updateTransformSpace : keeps sameNames updateTransformSpace.
Proof. intros s. unfold updateTransformSpace. apply names_setSpace. Qed.

Lemma names_render (ok : bool) : keeps sameNames (render ok).
Proof. unfold render. destruct ok; names_step. Qed.

Lemma names_toDataURL (ok : bool) : keeps sameNames (toDataURL ok).
Proof. unfold toDataURL. destruct ok; names_step. Qed.

Lemma names_hideCamera (c : Addr) : keeps sameNames (hideCamera c).
Proof.
  intros s. unfold hideCamera. names_camera s c. reflexivity.
Qed.

Lemma names_hideCameras (l : list Addr) : keeps sameNames (hideCameras l).
Proof.
  induction l as [|c l IH]; simpl; [names_step|].
  names_step; [apply names_hideCamera|]. names_step; [exact IH|]. names_step.
Qed.

Lemma names_restoreCamera (vis : list (bool * bool)) (i : nat) (c : Addr) :
  keeps sameNames (restoreCamera vis i c).
Proof.
  unfold restoreCamera. destruct (nth_error vis i) as [[h m]|]; [|names_step].
  intros s. names_camera s c. reflexivity.
Qed.

Lemma names_restoreCameras (vis : list (bool * bool)) (l : list Addr) :
  forall i, keeps sameNames (restoreCameras vis i l).
Proof.
  induction l as [|c l IH]; intros i; simpl; [names_step|].
  names_step; [apply names_restoreCamera|apply IH].
Qed.

Lemma names_capture (render_ok encode_ok : bool) (c : Addr) :
  keeps sameNames (capture render_ok encode_ok c).
Proof.
  unfold capture. names_step.
  { intros s. unfold hideCameraVisualsForCapture.
    apply (keeps_bind _ sameNames_trans); [apply names_hideCameras|].
    intros vis s1.
    apply (keeps_bind _ sameNames_trans); [apply names_set_gizmo_visible|intros; names_step]. }
  names_step; [apply names_render|].
  names_step.
  { intros s. destruct (cameras s !! c); [|apply sameNames_refl].
    apply (keeps_bind _ sameNames_trans); [apply names_toDataURL|intros; names_step]. }
  names_step; [|names_step].
  unfold restoreCameraVisualsAfterCapture.
  names_step; [apply names_set_gizmo_visible|].
  intros s. apply names_restoreCameras.
Qed.

Lemma names_renderCameraPreview (render_ok : bool) :
  keeps sameNames (renderCameraPreview render_ok).
Proof.
  intros s. unfold renderCameraPreview.
  destruct (cameraToRender s); [|apply sameNames_refl].
  destruct (cameraPreviewRenderer s); [|apply sameNames_refl].
  apply (keeps_bind _ sameNames_trans); [apply names_hideCameras|].
  intros vis s1.
  apply (keeps_bind _ sameNames_trans); [apply names_set_gizmo_visible|intros _].
  apply (keeps_bind _ sameNames_trans); [apply names_render|intros _].
  apply (keeps_bind _ sameNames_trans); [apply names_set_gizmo_visible|intros _].
  apply names_restoreCameras.
Qed.

Lemma names_showCameraPreview (render_ok : bool) :
  keeps sameNames (showCameraPreview render_ok).
Proof.
  intros s. unfold showCameraPreview.
  destruct (selectedObject s) as [[c|c]|]; try apply sameNames_refl.
  apply (keeps_bind _ sameNames_trans).
  { unfold show_camera_viewport. names_step. }
  intros _.
  apply (keeps_bind _ sameNames_trans); [names_step|intros _].
  apply names_renderCameraPreview.
Qed.

Lemma names_select (r : Ref) : keeps sameNames (select r).
Proof.
  intros s. unfold select. destruct r as [c|c].
  - destruct (objects s !! c) as [o|]; [|apply sameNames_refl].
    destruct (SceneObject.select o (world s)) as [o' w']. names_fields.
  - names_camera s c. apply CinemaCamera_select_name.
Qed.

Lemma names_deselect (r : Ref) : keeps sameNames (deselect r).
Proof.
  intros s. unfold deselect. destruct r as [c|c].
  - destruct (objects s !! c) as [o|]; [|apply sameNames_refl].
    destruct (SceneObject.deselect o (world s)) as [[res o'] w']. names_fields.
  - names_camera s c. apply CinemaCamera_deselect_name.
Qed.

Lemma names_selectObject (render_ok : bool) (r : Ref) :
  keeps sameNames (selectObject render_ok r).
Proof.
  intros s. unfold selectObject.
  destruct (is_selected s r); [apply sameNames_refl|].
  apply (keeps_bind _ sameNames_trans).
  { destruct (selectedObject s); [apply names_deselect|names_step]. }
  intros _.
  apply (keeps_bind _ sameNames_trans); [names_step|intros _].
  apply (keeps_bind _ sameNames_trans); [apply names_select|intros _].
  apply (keeps_bind _ sameNames_trans); [|intros _; apply names_updateTransformSpace].
  destruct r as [c|c].
  - intros s1. destruct (objects s1 !! c); [|apply sameNames_refl].
    apply (keeps_bind _ sameNames_trans); [apply names_attach|intros _].
    apply (keeps_bind _ sameNames_trans); [apply names_setMode|intros _].
    apply names_showModelControls.
  - names_step; [apply names_attach|].
    names_step; [apply names_setMode|].
    names_step; [apply names_showCameraControls|apply names_showCameraPreview].
Qed.

Lemma names_deselectAll : keeps sameNames deselectAll.
Proof.
  unfold deselectAll. names_step.
  { intros s. destruct (selectedObject s); [|apply sameNames_refl].
    apply (keeps_bind _ sameNames_trans); [apply names_deselect|intros _]. names_step. }
  names_step; [apply names_detach|apply names_hideAllControlPanels].
Qed.

Lemma names_onMouseClick (render_ok : bool) (h : Hit) :
  keeps sameNames (onMouseClick render_ok h).
Proof.
  intros s. unfold onMouseClick.
  destruct (targetObject s h); [apply names_selectObject|apply names_deselectAll].
Qed.

Lemma names_on_screen
    (f : LEDScreen.t -> Globals -> World -> LEDScreen.t * Globals * World) :
  keeps sameNames (on_screen f).
Proof.
  intros s. unfold on_screen.
  destruct (ledScreen s) as [scr|]; [|apply sameNames_refl].
  destruct (f scr (globals s) (world s)) as [[scr' g'] w']. names_fields.
Qed.

Lemma names_newLEDScreen (mesh : Object3D) : keeps sameNames (newLEDScreen mesh).
Proof.
  intros s. unfold newLEDScreen.
  destruct (LEDScreen.new _ _ _ _ _) as [scr w']. names_fields.
Qed.

Lemma names_switchStudio (loader : string -> option Object3D) (name : string)
    (preserve : bool) :
  keeps sameNames (LEDStageApp.switchStudio loader name preserve).
Proof.
  intros s. unfold LEDStageApp.switchStudio.
  destruct (LEDStudioManager.switchStudio _ _ _ _ _) as [[res m'] w']. names_fields.
Qed.

Lemma names_assign_screen_material (f : Material.t -> Material.t) :
  keeps sameNames (assign_screen_material f).
Proof.
  intros s. unfold assign_screen_material.
  destruct (ledScreen s) as [scr|]; [|apply sameNames_refl].
  destruct (LEDScreen.material scr); [names_fields|apply sameNames_refl].
Qed.

Lemma names_onStudioChange (loader : string -> option Object3D) (name : string) :
  keeps sameNames (onStudioChange loader name).
Proof.
  unfold onStudioChange. destruct (String.eqb name ""); [names_step|].
  names_step; [|names_step].
  intros s.
  apply (keeps_bind _ sameNames_trans); [apply names_switchStudio|].
  intros [[mesh st]|]; [|names_step].
  names_step; [apply names_newLEDScreen|].
  names_step; [|apply names_on_screen].
  intros s1.
  destruct (globalCustomTexture (globals s)); [|apply sameNames_refl].
  destruct (globalCustomTexture (globals s1)); [|apply sameNames_refl].
  apply (keeps_bind _ sameNames_trans); [apply names_assign_screen_material|intros _].
  apply (keeps_bind _ sameNames_trans); [apply names_assign_screen_material|intros _].
  apply (keeps_bind _ sameNames_trans); [names_step|intros _].
  apply names_assign_screen_material.
Qed.

Lemma names_initializeStudioManager (exists_ : string -> bool)
    (loader : string -> option Object3D) :
  keeps sameNames (initializeStudioManager exists_ loader).
Proof.
  unfold initializeStudioManager. names_step; [|names_step].
  names_step; [names_step|].
  apply (keeps_bind _ sameNames_trans); [apply names_switchStudio|].
  intros [[mesh st]|]; [|names_step].
  names_step; [apply names_newLEDScreen|].
  apply keeps_modify. intros s.
  destruct (ledScreen s); [names_fields|apply sameNames_refl].
Qed.

Lemma names_loadGLTFModel (gltf : option Object3D) (name uid : string) :
  keeps sameNames (loadGLTFModel gltf name uid).
Proof. intros s. unfold loadGLTFModel. destruct gltf; names_fields. Qed.

Lemma names_on_selected_camera (f : CinemaCamera.t -> CinemaCamera.t) :
  (forall c, CinemaCamera.name (f c) = CinemaCamera.name c) ->
  keeps sameNames (on_selected_camera f).
Proof.
  intros Hf s. unfold on_selected_camera.
  destruct (selectedObject s) as [[c|c]|]; try apply sameNames_refl.
  names_camera s c. apply Hf.
Qed.

Lemma names_renderFullscreen (render_ok : bool) :
  keeps sameNames (renderFullscreen render_ok).
Proof.
  intros s. unfold renderFullscreen.
  destruct (isFullscreen s); [|apply sameNames_refl].
  destruct (selectedObject s) as [[c|c]|]; try apply sameNames_refl.
  apply (keeps_bind _ sameNames_trans).
  { apply (keeps_forEach _ sameNames_refl sameNames_trans). intros c'.
    names_step; [apply names_hideCamera|names_step]. }
  intros _.
  apply (keeps_bind _ sameNames_trans); [apply names_set_gizmo_visible|intros _].
  apply names_render.
Qed.

Lemma names_enterFullscreen (render_ok : bool) :
  keeps sameNames (enterFullscreen render_ok).
Proof.
  intros s. unfold enterFullscreen.
  destruct (selectedObject s) as [[c|c]|]; try apply sameNames_refl.
  apply (keeps_bind _ sameNames_trans); [names_step|intros _].
  apply (keeps_bind _ sameNames_trans); [names_step|intros _].
  apply names_renderFullscreen.
Qed.

Lemma names_exitFullscreen : keeps sameNames exitFullscreen.
Proof.
  intros s. unfold exitFullscreen.
  destruct (isFullscreen s); [|apply sameNames_refl].
  apply (keeps_bind _ sameNames_trans); [names_step|intros _].
  destruct (selectedObject s) as [[c|c]|]; [names_step| |names_step].
  names_step; [names_step|].
  names_step; [|apply names_set_gizmo_visible].
  intros s1. names_camera s1 c. reflexivity.
Qed.


Lemma names_togglePinCameraPreview : keeps sameNames togglePinCameraPreview.
Proof.
  intros s. unfold togglePinCameraPreview, unpinCameraPreview, pinCameraPreview.
  destruct (pinnedCamera s) as [p|].
  - apply (keeps_bind _ sameNames_trans); [names_step|intros _].
    destruct (selectedObject s) as [[c|c]|]; names_step.
  - destruct (selectedObject s) as [[c|c]|]; names_fields.
Qed.

Lemma names_deleteSelectedObject : keeps sameNames deleteSelectedObject.
Proof.
  intros s. unfold deleteSelectedObject.
  destruct (selectedObject s) as [[c|c]|]; [| |apply sameNames_refl].
  - apply (keeps_bind _ sameNames_trans).
    { intros s1. destruct (objects s1 !! c); [|apply sameNames_refl].
      apply (keeps_bind _ sameNames_trans); [names_step|intros _].
      apply (keeps_bind _ sameNames_trans); [names_step|intros _]. names_step. }
    intros _. names_step; [apply names_detach|].
    names_step; [apply names_hideAllControlPanels|names_step].
  - apply (keeps_bind _ sameNames_trans).
    { apply (keeps_bind _ sameNames_trans).
      - intros s1. destruct (pinnedCamera s1) as [p|] eqn:Hp; [|apply sameNames_refl].
        destruct (Pos.eqb p c); [|apply sameNames_refl].
        unfold unpinCameraPreview. rewrite Hp.
        apply (keeps_bind _ sameNames_trans); [names_step|intros _].
        destruct (selectedObject s1) as [[c'|c']|]; names_step.
      - intros _ s1. destruct (cameras s1 !! c); [|apply sameNames_refl].
        apply (keeps_bind _ sameNames_trans); [names_step|intros _]. names_step. }
    intros _. names_step; [apply names_detach|].
    names_step; [apply names_hideAllControlPanels|names_step].
Qed.

(** Every camera ever created is called [Camera k] for a number [k] the
    counter has passed, and two cameras never share a name. *)
Definition namesNumbered (s : t) : Prop :=
  (1 <= cameraCounter s)%nat
  /\ (forall a c, cameras s !! a = Some c ->
        exists k : nat, (1 <= k < cameraCounter s)%nat
                        /\ CinemaCamera.name c = "Camera " +:+ pretty k)
  /\ (forall a1 a2 c1 c2,
        cameras s !! a1 = Some c1 -> cameras s !! a2 = Some c2 ->
        CinemaCamera.name c1 = CinemaCamera.name c2 -> a1 = a2).

Lemma sameNames_lookup (s s' : t) (a : Addr) (c' : CinemaCamera.t) :
  sameNames s s' -> cameras s' !! a = Some c' ->
  exists c, cameras s !! a = Some c /\ CinemaCamera.name c = CinemaCamera.name c'.
Proof.
  intros [_ E] H. specialize (E a). rewrite H in E. cbn in E.
  destruct (cameras s !! a) as [c|]; [|discriminate].
  exists c. split; [reflexivity|]. cbn in E. congruence.
Qed.

Lemma namesNumbered_sameNames (s s' : t) :
  sameNames s s' -> namesNumbered s -> namesNumbered s'.
Proof.
  intros E (P & N & D). pose proof E as [Ec _]. split; [by rewrite Ec|]. split.
  - intros a c' H. destruct (sameNames_lookup s s' a c' E H) as (c & Hc & Hn).
    destruct (N a c Hc) as (k & Hk & Hname). exists k. rewrite Ec. split; [exact Hk|congruence].
  - intros a1 a2 c1 c2 H1 H2 Hn.
    destruct (sameNames_lookup s s' a1 c1 E H1) as (d1 & Hd1 & Hn1).
    destruct (sameNames_lookup s s' a2 c2 E H2) as (d2 & Hd2 & Hn2).
    apply (D a1 a2 d1 d2 Hd1 Hd2). congruence.
Qed.

Lemma camera_name_inj (k1 k2 : nat) :
  "Camera " +:+ pretty k1 = "Camera " +:+ pretty k2 -> k1 = k2.
Proof. intros H. apply (inj (String.app "Camera ")) in H. by apply (inj pretty). Qed.

Lemma namesNumbered_createCinemaCamera (uid : string) (s : t) :
  namesNumbered s -> namesNumbered (snd (createCinemaCamera uid s)).
Proof.
  intros (P & N & D). unfold createCinemaCamera. cbn [snd].
  pose proof (fresh_not_allocated (cameras s)) as Hf.
  set (a := fresh (dom (cameras s))) in *.
  set (camera := CinemaCamera.new ("Camera " +:+ pretty (cameraCounter s)) uid).
  assert (Hname : CinemaCamera.name camera = "Camera " +:+ pretty (cameraCounter s))
    by reflexivity.
  assert (L : forall a' c, <[a:=camera]> (cameras s) !! a' = Some c ->
                (a' = a /\ c = camera) \/ (a' <> a /\ cameras s !! a' = Some c)).
  { intros a' c H. destruct (decide (a = a')) as [<-|Hne].
    - rewrite lookup_insert_eq in H. left. split; congruence.
    - rewrite lookup_insert_ne in H by exact Hne. right. by split. }
  split; [cbn; lia|]. split.
  - intros a' c H. cbn in H. apply L in H as [[-> ->]|[_ H]].
    + exists (cameraCounter s). split; [cbn; lia|exact Hname].
    + destruct (N a' c H) as (k & Hk & Hn). exists k. split; [cbn; lia|exact Hn].
  - intros a1 a2 c1 c2 H1 H2 Hn. cbn in H1, H2.
    apply L in H1 as [[-> ->]|[Hne1 H1]]; apply L in H2 as [[-> ->]|[Hne2 H2]].
    + reflexivity.
    + exfalso. destruct (N a2 c2 H2) as (k & Hk & Hk').
      rewrite Hname, Hk' in Hn. apply camera_name_inj in Hn. lia.
    + exfalso. destruct (N a1 c1 H1) as (k & Hk & Hk').
      rewrite Hname, Hk' in Hn. apply camera_name_inj in Hn. lia.
    + by apply (D a1 a2 c1 c2).
Qed.

Lemma namesNumbered_step (e : Event) (s : t) : namesNumbered s -> namesNumbered (step e s).
Proof.
  intros I. unfold step, exec.
  destruct e; cbn [handle];
    lazymatch goal with
    | |- context [createCinemaCamera] => idtac
    | _ => apply (namesNumbered_sameNames s); [|exact I]
    end.
  - apply names_initializeStudioManager.
  - apply names_onStudioChange.
  - apply names_on_screen.
  - apply names_on_screen.
  - apply names_on_screen.
  - unfold bind. pose proof (namesNumbered_createCinemaCamera uid s I) as I'.
    by destruct (createCinemaCamera uid s) as [[x|x] s1].
  - apply names_loadGLTFModel.
  - apply names_onMouseClick.
  - apply names_selectObject.
  - apply names_deselectAll.
  - apply names_deleteSelectedObject.
  - apply names_togglePinCameraPreview.
  - unfold captureSelected.
    destruct (selectedObject s) as [[c|c]|]; try apply sameNames_refl. apply names_capture.
  - unfold animate. apply (keeps_bind _ sameNames_trans); [apply names_render|intros _].
    intros s1. destruct (cameraPreviewRenderer s1); [|apply sameNames_refl].
    destruct (cameraToRender s1); [|apply sameNames_refl].
    apply names_renderCameraPreview.
  - by apply names_on_selected_camera.
  - by apply names_on_selected_camera.
  - unfold keyMode.
    destruct (selectedObject s) as [[c|c]|]; [apply names_setMode| |apply sameNames_refl].
    destruct m; first [apply names_setMode|apply sameNames_refl].
  - unfold chooseTransformSpace.
    apply (keeps_bind _ sameNames_trans); [names_step|intros _].
    apply names_updateTransformSpace.
  - unfold keyToggleSpace. destruct (selectedObject s); [|apply sameNames_refl].
    unfold toggleTransformSpace, chooseTransformSpace.
    apply (keeps_bind _ sameNames_trans); [names_step|intros _].
    apply names_updateTransformSpace.
  - apply names_enterFullscreen.
  - unfold onFullscreenButton.
    destruct (isFullscreen s); [apply names_exitFullscreen|apply names_enterFullscreen].
  - apply names_renderFullscreen.
  - unfold onEscape.
    destruct (isFullscreen s); [apply names_exitFullscreen|apply names_deselectAll].
  - unfold loadPropFromLibrary. destruct prop as [d|].
    + destruct gltf; [apply names_loadGLTFModel|]. apply keeps_modify. intros s1. names_fields.
    + apply keeps_modify. intros s1. names_fields.
Qed.

Lemma namesNumbered_reachable (s : t) : reachable s -> namesNumbered s.
Proof.
  induction 1 as [materials textures|e s _ IH]; [|by apply namesNumbered_step].
  split; [cbn; lia|]. split.
  - intros a c H. cbn in H. by rewrite lookup_empty in H.
  - intros a1 a2 c1 c2 H. cbn in H. by rewrite lookup_empty in H.
Qed.

(** In every state the controller can be in, each cinema camera is called
    [Camera k] for a number [k] from 1 up to, and not including, the camera
    counter, and two different cameras have different names, also after
    cameras have been deleted: a number is never given out twice. *)
Theorem camera_names_are_never_reused :
  forall s : t,
    reachable s ->
    (forall a c, cameras s !! a = Some c ->
       exists k : nat, (1 <= k < cameraCounter s)%nat
                       /\ CinemaCamera.name c = "Camera " +:+ pretty k)
    /\ (forall a1 a2 c1 c2,
          cameras s !! a1 = Some c1 -> cameras s !! a2 = Some c2 ->
          a1 <> a2 -> CinemaCamera.name c1 <> CinemaCamera.name c2).
Proof.
  intros s Hr. destruct (namesNumbered_reachable s Hr) as (_ & N & D).
  split; [exact N|]. intros a1 a2 c1 c2 H1 H2 Hne Hn. by apply Hne, (D a1 a2 c1 c2).
Qed.

Definition cameraReplaced : t := step (AddCamera "cam-3") (step DeleteSelected twoCameras).

Lemma camera_names_are_never_reused_witness :
  exists c2 c3,
    cameras cameraReplaced !! 2%positive = Some c2
    /\ cameras cameraReplaced !! 3%positive = Some c3
    /\ ~ tracked cameraReplaced (RefCamera 2%positive)
    /\ CinemaCamera.name c2 <> CinemaCamera.name c3.
Proof.
  assert (Hr : reachable cameraReplaced)
    by (apply reachable_step, reachable_step, reachable_twoCameras).
  destruct (cameras cameraReplaced !! 2%positive) as [c2|] eqn:E2;
    [|vm_compute in E2; discriminate].
  destruct (cameras cameraReplaced !! 3%positive) as [c3|] eqn:E3;
    [|vm_compute in E3; discriminate].
  exists c2, c3. split; [reflexivity|]. split; [reflexivity|]. split.
  - vm_compute. intros [H|[H|[]]]; discriminate.
  - destruct (camera_names_are_never_reused cameraReplaced Hr) as [_ D].
    by apply (D 2%positive 3%positive).
Defined.

(** ** What a capture leaves behind *)

Lemma capture_fails_world (render_ok encode_ok : bool) (a : Addr) (s : t) :
  camerasTracked s ->
  In a (JS.values (cinemaCameras s)) ->
  render_ok && encode_ok = false ->
  world (exec (capture render_ok encode_ok a) s) = world s.
Proof.
  intros T Ha Hfail. pose proof T as [N A].
  destruct (hideCameras_spec _ s N A) as (cs1 & E1 & In1 & Out1).
  destruct (A a Ha) as [c Hc].
  unfold exec, capture, hideCameraVisualsForCapture. unfold bind at 1. unfold bind at 1.
  rewrite E1.
  cbv [bind set_gizmo_visible modify ret render throw toDataURL
       restoreCameraVisualsAfterCapture].
  cbn [cameras set_cameras set_transformControls set_world cinemaCameras
       vis_cameras vis_transformControls transformControls visible].
  destruct render_ok; [|reflexivity].
  destruct encode_ok; [discriminate|].
  cbn [cameras set_cameras set_transformControls set_world].
  rewrite (In1 a Ha), Hc. reflexivity.
Qed.

(** A capture of a camera of the collection downloads one picture, named
    after the camera, and disposes of its renderer when the render and the
    encoding both complete; when one of them throws, nothing is downloaded
    and the renderer is not disposed of.  The scene and the materials are the
    same in both cases. *)
Theorem capture_downloads_one_picture_when_it_completes :
  forall (s : t) (a : Addr) (c : CinemaCamera.t) (render_ok encode_ok : bool),
    reachable s ->
    In a (JS.values (cinemaCameras s)) ->
    cameras s !! a = Some c ->
    let w' := world (exec (capture render_ok encode_ok a) s) in
    downloads w'
    = (if render_ok && encode_ok
       then [CinemaCamera.name c +:+ "_capture.png"] else []) ++ downloads (world s)
    /\ disposed w'
       = (if render_ok && encode_ok then [RCaptureRenderer] else []) ++ disposed (world s)
    /\ scene w' = scene (world s)
    /\ mats w' = mats (world s).
Proof.
  intros s a c render_ok encode_ok Hr Ha Hc. cbv zeta.
  pose proof (reachable_camerasTracked s Hr) as T.
  destruct (render_ok && encode_ok) eqn:Hok.
  - apply andb_true_iff in Hok as [-> ->].
    unfold exec. rewrite (capture_completes a c s T Hc Ha). by repeat split.
  - rewrite (capture_fails_world render_ok encode_ok a s T Ha Hok). by repeat split.
Qed.

Lemma capture_downloads_one_picture_when_it_completes_witness :
  downloads (world (exec (capture true true 1%positive) oneCameraSelected))
  = ["Camera 1_capture.png"]
  /\ downloads (world (exec (capture true false 1%positive) oneCameraSelected)) = [].
Proof.
  assert (Ha : In 1%positive (JS.values (cinemaCameras oneCameraSelected)))
    by (vm_compute; by left).
  destruct (cameras oneCameraSelected !! 1%positive) as [c|] eqn:Hc;
    [|vm_compute in Hc; discriminate].
  assert (Hn : CinemaCamera.name c = "Camera 1")
    by (vm_compute in Hc; injection Hc as <-; reflexivity).
  destruct (capture_downloads_one_picture_when_it_completes oneCameraSelected 1%positive c
              true true reachable_oneCameraSelected Ha Hc) as (D1 & _).
  destruct (capture_downloads_one_picture_when_it_completes oneCameraSelected 1%positive c
              true false reachable_oneCameraSelected Ha Hc) as (D2 & _).
  split.
  - rewrite D1, Hn. vm_compute. reflexivity.
  - rewrite D2. vm_compute. reflexivity.
Defined.
